(** * Sentinel: a Raft replica, the replicated key-value layer and the
      linearizability checker, embedded from the Go sources.

    Conventions of the embedding.
    - Go's [int], [int64] and [uint] values that number log entries, terms,
      peers and requests are integers of [Z]; they are compared, and stepped
      by one, far from the bounds of 64 bits. The 64-bit words of the
      checker's bitset are [Z] with the wrap-around written out ([Lin.u64]).
    - A run-time panic (index out of range, nil dereference, failed type
      assertion) is the [None] of the option monad.
    - A buffered channel is the queue of the values sent on it.
    - The serializer is outside the verified core: a persisted blob is
      represented by the values it encodes. *)

From Stdlib Require Import ZArith List Lia Bool.
From stdpp Require Import base option list gmap strings.

Local Open Scope Z_scope.

(** ** Go slices *)
Module Go.

(** [s[i]] for a Go slice and an [int] index: out of range panics. *)
Definition index {A} (s : list A) (i : Z) : option A :=
  if i <? 0 then None else s !! Z.to_nat i.

(** [s[i] = v] for a Go slice: out of range panics. *)
Definition assign {A} (s : list A) (i : Z) (v : A) : option (list A) :=
  if (i <? 0) || (Z.of_nat (length s) <=? i) then None
  else Some (<[Z.to_nat i := v]> s).

(** [s[:k]]: the first [k] elements. A bound past the length is taken as the
    panic (Go allows it up to the capacity, which the model does not keep). *)
Definition slice_to {A} (s : list A) (k : Z) : option (list A) :=
  if (k <? 0) || (Z.of_nat (length s) <? k) then None
  else Some (take (Z.to_nat k) s).

(** [s[k:]]: what follows the first [k] elements; [k] past the length
    panics. *)
Definition slice_from {A} (s : list A) (k : Z) : option (list A) :=
  if (k <? 0) || (Z.of_nat (length s) <? k) then None
  else Some (drop (Z.to_nat k) s).

End Go.

(** ** Commands carried by the log *)

(** [Op] of the key-value server: the command a [Clerk] request becomes. *)
Module Op.
Record t := mk {
    Command : string;    (* "get" | "put" | "append" *)
    ClientId : Z;
    RequestId : Z;
    Key : string;
    Value : string }.
End Op.

(** Go's [interface{}] as the consensus layer sees it: nothing (the sentinel
    entry of the log) or an [Op] of the service. *)
Inductive Iface :=
| INil
| IOp (op : Op.t).

(** * The consensus replica (raft/raft.go) *)
Module Raft.
Import Go.

Module LogEntry.
Record t := mk { Index : Z; Term : Z; Command : Iface }.
End LogEntry.

Inductive State := STATE_CANDIDATE | STATE_FOLLOWER | STATE_LEADER.

Definition State_eqb (a b : State) : bool :=
  match a, b with
  | STATE_CANDIDATE, STATE_CANDIDATE
  | STATE_FOLLOWER, STATE_FOLLOWER
  | STATE_LEADER, STATE_LEADER => true
  | _, _ => false
  end.

Module ApplyMsg.
Record t := mk {
    CommandValid : bool;
    CommandIndex : Z;
    Command : Iface;
    UseSnapshot : bool;
    Snapshot : list Byte.byte }.
End ApplyMsg.

(** ** Persister *)

(** What [getRaftState] encodes: [currentTerm], [votedFor] and the log. *)
Module RaftState.
Record t := mk { currentTerm : Z; votedFor : Z; log : list LogEntry.t }.
End RaftState.

(** The calls a persister has served, oldest first. The Go object keeps only
    the two blobs; the history is kept beside them so that a statement can
    say which call wrote a blob. *)
Inductive PersistCall :=
| CallSaveRaftState (st : RaftState.t)
| CallSaveStateAndSnapshot (st : RaftState.t) (snap : list Byte.byte).

Module Persister.
Record t := mk {
    raftstate : option RaftState.t;   (* nil until the first save *)
    snapshot : list Byte.byte;
    calls : list PersistCall }.
End Persister.

Definition MakePersister : Persister.t := Persister.mk None [] [].

Definition SaveRaftState (st : RaftState.t) (ps : Persister.t) : Persister.t :=
  Persister.mk (Some st) (Persister.snapshot ps)
               (Persister.calls ps ++ [CallSaveRaftState st]).

Definition SaveStateAndSnapshot (st : RaftState.t) (snap : list Byte.byte)
    (ps : Persister.t) : Persister.t :=
  Persister.mk (Some st) snap
               (Persister.calls ps ++ [CallSaveStateAndSnapshot st snap]).

Definition ReadRaftState (ps : Persister.t) : option RaftState.t := Persister.raftstate ps.

Definition ReadSnapshot (ps : Persister.t) : list Byte.byte := Persister.snapshot ps.

(** ** Replica state *)

Record Raft := mkRaft {
  peers : nat;                      (* len(rf.peers); the end points are transport *)
  persister : Persister.t;
  me : Z;
  state : State;
  voteCount : Z;
  currentTerm : Z;
  votedFor : Z;
  log : list LogEntry.t;
  commitIndex : Z;
  lastApplied : Z;
  nextIndex : list Z;
  matchIndex : list Z;
  chanApply : list ApplyMsg.t;
  chanGrantVote : list bool;
  chanWinElect : list bool;
  chanHeartbeat : list bool;
  goApplyLog : nat                  (* how many [go rf.applyLog()] were started *)
}.

Definition set_persister v rf := mkRaft (peers rf) v (me rf) (state rf) (voteCount rf) (currentTerm rf) (votedFor rf) (log rf) (commitIndex rf) (lastApplied rf) (nextIndex rf) (matchIndex rf) (chanApply rf) (chanGrantVote rf) (chanWinElect rf) (chanHeartbeat rf) (goApplyLog rf).
Definition set_state v rf := mkRaft (peers rf) (persister rf) (me rf) v (voteCount rf) (currentTerm rf) (votedFor rf) (log rf) (commitIndex rf) (lastApplied rf) (nextIndex rf) (matchIndex rf) (chanApply rf) (chanGrantVote rf) (chanWinElect rf) (chanHeartbeat rf) (goApplyLog rf).
Definition set_currentTerm v rf := mkRaft (peers rf) (persister rf) (me rf) (state rf) (voteCount rf) v (votedFor rf) (log rf) (commitIndex rf) (lastApplied rf) (nextIndex rf) (matchIndex rf) (chanApply rf) (chanGrantVote rf) (chanWinElect rf) (chanHeartbeat rf) (goApplyLog rf).
Definition set_votedFor v rf := mkRaft (peers rf) (persister rf) (me rf) (state rf) (voteCount rf) (currentTerm rf) v (log rf) (commitIndex rf) (lastApplied rf) (nextIndex rf) (matchIndex rf) (chanApply rf) (chanGrantVote rf) (chanWinElect rf) (chanHeartbeat rf) (goApplyLog rf).
Definition set_log v rf := mkRaft (peers rf) (persister rf) (me rf) (state rf) (voteCount rf) (currentTerm rf) (votedFor rf) v (commitIndex rf) (lastApplied rf) (nextIndex rf) (matchIndex rf) (chanApply rf) (chanGrantVote rf) (chanWinElect rf) (chanHeartbeat rf) (goApplyLog rf).
Definition set_commitIndex v rf := mkRaft (peers rf) (persister rf) (me rf) (state rf) (voteCount rf) (currentTerm rf) (votedFor rf) (log rf) v (lastApplied rf) (nextIndex rf) (matchIndex rf) (chanApply rf) (chanGrantVote rf) (chanWinElect rf) (chanHeartbeat rf) (goApplyLog rf).
Definition set_lastApplied v rf := mkRaft (peers rf) (persister rf) (me rf) (state rf) (voteCount rf) (currentTerm rf) (votedFor rf) (log rf) (commitIndex rf) v (nextIndex rf) (matchIndex rf) (chanApply rf) (chanGrantVote rf) (chanWinElect rf) (chanHeartbeat rf) (goApplyLog rf).
Definition set_nextIndex v rf := mkRaft (peers rf) (persister rf) (me rf) (state rf) (voteCount rf) (currentTerm rf) (votedFor rf) (log rf) (commitIndex rf) (lastApplied rf) v (matchIndex rf) (chanApply rf) (chanGrantVote rf) (chanWinElect rf) (chanHeartbeat rf) (goApplyLog rf).
Definition set_matchIndex v rf := mkRaft (peers rf) (persister rf) (me rf) (state rf) (voteCount rf) (currentTerm rf) (votedFor rf) (log rf) (commitIndex rf) (lastApplied rf) (nextIndex rf) v (chanApply rf) (chanGrantVote rf) (chanWinElect rf) (chanHeartbeat rf) (goApplyLog rf).
Definition set_chanApply v rf := mkRaft (peers rf) (persister rf) (me rf) (state rf) (voteCount rf) (currentTerm rf) (votedFor rf) (log rf) (commitIndex rf) (lastApplied rf) (nextIndex rf) (matchIndex rf) v (chanGrantVote rf) (chanWinElect rf) (chanHeartbeat rf) (goApplyLog rf).
Definition set_chanGrantVote v rf := mkRaft (peers rf) (persister rf) (me rf) (state rf) (voteCount rf) (currentTerm rf) (votedFor rf) (log rf) (commitIndex rf) (lastApplied rf) (nextIndex rf) (matchIndex rf) (chanApply rf) v (chanWinElect rf) (chanHeartbeat rf) (goApplyLog rf).
Definition set_chanHeartbeat v rf := mkRaft (peers rf) (persister rf) (me rf) (state rf) (voteCount rf) (currentTerm rf) (votedFor rf) (log rf) (commitIndex rf) (lastApplied rf) (nextIndex rf) (matchIndex rf) (chanApply rf) (chanGrantVote rf) (chanWinElect rf) v (goApplyLog rf).
Definition set_goApplyLog v rf := mkRaft (peers rf) (persister rf) (me rf) (state rf) (voteCount rf) (currentTerm rf) (votedFor rf) (log rf) (commitIndex rf) (lastApplied rf) (nextIndex rf) (matchIndex rf) (chanApply rf) (chanGrantVote rf) (chanWinElect rf) (chanHeartbeat rf) v.

(** [min] of raft/util.go. *)
Definition min (x y : Z) : Z := if x <? y then x else y.

Definition getLastLogTerm (rf : Raft) : option Z :=
  e ← index (log rf) (Z.of_nat (length (log rf)) - 1); Some (LogEntry.Term e).

Definition getLastLogIndex (rf : Raft) : option Z :=
  e ← index (log rf) (Z.of_nat (length (log rf)) - 1); Some (LogEntry.Index e).

Definition getRaftState (rf : Raft) : RaftState.t :=
  RaftState.mk (currentTerm rf) (votedFor rf) (log rf).

Definition persist (rf : Raft) : Raft :=
  set_persister (SaveRaftState (getRaftState rf) (persister rf)) rf.

(** The three assignments every handler makes on seeing a larger term. *)
Definition becomeFollower (term : Z) (rf : Raft) : Raft :=
  set_votedFor (-1) (set_currentTerm term (set_state STATE_FOLLOWER rf)).

(** [Make] on a new persister and an empty channel of the service:
    [readPersist] and [recoverFromSnapshot] return at once. [MakeOn] below is
    the whole of [Make], on any persister. *)
Definition Make (peers : nat) (me : Z) : Raft :=
  persist (mkRaft peers MakePersister me STATE_FOLLOWER 0 0 (-1) [LogEntry.mk 0 0 INil]
                  0 0 [] [] [] [] [] [] 0).

(** ** Start *)

Definition Start (command : Iface) (rf : Raft) : option (Raft * (Z * Z * bool)) :=
  let isLeader := State_eqb (state rf) STATE_LEADER in
  if isLeader then
    let term := currentTerm rf in
    last ← getLastLogIndex rf;
    let index := last + 1 in
    let rf := set_log (log rf ++ [LogEntry.mk index term command]) rf in
    let rf := persist rf in
    Some (rf, (index, term, isLeader))
  else Some (rf, (-1, -1, isLeader)).

(** ** RequestVote *)

Module RequestVoteArgs.
Record t := mk { Term : Z; CandidateId : Z; LastLogIndex : Z; LastLogTerm : Z }.
End RequestVoteArgs.

Module RequestVoteReply.
Record t := mk { Term : Z; VoteGranted : bool }.
Definition set_Term v r := mk v (VoteGranted r).
Definition set_VoteGranted v r := mk (Term r) v.
End RequestVoteReply.

Definition isUpToDate (rf : Raft) (candidateTerm candidateIndex : Z) : option bool :=
  term ← getLastLogTerm rf;
  index ← getLastLogIndex rf;
  Some ((candidateTerm >? term) || ((candidateTerm =? term) && (candidateIndex >=? index))).

(** The handler before its deferred [rf.persist()]. *)
Definition RequestVote_body (args : RequestVoteArgs.t) (reply : RequestVoteReply.t)
    (rf : Raft) : option (Raft * RequestVoteReply.t) :=
  if RequestVoteArgs.Term args <? currentTerm rf then
    let reply := RequestVoteReply.set_Term (currentTerm rf) reply in
    let reply := RequestVoteReply.set_VoteGranted false reply in
    Some (rf, reply)
  else
    let rf := if RequestVoteArgs.Term args >? currentTerm rf
              then becomeFollower (RequestVoteArgs.Term args) rf else rf in
    let reply := RequestVoteReply.set_Term (currentTerm rf) reply in
    let reply := RequestVoteReply.set_VoteGranted false reply in
    if (votedFor rf =? -1) || (votedFor rf =? RequestVoteArgs.CandidateId args) then
      up ← isUpToDate rf (RequestVoteArgs.LastLogTerm args) (RequestVoteArgs.LastLogIndex args);
      if up : bool then
        let rf := set_votedFor (RequestVoteArgs.CandidateId args) rf in
        let reply := RequestVoteReply.set_VoteGranted true reply in
        let rf := set_chanGrantVote (chanGrantVote rf ++ [true]) rf in
        Some (rf, reply)
      else Some (rf, reply)
    else Some (rf, reply).

Definition RequestVote (args : RequestVoteArgs.t) (reply : RequestVoteReply.t)
    (rf : Raft) : option (Raft * RequestVoteReply.t) :=
  '(rf, reply) ← RequestVote_body args reply rf;
  Some (persist rf, reply).

(** ** AppendEntries *)

Module AppendEntriesArgs.
Record t := mk {
  Term : Z;
  LeaderId : Z;
  PrevLogIndex : Z;
  PrevLogTerm : Z;
  Entries : list LogEntry.t;
  LeaderCommit : Z }.
End AppendEntriesArgs.

Module AppendEntriesReply.
Record t := mk { Term : Z; Success : bool; NextTryIndex : Z }.
Definition set_Term v r := mk v (Success r) (NextTryIndex r).
Definition set_Success v r := mk (Term r) v (NextTryIndex r).
Definition set_NextTryIndex v r := mk (Term r) (Success r) v.
(** The reply object the transport and [sendAppendEntries] hand to the
    handler: [&AppendEntriesReply{}]. *)
Definition zero : t := mk 0 false 0.
End AppendEntriesReply.

(** The backward walk of the conflict branch:
    [for i := args.PrevLogIndex - 1; i >= baseIndex; i-- { if rf.log[i-baseIndex].Term != term
    { reply.NextTryIndex = i + 1; break } }].
    [n] is the number of values of [i] still to visit, [i - baseIndex + 1];
    [nti] is [reply.NextTryIndex] as the loop found it. *)
Fixpoint conflictWalk (lg : list LogEntry.t) (baseIndex term : Z) (i : Z) (n : nat)
    (nti : Z) : option Z :=
  match n with
  | O => Some nti
  | S n' =>
      e ← index lg (i - baseIndex);
      if negb (LogEntry.Term e =? term) then Some (i + 1)
      else conflictWalk lg baseIndex term (i - 1) n' nti
  end.

(** The handler before its deferred [rf.persist()]. *)
Definition AppendEntries_body (args : AppendEntriesArgs.t) (reply : AppendEntriesReply.t)
    (rf : Raft) : option (Raft * AppendEntriesReply.t) :=
  let reply := AppendEntriesReply.set_Success false reply in
  if AppendEntriesArgs.Term args <? currentTerm rf then
    let reply := AppendEntriesReply.set_Term (currentTerm rf) reply in
    last ← getLastLogIndex rf;
    Some (rf, AppendEntriesReply.set_NextTryIndex (last + 1) reply)
  else
    let rf := if AppendEntriesArgs.Term args >? currentTerm rf
              then becomeFollower (AppendEntriesArgs.Term args) rf else rf in
    let rf := set_chanHeartbeat (chanHeartbeat rf ++ [true]) rf in
    let reply := AppendEntriesReply.set_Term (currentTerm rf) reply in
    last ← getLastLogIndex rf;
    if AppendEntriesArgs.PrevLogIndex args >? last then
      Some (rf, AppendEntriesReply.set_NextTryIndex (last + 1) reply)
    else
      e0 ← index (log rf) 0;
      let baseIndex := LogEntry.Index e0 in
      let prev := AppendEntriesArgs.PrevLogIndex args in
      conflict ←
        (if prev >=? baseIndex then
           ep ← index (log rf) (prev - baseIndex);
           Some (negb (AppendEntriesArgs.PrevLogTerm args =? LogEntry.Term ep))
         else Some false);
      if conflict : bool then
        ep ← index (log rf) (prev - baseIndex);
        let term := LogEntry.Term ep in
        nti ← conflictWalk (log rf) baseIndex term (prev - 1)
                (Z.to_nat (prev - baseIndex)) (AppendEntriesReply.NextTryIndex reply);
        Some (rf, AppendEntriesReply.set_NextTryIndex nti reply)
      else if prev >=? baseIndex - 1 then
        kept ← slice_to (log rf) (prev - baseIndex + 1);
        let rf := set_log kept rf in
        let rf := set_log (log rf ++ AppendEntriesArgs.Entries args) rf in
        let reply := AppendEntriesReply.set_Success true reply in
        let reply := AppendEntriesReply.set_NextTryIndex
                       (prev + Z.of_nat (length (AppendEntriesArgs.Entries args))) reply in
        if commitIndex rf <? AppendEntriesArgs.LeaderCommit args then
          last' ← getLastLogIndex rf;
          let rf := set_commitIndex (min (AppendEntriesArgs.LeaderCommit args) last') rf in
          let rf := set_goApplyLog (S (goApplyLog rf)) rf in
          Some (rf, reply)
        else Some (rf, reply)
      else Some (rf, reply).

Definition AppendEntries (args : AppendEntriesArgs.t) (reply : AppendEntriesReply.t)
    (rf : Raft) : option (Raft * AppendEntriesReply.t) :=
  '(rf, reply) ← AppendEntries_body args reply rf;
  Some (persist rf, reply).

(** ** applyLog *)

(** [for i := rf.lastApplied + 1; i <= rf.commitIndex; i++ { ... rf.chanApply <- msg }];
    [n] is the number of values of [i] still to visit. *)
Fixpoint applyLoop (lg : list LogEntry.t) (baseIndex : Z) (i : Z) (n : nat)
    (ch : list ApplyMsg.t) : option (list ApplyMsg.t) :=
  match n with
  | O => Some ch
  | S n' =>
      e ← index lg (i - baseIndex);
      let msg := ApplyMsg.mk true i (LogEntry.Command e) false [] in
      applyLoop lg baseIndex (i + 1) n' (ch ++ [msg])
  end.

Definition applyLog (rf : Raft) : option Raft :=
  e0 ← index (log rf) 0;
  let baseIndex := LogEntry.Index e0 in
  ch ← applyLoop (log rf) baseIndex (lastApplied rf + 1)
         (Z.to_nat (commitIndex rf - lastApplied rf)) (chanApply rf);
  let rf := set_chanApply ch rf in
  Some (set_lastApplied (commitIndex rf) rf).

(** ** The leader's handling of an AppendEntries reply *)

(** [for i := range rf.peers { if i != rf.me && rf.matchIndex[i] >= N { count++ } }],
    over the peer numbers [ps], starting from [count]. *)
Fixpoint countMatch (rf : Raft) (N : Z) (ps : list nat) (count : Z) : option Z :=
  match ps with
  | [] => Some count
  | i :: ps' =>
      if negb (Z.of_nat i =? me rf) then
        m ← index (matchIndex rf) (Z.of_nat i);
        countMatch rf N ps' (if m >=? N then count + 1 else count)
      else countMatch rf N ps' count
  end.

(** The commit phase:
    [for N := rf.getLastLogIndex(); N > rf.commitIndex && rf.log[N-baseIndex].Term == rf.currentTerm; N-- { ... }].
    [n] is the number of values of [N] above [rf.commitIndex] still to visit. *)
Fixpoint commitLoop (rf : Raft) (baseIndex : Z) (N : Z) (n : nat) : option Raft :=
  match n with
  | O => Some rf
  | S n' =>
      e ← index (log rf) (N - baseIndex);
      if LogEntry.Term e =? currentTerm rf then
        count ← countMatch rf N (seq 0 (peers rf)) 1;
        if count >? Z.of_nat (peers rf) / 2 then
          let rf := set_commitIndex N rf in
          Some (set_goApplyLog (S (goApplyLog rf)) rf)
        else commitLoop rf baseIndex (N - 1) n'
      else Some rf
  end.

Definition commitPhase (rf : Raft) : option Raft :=
  e0 ← index (log rf) 0;
  let baseIndex := LogEntry.Index e0 in
  last ← getLastLogIndex rf;
  commitLoop rf baseIndex last (Z.to_nat (last - commitIndex rf)).

(** [sendAppendEntries] from the return of [Call] on: [ok] is what [Call]
    returned and [reply] what it filled in. *)
Definition sendAppendEntries (server : Z) (args : AppendEntriesArgs.t)
    (reply : AppendEntriesReply.t) (ok : bool) (rf : Raft) : option (Raft * bool) :=
  if negb ok || negb (State_eqb (state rf) STATE_LEADER)
     || negb (AppendEntriesArgs.Term args =? currentTerm rf) then Some (rf, ok)
  else if AppendEntriesReply.Term reply >? currentTerm rf then
    let rf := set_currentTerm (AppendEntriesReply.Term reply) rf in
    let rf := set_state STATE_FOLLOWER rf in
    let rf := set_votedFor (-1) rf in
    Some (persist rf, ok)
  else
    rf ←
      (if AppendEntriesReply.Success reply then
         if Z.of_nat (length (AppendEntriesArgs.Entries args)) >? 0 then
           e ← index (AppendEntriesArgs.Entries args)
                 (Z.of_nat (length (AppendEntriesArgs.Entries args)) - 1);
           ni ← assign (nextIndex rf) server (LogEntry.Index e + 1);
           let rf := set_nextIndex ni rf in
           n ← index (nextIndex rf) server;
           mi ← assign (matchIndex rf) server (n - 1);
           Some (set_matchIndex mi rf)
         else Some rf
       else
         last ← getLastLogIndex rf;
         ni ← assign (nextIndex rf) server (min (AppendEntriesReply.NextTryIndex reply) last);
         Some (set_nextIndex ni rf));
    rf ← commitPhase rf;
    Some (rf, ok).

(** ** InstallSnapshot *)

Module InstallSnapshotArgs.
Record t := mk {
  Term : Z;
  LeaderId : Z;
  LastIncludedIndex : Z;
  LastIncludedTerm : Z;
  Data : list Byte.byte }.
End InstallSnapshotArgs.

Module InstallSnapshotReply.
Record t := mk { Term : Z }.
End InstallSnapshotReply.

(** The scan of [trimLog]: [for i := len(rf.log) - 1; i >= 0; i-- { if rf.log[i] matches
    { newLog = append(newLog, rf.log[i+1:]...); break } }], with [n = i + 1]. *)
Fixpoint trimScan (lg : list LogEntry.t) (lastIncludedIndex lastIncludedTerm : Z)
    (n : nat) (newLog : list LogEntry.t) : list LogEntry.t :=
  match n with
  | O => newLog
  | S i =>
      match lg !! i with
      | Some e =>
          if (LogEntry.Index e =? lastIncludedIndex) && (LogEntry.Term e =? lastIncludedTerm)
          then newLog ++ drop (S i) lg
          else trimScan lg lastIncludedIndex lastIncludedTerm i newLog
      | None => newLog   (* not reached: [i < len(rf.log)] *)
      end
  end.

Definition trimLog (lastIncludedIndex lastIncludedTerm : Z) (rf : Raft) : Raft :=
  let newLog := [] in
  let newLog := newLog ++ [LogEntry.mk lastIncludedIndex lastIncludedTerm INil] in
  set_log (trimScan (log rf) lastIncludedIndex lastIncludedTerm (length (log rf)) newLog) rf.

Definition InstallSnapshot (args : InstallSnapshotArgs.t) (reply : InstallSnapshotReply.t)
    (rf : Raft) : Raft * InstallSnapshotReply.t :=
  if InstallSnapshotArgs.Term args <? currentTerm rf then
    (rf, InstallSnapshotReply.mk (currentTerm rf))
  else
    let rf := if InstallSnapshotArgs.Term args >? currentTerm rf
              then persist (becomeFollower (InstallSnapshotArgs.Term args) rf) else rf in
    let rf := set_chanHeartbeat (chanHeartbeat rf ++ [true]) rf in
    let reply := InstallSnapshotReply.mk (currentTerm rf) in
    if InstallSnapshotArgs.LastIncludedIndex args >? commitIndex rf then
      let rf := trimLog (InstallSnapshotArgs.LastIncludedIndex args)
                        (InstallSnapshotArgs.LastIncludedTerm args) rf in
      let rf := set_lastApplied (InstallSnapshotArgs.LastIncludedIndex args) rf in
      let rf := set_commitIndex (InstallSnapshotArgs.LastIncludedIndex args) rf in
      let rf := set_persister (SaveStateAndSnapshot (getRaftState rf)
                                 (InstallSnapshotArgs.Data args) (persister rf)) rf in
      let msg := ApplyMsg.mk false 0 INil true (InstallSnapshotArgs.Data args) in
      let rf := set_chanApply (chanApply rf ++ [msg]) rf in
      (rf, reply)
    else (rf, reply).


(** ** The rest of the replica *)

Definition set_voteCount v rf := mkRaft (peers rf) (persister rf) (me rf) (state rf) v (currentTerm rf) (votedFor rf) (log rf) (commitIndex rf) (lastApplied rf) (nextIndex rf) (matchIndex rf) (chanApply rf) (chanGrantVote rf) (chanWinElect rf) (chanHeartbeat rf) (goApplyLog rf).
Definition set_chanWinElect v rf := mkRaft (peers rf) (persister rf) (me rf) (state rf) (voteCount rf) (currentTerm rf) (votedFor rf) (log rf) (commitIndex rf) (lastApplied rf) (nextIndex rf) (matchIndex rf) (chanApply rf) (chanGrantVote rf) v (chanHeartbeat rf) (goApplyLog rf).

Definition GetState (rf : Raft) : Z * bool :=
  let term := currentTerm rf in
  let isleader := State_eqb (state rf) STATE_LEADER in
  (term, isleader).

(** *** Elections *)

(** [sendRequestVote] from the return of [Call] on, before its deferred
    [rf.persist()]: [ok] is what [Call] returned and [reply] what it filled
    in. *)
Definition sendRequestVote_body (server : Z) (args : RequestVoteArgs.t)
    (reply : RequestVoteReply.t) (ok : bool) (rf : Raft) : option Raft :=
  if ok then
    if negb (State_eqb (state rf) STATE_CANDIDATE)
       || negb (currentTerm rf =? RequestVoteArgs.Term args) then Some rf
    else if currentTerm rf <? RequestVoteReply.Term reply then
      Some (becomeFollower (RequestVoteReply.Term reply) rf)
    else if RequestVoteReply.VoteGranted reply then
      let rf := set_voteCount (voteCount rf + 1) rf in
      if voteCount rf >? Z.of_nat (peers rf) / 2 then
        let rf := set_state STATE_LEADER rf in
        let rf := persist rf in
        let rf := set_nextIndex (replicate (peers rf) 0) rf in
        let rf := set_matchIndex (replicate (peers rf) 0) rf in
        last ← getLastLogIndex rf;
        let nextIndex := last + 1 in
        let rf := set_nextIndex (replicate (length (Raft.nextIndex rf)) nextIndex) rf in
        Some (set_chanWinElect (chanWinElect rf ++ [true]) rf)
      else Some rf
    else Some rf
  else Some rf.

Definition sendRequestVote (server : Z) (args : RequestVoteArgs.t)
    (reply : RequestVoteReply.t) (ok : bool) (rf : Raft) : option (Raft * bool) :=
  rf ← sendRequestVote_body server args reply ok rf;
  Some (persist rf, ok).

(** The arguments [broadcastRequestVote] builds, and the peers it sends them
    to. *)
Definition requestVoteArgs (rf : Raft) : option RequestVoteArgs.t :=
  lastIndex ← getLastLogIndex rf;
  lastTerm ← getLastLogTerm rf;
  Some (RequestVoteArgs.mk (currentTerm rf) (me rf) lastIndex lastTerm).

Definition broadcastRequestVote (rf : Raft) : option (list (nat * RequestVoteArgs.t)) :=
  args ← requestVoteArgs rf;
  Some (omap (fun server =>
                if negb (Z.of_nat server =? me rf) && State_eqb (state rf) STATE_CANDIDATE
                then Some (server, args) else None)
             (seq 0 (peers rf))).

(** The turns of [Run] that change the replica. A follower whose timer fires
    first becomes a candidate: *)
Definition followerTimeout (rf : Raft) : Raft :=
  persist (set_state STATE_CANDIDATE rf).

(** a candidate opens its turn by starting an election: *)
Definition startElection (rf : Raft) : Raft :=
  let rf := set_currentTerm (currentTerm rf + 1) rf in
  let rf := set_votedFor (me rf) rf in
  let rf := set_voteCount 1 rf in
  persist rf.

(** and a candidate that then receives from [chanHeartbeat] steps back. *)
Definition candidateHeartbeat (rf : Raft) : Raft :=
  set_state STATE_FOLLOWER (set_chanHeartbeat (tail (chanHeartbeat rf)) rf).

(** The other receives of [Run]'s two [select]s take a value off a channel
    and leave the rest of the replica as it is: a follower's from
    [chanGrantVote] and from [chanHeartbeat], *)
Definition followerGrantVote (rf : Raft) : Raft :=
  set_chanGrantVote (tail (chanGrantVote rf)) rf.

Definition followerHeartbeat (rf : Raft) : Raft :=
  set_chanHeartbeat (tail (chanHeartbeat rf)) rf.

(** and a candidate's from [chanWinElect]. A candidate's timer and the
    leader's turn, which starts [broadcastHeartbeat] and sleeps, assign
    nothing. *)
Definition candidateWinElect (rf : Raft) : Raft :=
  set_chanWinElect (tail (chanWinElect rf)) rf.

(** *** Starting on saved state *)

(** [readPersist]. The blob is the saved [RaftState.t]; nothing is restored
    from a persister that was never written. The three fields are decoded
    over what [Make] has assigned; the one entry its log holds by then is
    the zero entry, of which the decoding keeps nothing. *)
Definition readPersist (data : option RaftState.t) (rf : Raft) : Raft :=
  match data with
  | None => rf
  | Some st =>
      let rf := set_currentTerm (RaftState.currentTerm st) rf in
      let rf := set_votedFor (RaftState.votedFor st) rf in
      set_log (RaftState.log st) rf
  end.

(** [recoverFromSnapshot]. [decode snapshot] stands for the two integers the
    decoder reads at the head of the snapshot. *)
Definition recoverFromSnapshot (decode : list Byte.byte → Z * Z) (snapshot : list Byte.byte)
    (rf : Raft) : Raft :=
  if (length snapshot <? 1)%nat then rf
  else
    let lastIncludedIndex := (decode snapshot).1 in
    let lastIncludedTerm := (decode snapshot).2 in
    let rf := set_lastApplied lastIncludedIndex rf in
    let rf := set_commitIndex lastIncludedIndex rf in
    let rf := trimLog lastIncludedIndex lastIncludedTerm rf in
    let msg := ApplyMsg.mk false 0 INil true snapshot in
    set_chanApply (chanApply rf ++ [msg]) rf.

(** The whole of [Make], on any persister: a new one, or the one a replica
    wrote before it stopped. [applyCh] is what the channel of the service
    holds. [Make] above is the case of [MakePersister] and an empty
    channel. *)
Definition MakeOn (decode : list Byte.byte → Z * Z) (peers : nat) (me : Z)
    (persister : Persister.t) (applyCh : list ApplyMsg.t) : Raft :=
  let rf := mkRaft peers persister me STATE_FOLLOWER 0 0 (-1) [LogEntry.mk 0 0 INil]
                   0 0 [] [] applyCh [] [] [] 0 in
  let rf := readPersist (ReadRaftState persister) rf in
  let rf := recoverFromSnapshot decode (ReadSnapshot persister) rf in
  persist rf.

(** *** Heartbeats *)

(** What [broadcastHeartbeat] sends to one peer. *)
Inductive Heartbeat :=
| CallAppendEntries (server : nat) (args : AppendEntriesArgs.t)
| CallInstallSnapshot (server : nat) (args : InstallSnapshotArgs.t).

(** The body of [broadcastHeartbeat]'s loop for [server], [baseIndex] and
    [snapshot] read before the loop. *)
Definition heartbeatFor (baseIndex : Z) (snapshot : list Byte.byte) (server : nat)
    (rf : Raft) : option Heartbeat :=
  next ← index (nextIndex rf) (Z.of_nat server);
  if next >? baseIndex then
    let prevLogIndex := next - 1 in
    prevLogTerm ←
      (if prevLogIndex >=? baseIndex then
         e ← index (log rf) (prevLogIndex - baseIndex); Some (LogEntry.Term e)
       else Some 0);
    last ← getLastLogIndex rf;
    entries ←
      (if next <=? last then slice_from (log rf) (next - baseIndex) else Some []);
    Some (CallAppendEntries server
            (AppendEntriesArgs.mk (currentTerm rf) (me rf) prevLogIndex prevLogTerm
                                  entries (commitIndex rf)))
  else
    e0 ← index (log rf) 0;
    Some (CallInstallSnapshot server
            (InstallSnapshotArgs.mk (currentTerm rf) (me rf) (LogEntry.Index e0)
                                    (LogEntry.Term e0) snapshot)).

Fixpoint heartbeatLoop (baseIndex : Z) (snapshot : list Byte.byte) (servers : list nat)
    (rf : Raft) : option (list Heartbeat) :=
  match servers with
  | [] => Some []
  | server :: servers' =>
      if negb (Z.of_nat server =? me rf) && State_eqb (state rf) STATE_LEADER then
        h ← heartbeatFor baseIndex snapshot server rf;
        hs ← heartbeatLoop baseIndex snapshot servers' rf;
        Some (h :: hs)
      else heartbeatLoop baseIndex snapshot servers' rf
  end.

Definition broadcastHeartbeat (rf : Raft) : option (list Heartbeat) :=
  e0 ← index (log rf) 0;
  let baseIndex := LogEntry.Index e0 in
  let snapshot := ReadSnapshot (persister rf) in
  heartbeatLoop baseIndex snapshot (seq 0 (peers rf)) rf.

(** [sendInstallSnapshot] from the return of [Call] on. *)
Definition sendInstallSnapshot (server : Z) (args : InstallSnapshotArgs.t)
    (reply : InstallSnapshotReply.t) (ok : bool) (rf : Raft) : option (Raft * bool) :=
  if negb ok || negb (State_eqb (state rf) STATE_LEADER)
     || negb (InstallSnapshotArgs.Term args =? currentTerm rf) then Some (rf, ok)
  else if InstallSnapshotReply.Term reply >? currentTerm rf then
    let rf := set_currentTerm (InstallSnapshotReply.Term reply) rf in
    let rf := set_state STATE_FOLLOWER rf in
    let rf := set_votedFor (-1) rf in
    Some (persist rf, ok)
  else
    ni ← assign (nextIndex rf) server (InstallSnapshotArgs.LastIncludedIndex args + 1);
    let rf := set_nextIndex ni rf in
    mi ← assign (matchIndex rf) server (InstallSnapshotArgs.LastIncludedIndex args);
    Some (set_matchIndex mi rf, ok).

(** *** Snapshots made by the service *)

(** [CreateSnapshot]. [header lastIncludedIndex lastIncludedTerm] stands for
    the bytes the serializer writes for the two integers. *)
Definition CreateSnapshot (header : Z → Z → list Byte.byte) (kvSnapshot : list Byte.byte)
    (index : Z) (rf : Raft) : option Raft :=
  e0 ← Go.index (log rf) 0;
  let baseIndex := LogEntry.Index e0 in
  lastIndex ← getLastLogIndex rf;
  if (index <=? baseIndex) || (index >? lastIndex) then Some rf
  else
    e ← Go.index (log rf) (index - baseIndex);
    let rf := trimLog index (LogEntry.Term e) rf in
    e0 ← Go.index (log rf) 0;
    let snapshot := header (LogEntry.Index e0) (LogEntry.Term e0) ++ kvSnapshot in
    Some (set_persister (SaveStateAndSnapshot (getRaftState rf) snapshot (persister rf)) rf).

End Raft.

(** * The replicated key-value layer (kvraft) *)
Module KV.

Local Open Scope string_scope.

(** kvraft/common.go *)
Definition Err := string.
Definition OK : Err := "OK".
Definition ErrNoKey : Err := "ErrNoKey".

Module PutAppendArgs.
Record t := mk {
  Key : string;
  Value : string;
  Command : string;
  ClientId : Z;
  RequestId : Z }.
End PutAppendArgs.

Module PutAppendReply.
Record t := mk { WrongLeader : bool; Err : Err }.
Definition zero : t := mk false "".
End PutAppendReply.

Module GetArgs.
Record t := mk { Key : string; ClientId : Z; RequestId : Z }.
End GetArgs.

Module GetReply.
Record t := mk { WrongLeader : bool; Err : Err; Value : string }.
Definition zero : t := mk false "" "".
End GetReply.

Module Result.
Record t := mk {
  Command : string;
  OK : bool;
  ClientId : Z;
  RequestId : Z;
  WrongLeader : bool;
  Err : Err;
  Value : string }.
Definition zero : t := mk "" false 0 0 false "" "".
Definition set_Err v r := mk (Command r) (OK r) (ClientId r) (RequestId r) (WrongLeader r) v (Value r).
Definition set_Value v r := mk (Command r) (OK r) (ClientId r) (RequestId r) (WrongLeader r) (Err r) v.
End Result.

Record KVServer := mkKVServer {
  me : Z;
  rf : Raft.Raft;
  maxraftstate : Z;
  data : gmap string string;
  ack : gmap Z Z;
  resultCh : gmap Z (list Result.t)    (* log index to the buffer of its channel *)
}.

Definition set_rf v kv := mkKVServer (me kv) v (maxraftstate kv) (data kv) (ack kv) (resultCh kv).
Definition set_data v kv := mkKVServer (me kv) (rf kv) (maxraftstate kv) v (ack kv) (resultCh kv).
Definition set_ack v kv := mkKVServer (me kv) (rf kv) (maxraftstate kv) (data kv) v (resultCh kv).
Definition set_resultCh v kv := mkKVServer (me kv) (rf kv) (maxraftstate kv) (data kv) (ack kv) v.

(** [StartKVServer] on a persister that holds nothing. *)
Definition StartKVServer (servers : nat) (me : Z) (maxraftstate : Z) : KVServer :=
  mkKVServer me (Raft.Make servers me) maxraftstate ∅ ∅ ∅.

(** What the [select] of [appendEntryToLog] yields: the value received on
    [kv.resultCh[index]], or the firing of [time.After(240 * time.Millisecond)]. *)
Inductive Select :=
| RecvResult (result : Result.t)
| After240ms.

Definition isMatch (entry : Op.t) (result : Result.t) : bool :=
  (Op.ClientId entry =? Result.ClientId result)%Z
  && (Op.RequestId entry =? Result.RequestId result)%Z.

Definition appendEntryToLog (entry : Op.t) (sel : Select) (kv : KVServer)
    : option (KVServer * Result.t) :=
  '(rf', (index, _, isLeader)) ← Raft.Start (IOp entry) (rf kv);
  let kv := set_rf rf' kv in
  if negb isLeader then Some (kv, Result.zero)
  else
    let kv := match resultCh kv !! index with
              | Some _ => kv
              | None => set_resultCh (<[index := []]> (resultCh kv)) kv
              end in
    match sel with
    | RecvResult result =>
        if isMatch entry result then Some (kv, result)
        else Some (kv, Result.zero)
    | After240ms => Some (kv, Result.zero)
    end.

Definition Get (args : GetArgs.t) (reply : GetReply.t) (sel : Select) (kv : KVServer)
    : option (KVServer * GetReply.t) :=
  let entry := Op.mk "get" (GetArgs.ClientId args) (GetArgs.RequestId args)
                     (GetArgs.Key args) "" in
  '(kv, result) ← appendEntryToLog entry sel kv;
  if negb (Result.OK result) then
    Some (kv, GetReply.mk true (GetReply.Err reply) (GetReply.Value reply))
  else
    Some (kv, GetReply.mk false (Result.Err result) (Result.Value result)).

Definition PutAppend (args : PutAppendArgs.t) (reply : PutAppendReply.t) (sel : Select)
    (kv : KVServer) : option (KVServer * PutAppendReply.t) :=
  let entry := Op.mk (PutAppendArgs.Command args) (PutAppendArgs.ClientId args)
                     (PutAppendArgs.RequestId args) (PutAppendArgs.Key args)
                     (PutAppendArgs.Value args) in
  '(kv, result) ← appendEntryToLog entry sel kv;
  if negb (Result.OK result) then
    Some (kv, PutAppendReply.mk true (PutAppendReply.Err reply))
  else
    Some (kv, PutAppendReply.mk false (Result.Err result)).

Definition isDuplicated (op : Op.t) (kv : KVServer) : bool :=
  match ack kv !! Op.ClientId op with
  | Some lastRequestId => (lastRequestId >=? Op.RequestId op)%Z
  | None => false
  end.

Definition applyOp (op : Op.t) (kv : KVServer) : KVServer * Result.t :=
  let result := Result.mk (Op.Command op) true (Op.ClientId op) (Op.RequestId op)
                          false "" "" in
  let '(kv, result) :=
    if String.eqb (Op.Command op) "put" then
      let kv := if negb (isDuplicated op kv)
                then set_data (<[Op.Key op := Op.Value op]> (data kv)) kv else kv in
      (kv, Result.set_Err OK result)
    else if String.eqb (Op.Command op) "append" then
      let kv := if negb (isDuplicated op kv)
                then set_data (<[Op.Key op := default "" (data kv !! Op.Key op) +:+ Op.Value op]>
                                 (data kv)) kv
                else kv in
      (kv, Result.set_Err OK result)
    else if String.eqb (Op.Command op) "get" then
      match data kv !! Op.Key op with
      | Some value => (kv, Result.set_Value value (Result.set_Err OK result))
      | None => (kv, Result.set_Err ErrNoKey result)
      end
    else (kv, result) in
  (set_ack (<[Op.ClientId op := Op.RequestId op]> (ack kv)) kv, result).

(** The states in which the operations of [ops] are applied, one per
    operation, starting from [kv]. *)
Fixpoint scanl_states (ops : list Op.t) (kv : KVServer) : list KVServer :=
  match ops with
  | [] => []
  | op :: ops' => kv :: scanl_states ops' (fst (applyOp op kv))
  end.

(** [Run] on a normal message, up to the send of the result: the operation is
    applied, a value left on the channel of the index is drained, a missing
    channel is made, and the result is sent. The channel holds one value and
    [Run] is its only sender, so after the drain the send does not wait. (The
    snapshot trigger that follows starts a goroutine on the replica and
    changes nothing of the service.) *)
Definition RunCommand (msg : Raft.ApplyMsg.t) (kv : KVServer) : option KVServer :=
  match Raft.ApplyMsg.Command msg with
  | IOp op =>
      let '(kv, result) := applyOp op kv in
      let index := Raft.ApplyMsg.CommandIndex msg in
      let kv := match resultCh kv !! index with
                | Some ch => set_resultCh (<[index := tail ch]> (resultCh kv)) kv
                | None => set_resultCh (<[index := []]> (resultCh kv)) kv
                end in
      ch ← resultCh kv !! index;
      Some (set_resultCh (<[index := (ch ++ [result])%list]> (resultCh kv)) kv)
  | INil => None
  end.

(** [Run] sends on a result channel only what [applyOp] returned: the
    results a handler can receive are those. *)
Definition sentByRun (sel : Select) : Prop :=
  ∀ result, sel = RecvResult result → ∃ op kv, result = snd (applyOp op kv).

(** A result for the request of [clientId] numbered [reqId] arrived on the
    channel before the timer fired. *)
Definition delivered (sel : Select) (clientId reqId : Z) : Prop :=
  ∃ result, sel = RecvResult result
            ∧ Result.ClientId result = clientId ∧ Result.RequestId result = reqId.

(** The apply dispatcher on a sequence of committed operations: [Run]'s
    [kv.applyOp(op)] for each normal message, in log order. *)
Definition applyOps (ops : list Op.t) (kv : KVServer) : KVServer :=
  fold_left (fun kv op => fst (applyOp op kv)) ops kv.

(** ** The client (kvraft/client.go) *)

Module Clerk.

(** [servers] is the number of endpoints; [clientId] is the value [nrand]
    returned when the clerk was made. *)
Record t := mk {
  servers : nat;
  clientId : Z;
  requestId : Z;
  leader : Z }.

Definition set_requestId v ck := mk (servers ck) (clientId ck) v (leader ck).
Definition set_leader v ck := mk (servers ck) (clientId ck) (requestId ck) v.

Definition MakeClerk (servers : nat) (nrand : Z) : t := mk servers nrand 0 0.

(** How a request ends within a number of calls: it returned, it panicked on
    [ck.servers[ck.leader]], or it is still calling. *)
Inductive run (A : Type) :=
| Returned (ck : t) (a : A)
| Panicked
| Calling (ck : t).
Arguments Returned {A} ck a.
Arguments Panicked {A}.
Arguments Calling {A} ck.

(** The network as the clerk sees it: what the [attempt]-th call of a
    request, made to [server], yields ([ok] and the reply). *)
Definition network (Args Reply : Type) := nat → Z → Args → bool * Reply.

(** The loop [for { server := ck.servers[ck.leader]; ...; if ok &&
    !reply.WrongLeader { return }; ck.leader = (ck.leader + 1) %
    len(ck.servers) }], run for at most [calls] calls. *)
Fixpoint retry {Args Reply : Type} (wrongLeader : Reply → bool)
    (call : network Args Reply) (args : Args) (attempt : nat) (calls : nat) (ck : t)
    : run Reply :=
  match calls with
  | O => Calling ck
  | S calls' =>
      if (0 <=? leader ck)%Z && (leader ck <? Z.of_nat (servers ck))%Z then
        let '(ok, reply) := call attempt (leader ck) args in
        if ok && negb (wrongLeader reply) then Returned ck reply
        else retry wrongLeader call args (S attempt) calls'
                   (set_leader (Z.rem (leader ck + 1) (Z.of_nat (servers ck))) ck)
      else Panicked
  end.

(** The [attempt]-th call of a request, made to [server], succeeds with a
    reply that is not marked WrongLeader. *)
Definition answered {Args Reply : Type} (wrongLeader : Reply → bool)
    (call : network Args Reply) (args : Args) (attempt : nat) (server : Z) : bool :=
  let '(ok, reply) := call attempt server args in ok && negb (wrongLeader reply).

Definition Get (call : network GetArgs.t GetReply.t) (key : string) (calls : nat) (ck : t)
    : run string :=
  let args := GetArgs.mk key (clientId ck) (requestId ck) in
  let ck := set_requestId (requestId ck + 1)%Z ck in
  match retry GetReply.WrongLeader call args 0 calls ck with
  | Returned ck reply => Returned ck (GetReply.Value reply)
  | Panicked => Panicked
  | Calling ck => Calling ck
  end.

Definition PutAppend (call : network PutAppendArgs.t PutAppendReply.t)
    (key value op : string) (calls : nat) (ck : t) : run unit :=
  let args := PutAppendArgs.mk key value op (clientId ck) (requestId ck) in
  let ck := set_requestId (requestId ck + 1)%Z ck in
  match retry PutAppendReply.WrongLeader call args 0 calls ck with
  | Returned ck _ => Returned ck tt
  | Panicked => Panicked
  | Calling ck => Calling ck
  end.

Definition Put call key value := PutAppend call key value "put".
Definition Append call key value := PutAppend call key value "append".

End Clerk.

End KV.

(** * The linearizability checker (linearizability) *)
Module Lin.
Import Go.

(** ** bitset.go *)

(** A value of Go's [uint64]. *)
Definition u64 (z : Z) : Z := z mod 2 ^ 64.

Definition bitset := list Z.

Definition newBitset (bits : Z) : bitset :=
  let extra := if negb (bits mod 64 =? 0) then 1 else 0 in
  let chunks := bits / 64 + extra in
  replicate (Z.to_nat chunks) 0.

(** [clone] copies the words; a list is its own copy. *)
Definition clone (b : bitset) : bitset := b.

Definition bitsetIndex (pos : Z) : Z * Z := (pos / 64, pos mod 64).

Definition set (b : bitset) (pos : Z) : option bitset :=
  let '(major, minor) := bitsetIndex pos in
  v ← index b major;
  assign b major (Z.lor v (u64 (Z.shiftl 1 minor))).

Definition clear (b : bitset) (pos : Z) : option bitset :=
  let '(major, minor) := bitsetIndex pos in
  v ← index b major;
  assign b major (Z.ldiff v (u64 (Z.shiftl 1 minor))).

Definition get (b : bitset) (pos : Z) : option bool :=
  let '(major, minor) := bitsetIndex pos in
  v ← index b major;
  Some (negb (Z.land v (u64 (Z.shiftl 1 minor)) =? 0)).

Definition popcntWord (v : Z) : Z :=
  let v := u64 (Z.land v 0x5555555555555555 + Z.shiftr (Z.land v 0xAAAAAAAAAAAAAAAA) 1) in
  let v := u64 (Z.land v 0x3333333333333333 + Z.shiftr (Z.land v 0xCCCCCCCCCCCCCCCC) 2) in
  let v := u64 (Z.land v 0x0F0F0F0F0F0F0F0F + Z.shiftr (Z.land v 0xF0F0F0F0F0F0F0F0) 4) in
  let v := u64 (v * 0x0101010101010101) in
  Z.land (Z.shiftr v 56) 0xFF.

Definition popcnt (b : bitset) : Z :=
  fold_left (fun total v => u64 (total + popcntWord v)) b 0.

Definition hash (b : bitset) : Z :=
  fold_left (fun hash v => Z.lxor hash v) b (u64 (popcnt b)).

Fixpoint equalsWords (b b2 : list Z) : bool :=
  match b, b2 with
  | v :: b', v2 :: b2' => if negb (v =? v2) then false else equalsWords b' b2'
  | _, _ => true
  end.

Definition equals (b b2 : bitset) : bool :=
  if negb (Nat.eqb (length b) (length b2)) then false else equalsWords b b2.

(** ** models.go and model.go *)

Module KvInput.
Record t := mk { Op : Z; Key : string; Value : string }.
End KvInput.

Module KvOutput.
Record t := mk { Value : string }.
End KvOutput.

(** The [interface{}] values the checker passes around: inputs, outputs and
    model states. *)
Inductive Value :=
| VNil
| VKvInput (inp : KvInput.t)
| VKvOutput (out : KvOutput.t)
| VString (s : string).

(** Go's [==] on two interface values. *)
Definition Value_eqb (a b : Value) : bool :=
  match a, b with
  | VNil, VNil => true
  | VKvInput i, VKvInput j =>
      (KvInput.Op i =? KvInput.Op j)%Z && String.eqb (KvInput.Key i) (KvInput.Key j)
      && String.eqb (KvInput.Value i) (KvInput.Value j)
  | VKvOutput o, VKvOutput p => String.eqb (KvOutput.Value o) (KvOutput.Value p)
  | VString s, VString t => String.eqb s t
  | _, _ => false
  end.

Module Operation.
Record t := mk { Input : Value; Call : Z; Output : Value; Return : Z }.
End Operation.

Definition CallEvent : bool := false.
Definition ReturnEvent : bool := true.

Module Event.
Record t := mk { Kind : bool; Value : Value; Id : Z }.
End Event.

(** A [nil] function field is [None]; calling it panics. *)
Record Model := mkModel {
  Partition : option (list Operation.t → option (list (list Operation.t)));
  PartitionEvent : option (list Event.t → option (list (list Event.t)));
  Init : unit → Value;
  Step : Value → Value → Value → option (bool * Value);
  Equal : option (Value → Value → bool) }.

Definition NoPartition (history : list Operation.t) : option (list (list Operation.t)) :=
  Some [history].

Definition NoPartitionEvent (history : list Event.t) : option (list (list Event.t)) :=
  Some [history].

Definition ShallowEqual (state1 state2 : Value) : bool := Value_eqb state1 state2.

(** [m[key] = append(m[key], v)] on the map of [KvModel]'s [Partition], kept
    as the list of its keys in the order they first occur. *)
Fixpoint appendAt (key : string) (v : Operation.t) (m : list (string * list Operation.t))
    : list (string * list Operation.t) :=
  match m with
  | [] => [(key, [v])]
  | (k, vs) :: m' =>
      if String.eqb k key then (k, vs ++ [v]) :: m' else (k, vs) :: appendAt key v m'
  end.

Fixpoint kvPartitionLoop (history : list Operation.t) (m : list (string * list Operation.t))
    : option (list (string * list Operation.t)) :=
  match history with
  | [] => Some m
  | v :: history' =>
      match Operation.Input v with
      | VKvInput inp => kvPartitionLoop history' (appendAt (KvInput.Key inp) v m)
      | _ => None
      end
  end.

(** Go ranges over the map in no fixed order; the order of the partitions
    does not change what [CheckOperations] returns. *)
Definition kvPartition (history : list Operation.t) : option (list (list Operation.t)) :=
  m ← kvPartitionLoop history [];
  Some (map snd m).

Definition kvStep (state input output : Value) : option (bool * Value) :=
  match input, output, state with
  | VKvInput inp, VKvOutput out, VString st =>
      if (KvInput.Op inp =? 0)%Z then Some (String.eqb (KvOutput.Value out) st, state)
      else if (KvInput.Op inp =? 1)%Z then Some (true, VString (KvInput.Value inp))
      else if (KvInput.Op inp =? 2)%Z then Some (true, VString (st +:+ KvInput.Value inp))
      else Some (false, state)
  | _, _, _ => None
  end.

Definition KvModel : Model :=
  mkModel (Some kvPartition) None (fun _ => VString ""%string) kvStep (Some ShallowEqual).

(** ** linearizability.go: entries *)

Definition callEntry : bool := false.
Definition returnEntry : bool := true.

Record entry := mkEntry { kind : bool; value : Value; id : Z; time : Z }.

(** [sort.Sort(byTime(entries))] of Go's library, which for a slice of fewer
    than twelve elements is the insertion sort
    [for i := a + 1; i < b; i++ { for j := i; j > a && Less(j, j-1); j-- { Swap(j, j-1) } }].
    [sinkLeft x sorted] takes the prefix already sorted, last element first. *)
Fixpoint sinkLeft (x : entry) (sorted : list entry) : list entry :=
  match sorted with
  | [] => [x]
  | y :: sorted' => if time x <? time y then y :: sinkLeft x sorted' else x :: y :: sorted'
  end.

Definition sortByTime (entries : list entry) : list entry :=
  rev (fold_left (fun sorted x => sinkLeft x sorted) entries []).

Fixpoint makeEntriesLoop (history : list Operation.t) (id : Z) (entries : list entry)
    : list entry :=
  match history with
  | [] => entries
  | elem :: history' =>
      let entries := entries ++ [mkEntry callEntry (Operation.Input elem) id (Operation.Call elem)] in
      let entries := entries ++ [mkEntry returnEntry (Operation.Output elem) id (Operation.Return elem)] in
      makeEntriesLoop history' (id + 1) entries
  end.

Definition makeEntries (history : list Operation.t) : list entry :=
  sortByTime (makeEntriesLoop history 0 []).

(** ** The doubly linked list *)

(** A [*node] is the position of the node in the heap; [nil] is [None]. *)
Definition ptr := nat.

Module node.
Record t := mk {
  value : Value;
  match_ : option ptr;
  id : Z;
  next : option ptr;
  prev : option ptr }.
Definition set_next v n := mk (value n) (match_ n) (id n) v (prev n).
Definition set_prev v n := mk (value n) (match_ n) (id n) (next n) v.
End node.

Definition heap := list node.t.

(** [&node{...}] *)
Definition new (n : node.t) (h : heap) : heap * ptr := (h ++ [n], length h).

(** [p.next = v] and [p.prev = v]; a nil [p] panics. *)
Definition store_next (p : option ptr) (v : option ptr) (h : heap) : option heap :=
  p ← p; n ← h !! p; Some (<[p := node.set_next v n]> h).

Definition store_prev (p : option ptr) (v : option ptr) (h : heap) : option heap :=
  p ← p; n ← h !! p; Some (<[p := node.set_prev v n]> h).

(** [*p] *)
Definition load (p : option ptr) (h : heap) : option node.t := p ← p; h !! p.

Definition insertBefore (n : ptr) (mark : option ptr) (h : heap) : option (heap * ptr) :=
  match mark with
  | Some _ =>
      m ← load mark h;
      let beforeMark := node.prev m in
      h ← store_prev mark (Some n) h;
      h ← store_next (Some n) mark h;
      match beforeMark with
      | Some _ =>
          h ← store_prev (Some n) beforeMark h;
          h ← store_next beforeMark (Some n) h;
          Some (h, n)
      | None => Some (h, n)
      end
  | None => Some (h, n)
  end.

(** [length]: the walk along [next]. [fuel] bounds the nodes visited; a list
    without a cycle has at most as many as the heap holds. *)
Fixpoint lengthFrom (fuel : nat) (n : option ptr) (h : heap) (l : Z) : option Z :=
  match n with
  | None => Some l
  | Some _ =>
      match fuel with
      | O => None
      | S fuel' => nd ← load n h; lengthFrom fuel' (node.next nd) h (l + 1)
      end
  end.

Definition length (n : option ptr) (h : heap) : option Z :=
  lengthFrom (Datatypes.length h) n h 0.

(** [for i := len(entries) - 1; i >= 0; i--]: [entries] is given last first. *)
Fixpoint makeLinkedEntriesLoop (entries : list entry) (match_ : gmap Z ptr)
    (root : option ptr) (h : heap) : option (heap * option ptr) :=
  match entries with
  | [] => Some (h, root)
  | elem :: entries' =>
      if kind elem then
        let '(h, entry) := new (node.mk (value elem) None (id elem) None None) h in
        let match_ := <[id elem := entry]> match_ in
        '(h, _) ← insertBefore entry root h;
        makeLinkedEntriesLoop entries' match_ (Some entry) h
      else
        let '(h, entry) := new (node.mk (value elem) (match_ !! id elem) (id elem) None None) h in
        '(h, _) ← insertBefore entry root h;
        makeLinkedEntriesLoop entries' match_ (Some entry) h
  end.

Definition makeLinkedEntries (entries : list entry) : option (heap * option ptr) :=
  makeLinkedEntriesLoop (rev entries) ∅ None [].

(** ** The search *)

Module cacheEntry.
Record t := mk { linearized : bitset; state : Value }.
End cacheEntry.

Module callsEntry.
Record t := mk { entry : option ptr; state : Value }.
End callsEntry.

Fixpoint cacheContainsLoop (model : Model) (elems : list cacheEntry.t)
    (entry : cacheEntry.t) : option bool :=
  match elems with
  | [] => Some false
  | elem :: elems' =>
      if equals (cacheEntry.linearized entry) (cacheEntry.linearized elem) then
        equal ← Equal model;
        if equal (cacheEntry.state entry) (cacheEntry.state elem) : bool then Some true
        else cacheContainsLoop model elems' entry
      else cacheContainsLoop model elems' entry
  end.

Definition cacheContains (model : Model) (cache : gmap Z (list cacheEntry.t))
    (entry : cacheEntry.t) : option bool :=
  cacheContainsLoop model (default [] (cache !! hash (cacheEntry.linearized entry))) entry.

Definition lift (entry : option ptr) (h : heap) : option heap :=
  e ← load entry h;
  h ← store_next (node.prev e) (node.next e) h;
  e ← load entry h;
  h ← store_prev (node.next e) (node.prev e) h;
  e ← load entry h;
  let match_ := node.match_ e in
  m ← load match_ h;
  h ← store_next (node.prev m) (node.next m) h;
  m ← load match_ h;
  match node.next m with
  | Some _ => store_prev (node.next m) (node.prev m) h
  | None => Some h
  end.

Definition unlift (entry : option ptr) (h : heap) : option heap :=
  e ← load entry h;
  let match_ := node.match_ e in
  m ← load match_ h;
  h ← store_next (node.prev m) match_ h;
  m ← load match_ h;
  h ← match node.next m with
      | Some _ => store_prev (node.next m) match_ h
      | None => Some h
      end;
  e ← load entry h;
  h ← store_next (node.prev e) entry h;
  e ← load entry h;
  store_prev (node.next e) entry h.

(** The variables of [checkSingle]'s loop. *)
Record search := mkSearch {
  s_heap : heap;
  s_linearized : bitset;
  s_cache : gmap Z (list cacheEntry.t);
  s_calls : list callsEntry.t;
  s_state : Value;
  s_entry : option ptr }.

(** How a run of the checker ends. *)
Inductive exec (A : Type) :=
| Done (a : A)        (* it returned [a] *)
| Panic               (* a run-time panic *)
| Spin                (* still running when the fuel ran out *)
| Blocked.            (* waiting on a channel nobody sends on *)
Arguments Done {A} a.
Arguments Panic {A}.
Arguments Spin {A}.
Arguments Blocked {A}.

(** One turn of [for headEntry.next != nil { ... }], the loop test passed:
    [inl b] is [return b], [inr s] the variables for the next turn. *)
Definition checkTurn (model : Model) (kill : bool) (headEntry : ptr) (s : search)
    : option (bool + search) :=
  if kill then Some (inl false)
  else
    e ← load (s_entry s) (s_heap s);
    match node.match_ e with
    | Some _ =>
        let matching := node.match_ e in
        m ← load matching (s_heap s);
        '(ok, newState) ← Step model (s_state s) (node.value e) (node.value m);
        if ok : bool then
          newLinearized ← set (clone (s_linearized s)) (node.id e);
          let newCacheEntry := cacheEntry.mk newLinearized newState in
          found ← cacheContains model (s_cache s) newCacheEntry;
          if negb found then
            let hash := hash newLinearized in
            let cache := <[hash := default [] (s_cache s !! hash) ++ [newCacheEntry]]> (s_cache s) in
            let calls := s_calls s ++ [callsEntry.mk (s_entry s) (s_state s)] in
            linearized ← set (s_linearized s) (node.id e);
            h ← lift (s_entry s) (s_heap s);
            hd ← h !! headEntry;
            Some (inr (mkSearch h linearized cache calls newState (node.next hd)))
          else
            Some (inr (mkSearch (s_heap s) (s_linearized s) (s_cache s) (s_calls s)
                                (s_state s) (node.next e)))
        else
          Some (inr (mkSearch (s_heap s) (s_linearized s) (s_cache s) (s_calls s)
                              (s_state s) (node.next e)))
    | None =>
        match last (s_calls s) with
        | None => Some (inl false)
        | Some callsTop =>
            let entry := callsEntry.entry callsTop in
            let state := callsEntry.state callsTop in
            e ← load entry (s_heap s);
            linearized ← clear (s_linearized s) (node.id e);
            let calls := take (Datatypes.length (s_calls s) - 1) (s_calls s) in
            h ← unlift entry (s_heap s);
            e ← load entry h;
            Some (inr (mkSearch h linearized (s_cache s) calls state (node.next e)))
        end
    end.

Fixpoint checkLoop (fuel : nat) (model : Model) (kill : bool) (headEntry : ptr) (s : search)
    : exec bool :=
  match fuel with
  | O => Spin
  | S fuel' =>
      match s_heap s !! headEntry with
      | None => Panic
      | Some hd =>
          match node.next hd with
          | None => Done true
          | Some _ =>
              match checkTurn model kill headEntry s with
              | None => Panic
              | Some (inl b) => Done b
              | Some (inr s') => checkLoop fuel' model kill headEntry s'
              end
          end
      end
  end.

(** [kill] is the flag as the worker reads it; nobody sets it before a worker
    has reported a failure. *)
Definition checkSingle (fuel : nat) (model : Model) (subhistory : option ptr) (h : heap)
    (kill : bool) : exec bool :=
  match
    len ← length subhistory h;
    let n := len / 2 in
    let linearized := newBitset n in
    let state := Init model () in
    let '(h, hd) := new (node.mk VNil None (2 ^ 64 - 1) None None) h in
    '(h, headEntry) ← insertBefore hd subhistory h;
    Some (headEntry, mkSearch h linearized ∅ [] state subhistory)
  with
  | None => Panic
  | Some (headEntry, s) => checkLoop fuel model kill headEntry s
  end.

Definition fillDefault (model : Model) : Model :=
  let model := match Partition model with
               | None => mkModel (Some NoPartition) (PartitionEvent model) (Init model)
                                 (Step model) (Equal model)
               | Some _ => model
               end in
  let model := match PartitionEvent model with
               | None => mkModel (Partition model) (Some NoPartitionEvent) (Init model)
                                 (Step model) (Equal model)
               | Some _ => model
               end in
  match Equal model with
  | None => mkModel (Partition model) (PartitionEvent model) (Init model) (Step model)
                    (Some ShallowEqual)
  | Some _ => model
  end.

(** The worker of one partition: [checkSingle(model, makeLinkedEntries(makeEntries(subhistory)), &kill)]. *)
Definition checkPartition (fuel : nat) (model : Model) (subhistory : list Operation.t)
    : exec bool :=
  match makeLinkedEntries (makeEntries subhistory) with
  | None => Panic
  | Some (h, l) => checkSingle fuel model l h false
  end.

(** The receiving loop with no timeout: it leaves with [false] at the first
    failure and with [true] once every partition has reported. *)
Fixpoint collect (results : list (exec bool)) : exec bool :=
  match results with
  | [] => Done true
  | Done true :: results' => collect results'
  | r :: _ => r
  end.

(** [CheckOperationsTimeout(model, history, 0)]: [timeoutChan] stays nil and
    its case never fires. With no partition at all the loop waits for a
    result that no worker sends. *)
Definition CheckOperations (fuel : nat) (model : Model) (history : list Operation.t)
    : exec bool :=
  let model := fillDefault model in
  match (partition ← Partition model; partition history) with
  | None => Panic
  | Some [] => Blocked
  | Some partitions => collect (map (checkPartition fuel model) partitions)
  end.

(** ** linearizability.go: histories of events *)

(** The loop of [renumber]: [m] maps the ids met so far to their new
    numbers, [id] is the next new number, [e] the events built. *)
Fixpoint renumberLoop (events : list Event.t) (m : gmap Z Z) (id : Z) (e : list Event.t)
    : list Event.t :=
  match events with
  | [] => e
  | v :: events' =>
      match m !! Event.Id v with
      | Some r =>
          renumberLoop events' m id (e ++ [Event.mk (Event.Kind v) (Event.Value v) r])
      | None =>
          let e := e ++ [Event.mk (Event.Kind v) (Event.Value v) id] in
          renumberLoop events' (<[Event.Id v := id]> m) (id + 1) e
      end
  end.

Definition renumber (events : list Event.t) : list Event.t :=
  renumberLoop events ∅ 0 [].

Definition convertEntries (events : list Event.t) : list entry :=
  map (fun elem =>
         let kind := if Bool.eqb (Event.Kind elem) ReturnEvent then returnEntry
                     else callEntry in
         mkEntry kind (Event.Value elem) (Event.Id elem) (-1))
      events.

(** The worker of one partition of events. *)
Definition checkEventPartition (fuel : nat) (model : Model) (subhistory : list Event.t)
    : exec bool :=
  match makeLinkedEntries (convertEntries (renumber subhistory)) with
  | None => Panic
  | Some (h, l) => checkSingle fuel model l h false
  end.

(** [CheckEventsTimeout(model, history, 0)]. *)
Definition CheckEvents (fuel : nat) (model : Model) (history : list Event.t) : exec bool :=
  let model := fillDefault model in
  match (partition ← PartitionEvent model; partition history) with
  | None => Panic
  | Some [] => Blocked
  | Some partitions => collect (map (checkEventPartition fuel model) partitions)
  end.

End Lin.

(** * The replica's properties in the words of the specification *)
Module RaftSpec.
Import Go Raft.

(** [lastApplied ≤ commitIndex ≤ lastLogIndex], the last index being that of
    the last entry of the log. *)
Definition indicesOrdered (rf : Raft) : bool :=
  match getLastLogIndex rf with
  | Some lastLogIndex => (lastApplied rf <=? commitIndex rf) && (commitIndex rf <=? lastLogIndex)
  | None => false
  end.

(** The first index of the conflicting term: "walk backward from
    [prevLogIndex-1] while same term, return that index + 1". [n] is the
    number of indices from [baseIndex] to [i]. *)
Fixpoint walkBackward (lg : list LogEntry.t) (baseIndex term : Z) (i : Z) (n : nat) : Z :=
  match n with
  | O => i + 1
  | S n' =>
      match index lg (i - baseIndex) with
      | Some e =>
          if LogEntry.Term e =? term then walkBackward lg baseIndex term (i - 1) n'
          else i + 1
      | None => i + 1
      end
  end.

Definition firstIndexOfTerm (rf : Raft) (prevLogIndex : Z) : option Z :=
  e0 ← index (log rf) 0;
  let baseIndex := LogEntry.Index e0 in
  ep ← index (log rf) (prevLogIndex - baseIndex);
  Some (walkBackward (log rf) baseIndex (LogEntry.Term ep) (prevLogIndex - 1)
          (Z.to_nat (prevLogIndex - baseIndex))).

(** The term of the entry at log index [N]. *)
Definition termAt (rf : Raft) (N : Z) : option Z :=
  e0 ← index (log rf) 0;
  e ← index (log rf) (N - LogEntry.Index e0);
  Some (LogEntry.Term e).

(** Peer [i] is known to hold the log up to [N]. *)
Definition holds (rf : Raft) (N : Z) (i : nat) : bool :=
  match matchIndex rf !! i with
  | Some m => negb (Z.of_nat i =? me rf) && (m >=? N)
  | None => false
  end.

(** The replicas known to hold index [N], the leader itself counted. *)
Definition replicatedOn (rf : Raft) (N : Z) : Z :=
  1 + Z.of_nat (length (filter (fun i => holds rf N i = true) (seq 0 (peers rf)))).

(** A strict majority of the peers. *)
Definition majority (rf : Raft) (N : Z) : Prop :=
  2 * replicatedOn rf N > Z.of_nat (peers rf).

(** The entries of a log are numbered one after the other from the index of
    its first entry. *)
Definition consecutive (lg : list LogEntry.t) : Prop :=
  ∀ k e0 e, lg !! 0%nat = Some e0 → lg !! k = Some e →
            LogEntry.Index e = LogEntry.Index e0 + Z.of_nat k.

(** An entry that carries both the index and the term of the snapshot. *)
Definition carries (lastIncludedIndex lastIncludedTerm : Z) (e : LogEntry.t) : Prop :=
  LogEntry.Index e = lastIncludedIndex ∧ LogEntry.Term e = lastIncludedTerm.

(** Replicas used as examples. [followerWith lg term commit applied] is a
    follower of three peers in [term] holding the log [lg]. *)
Definition followerWith (lg : list LogEntry.t) (term commit applied : Z) : Raft :=
  mkRaft 3 MakePersister 1 STATE_FOLLOWER 0 term (-1) lg commit applied [] [] [] [] [] [] 0.

(** [leaderWith lg term commit matchIndex] is peer 0 of three, leader in [term]. *)
Definition leaderWith (lg : list LogEntry.t) (term commit : Z) (mi : list Z) : Raft :=
  mkRaft 3 MakePersister 0 STATE_LEADER 2 term 0 lg commit commit
         [Z.of_nat (length lg); Z.of_nat (length lg); Z.of_nat (length lg)] mi [] [] [] [] 0.

(** An entry of the log with no command of interest. *)
Definition ent (i t : Z) : LogEntry.t := LogEntry.mk i t INil.

(** One transition of a replica: a handler, or a turn of the driver, runs to
    its end. A receive of the driver is a transition whatever the channel
    holds: that it waits while the channel is empty is left out, which only
    adds transitions. *)
Inductive step : Raft → Raft → Prop :=
| step_RequestVote args reply0 rf rf' reply :
    RequestVote args reply0 rf = Some (rf', reply) → step rf rf'
| step_AppendEntries args reply0 rf rf' reply :
    AppendEntries args reply0 rf = Some (rf', reply) → step rf rf'
| step_InstallSnapshot args reply0 rf :
    step rf (fst (InstallSnapshot args reply0 rf))
| step_sendRequestVote server args reply ok rf rf' ok' :
    sendRequestVote server args reply ok rf = Some (rf', ok') → step rf rf'
| step_sendAppendEntries server args reply ok rf rf' ok' :
    sendAppendEntries server args reply ok rf = Some (rf', ok') → step rf rf'
| step_sendInstallSnapshot server args reply ok rf rf' ok' :
    sendInstallSnapshot server args reply ok rf = Some (rf', ok') → step rf rf'
| step_Start command rf rf' r :
    Start command rf = Some (rf', r) → step rf rf'
| step_applyLog rf rf' :
    applyLog rf = Some rf' → step rf rf'
| step_CreateSnapshot header kvSnapshot index rf rf' :
    CreateSnapshot header kvSnapshot index rf = Some rf' → step rf rf'
| step_followerTimeout rf :
    state rf = STATE_FOLLOWER → step rf (followerTimeout rf)
| step_startElection rf :
    state rf = STATE_CANDIDATE → step rf (startElection rf)
| step_candidateHeartbeat rf :
    state rf = STATE_CANDIDATE → step rf (candidateHeartbeat rf)
| step_followerGrantVote rf :
    state rf = STATE_FOLLOWER → step rf (followerGrantVote rf)
| step_followerHeartbeat rf :
    state rf = STATE_FOLLOWER → step rf (followerHeartbeat rf)
| step_candidateWinElect rf :
    state rf = STATE_CANDIDATE → step rf (candidateWinElect rf).



End RaftSpec.

(** * Reading the doubly linked list *)
Module LinSpec.
Import Lin.

(** The first pointer of [ps], or [next] when there is none. *)
Definition first_or (ps : list ptr) (next : option ptr) : option ptr :=
  match ps with
  | [] => next
  | p :: _ => Some p
  end.

(** [chain h prev ps next]: in the heap [h] the nodes at [ps] are linked in
    this order; the first one's [prev] is [prev], the last one's [next] is
    [next]. *)
Fixpoint chain (h : heap) (prev : option ptr) (ps : list ptr) (next : option ptr) : Prop :=
  match ps with
  | [] => True
  | p :: ps' =>
      (∃ n, h !! p = Some n ∧ node.prev n = prev ∧ node.next n = first_or ps' next)
      ∧ chain h (Some p) ps' next
  end.

(** The key an operation of a key-value history concerns; [None] when its
    input is not a [KvInput]. *)
Definition keyOf (op : Operation.t) : option string :=
  match Operation.Input op with
  | VKvInput inp => Some (KvInput.Key inp)
  | _ => None
  end.

(** [m[k]] for the map of [KvModel]'s [Partition]; a missing key reads as the
    empty slice. *)
Fixpoint at_key (k : string) (m : list (string * list Operation.t)) : list Operation.t :=
  match m with
  | [] => []
  | (k', vs) :: m' => if String.eqb k' k then vs else at_key k m'
  end.

(** The map of [renumber]: its values are the numbers below [id], each
    taken by exactly one key. *)
Definition dense (m : gmap Z Z) (id : Z) : Prop :=
  0 <= id
  ∧ (∀ a r, m !! a = Some r → 0 <= r < id)
  ∧ (∀ a b r, m !! a = Some r → m !! b = Some r → a = b)
  ∧ (∀ r, 0 <= r < id → ∃ a, m !! a = Some r).

(** [e] is the return of the operation [i]. *)
Definition isReturn (i : Z) (e : entry) : Prop := kind e = returnEntry ∧ id e = i.

(** [o] points at the return of operation [i] nearest below position [j] of
    [es], or is nil when there is none. *)
Definition nearest (es : list entry) (i : Z) (j : nat) (o : option ptr) : Prop :=
  match o with
  | Some q =>
      (q < j)%nat
      ∧ (∃ r, es !! q = Some r ∧ isReturn i r)
      ∧ ∀ q' r, (q < q' < j)%nat → es !! q' = Some r → ¬ isReturn i r
  | None => ∀ q r, (q < j)%nat → es !! q = Some r → ¬ isReturn i r
  end.

(** The node [nd] at position [j] of [n] nodes made from the entries [es]
    (last entry first): it carries the entry [e], is linked to its
    neighbours, and a call points at its return. *)
Definition nodeOf (es : list entry) (n j : nat) (e : entry) (nd : node.t) : Prop :=
  node.value nd = value e
  ∧ node.id nd = id e
  ∧ node.next nd = match j with O => None | S k => Some k end
  ∧ node.prev nd = (if decide (S j = n) then None else Some (S j))
  ∧ (kind e = returnEntry → node.match_ nd = None)
  ∧ (kind e = callEntry → nearest es (id e) j (node.match_ nd)).

(** What the loop of [makeLinkedEntries] keeps true: [done] are the entries
    handled so far, [h] their nodes, [m] the map from an id to its return,
    [root] the node made last. *)
Definition built (done : list entry) (h : heap) (m : gmap Z ptr) (root : option ptr) : Prop :=
  Datatypes.length h = Datatypes.length done
  ∧ root = match Datatypes.length done with O => None | S k => Some k end
  ∧ (∀ j e, done !! j = Some e →
            ∃ nd, h !! j = Some nd
                  ∧ nodeOf done (Datatypes.length done) j e nd)
  ∧ ∀ i, nearest done i (Datatypes.length done) (m !! i).

(** How many of the [n] lowest bits of [v] are set. *)
Fixpoint bitCount (n : nat) (v : Z) : Z :=
  match n with
  | O => 0
  | S n' => bitCount n' v + Z.b2z (Z.testbit v (Z.of_nat n'))
  end.

(** The mask whose [n] bytes are all [m]. *)
Fixpoint byteMask (m : Z) (n : nat) : Z :=
  match n with
  | O => 0
  | S n' => m + 256 * byteMask m n'
  end.

(** One round of [popcnt]'s folding: [(x & M) + ((x >> s) & M)]. *)
Definition foldFields (s M x : Z) : Z := Z.land x M + Z.land (Z.shiftr x s) M.

(** The three rounds on [n] bytes. *)
Definition foldBytes (n : nat) (x : Z) : Z :=
  foldFields 4 (byteMask 0x0F n) (foldFields 2 (byteMask 0x33 n) (foldFields 1 (byteMask 0x55 n) x)).

(** The number whose byte [k] is the count of the bits set in byte [k] of
    [x], for the [n] lowest bytes. *)
Fixpoint byteCounts (n : nat) (x : Z) : Z :=
  match n with
  | O => 0
  | S n' => bitCount 8 (x mod 256) + 256 * byteCounts n' (x / 256)
  end.

(** The sum of the bit counts of the [n] lowest bytes of [x]. *)
Fixpoint byteSum (n : nat) (x : Z) : Z :=
  match n with
  | O => 0
  | S n' => bitCount 8 (x mod 256) + byteSum n' (x / 256)
  end.

(** The number of bits set in the words of a bit set, 64 bits a word. *)
Definition bitsSet (b : list Z) : Z := foldr (fun v total => bitCount 64 v + total) 0 b.

End LinSpec.

(** * Histories and servers used as examples *)
Module Examples.
Import Raft RaftSpec KV Lin.

(** A service whose replica leads term 1 with one entry in its log. *)
Definition leaderKV : KVServer :=
  set_rf (leaderWith [ent 0 0; ent 1 1] 1 0 [0; 0; 0]) (StartKVServer 3 0 (-1)).

(** The fabricated history of the negative test: a [Put("k", "v2")] that
    returned [putOutput], and after its return a [Get("k")] that returned
    "v1"; nothing else writes the key. *)
Definition staleRead (putCall putReturn getCall getReturn : Z) (putOutput : string)
    : list Operation.t :=
  [Operation.mk (VKvInput (KvInput.mk 1 "k" "v2")) putCall
                (VKvOutput (KvOutput.mk putOutput)) putReturn;
   Operation.mk (VKvInput (KvInput.mk 0 "k" "")) getCall
                (VKvOutput (KvOutput.mk "v1")) getReturn].

(** A [Put(key, v)] and a [Get(key)] that returned [w], with their call and
    return times. *)
Definition putGet (key v w : string) (putCall putReturn getCall getReturn : Z)
    : list Operation.t :=
  [Operation.mk (VKvInput (KvInput.mk 1 key v)) putCall
                (VKvOutput (KvOutput.mk "")) putReturn;
   Operation.mk (VKvInput (KvInput.mk 0 key "")) getCall
                (VKvOutput (KvOutput.mk w)) getReturn].

(** Its entries before they are sorted. *)
Definition putGetEntries (key v w : string) (putCall putReturn getCall getReturn : Z)
    : list entry :=
  [mkEntry callEntry (VKvInput (KvInput.mk 1 key v)) 0 putCall;
   mkEntry returnEntry (VKvOutput (KvOutput.mk "")) 0 putReturn;
   mkEntry callEntry (VKvInput (KvInput.mk 0 key "")) 1 getCall;
   mkEntry returnEntry (VKvOutput (KvOutput.mk w)) 1 getReturn].

(** The orders in which the four events of a put and a get can come, each
    call before its return; P and G name an event of the put and of the get. *)
Inductive Interleaving := PPGG | GGPP | PGPG | PGGP | GPPG | GPGP.

(** The events of the same put and get under the ids [putId] and [getId], in
    the order [o]. *)
Definition putGetEvents (o : Interleaving) (key v w : string) (putId getId : Z)
    : list Event.t :=
  let putCall := Event.mk CallEvent (VKvInput (KvInput.mk 1 key v)) putId in
  let putReturn := Event.mk ReturnEvent (VKvOutput (KvOutput.mk "")) putId in
  let getCall := Event.mk CallEvent (VKvInput (KvInput.mk 0 key "")) getId in
  let getReturn := Event.mk ReturnEvent (VKvOutput (KvOutput.mk w)) getId in
  match o with
  | PPGG => [putCall; putReturn; getCall; getReturn]
  | GGPP => [getCall; getReturn; putCall; putReturn]
  | PGPG => [putCall; getCall; putReturn; getReturn]
  | PGGP => [putCall; getCall; getReturn; putReturn]
  | GPPG => [getCall; putCall; putReturn; getReturn]
  | GPGP => [getCall; putCall; getReturn; putReturn]
  end.

(** Whether the put is called first. *)
Definition putFirst (o : Interleaving) : bool :=
  match o with PPGG | PGPG | PGGP => true | GGPP | GPPG | GPGP => false end.

End Examples.

(** * Properties of the consensus replica *)
Module RaftFacts.
Import Go Raft RaftSpec.

(** Follow a run [H : ... = Some _] through its tests and its calls. *)
Ltac follow H :=
  repeat (match type of H with
          | context [if ?c then _ else _] => destruct c eqn:?
          | context [let '(_, _) := ?p in _] => destruct p
          | (?c ≫= _) = _ => destruct c eqn:?
          end; simpl in H);
  try discriminate H.

Lemma index_last {A} (s : list A) : index s (Z.of_nat (length s) - 1) = last s.
Proof.
  unfold index. destruct s as [|x s] using rev_ind; [reflexivity|].
  rewrite length_app, last_snoc. simpl.
  destruct (Z.ltb_spec (Z.of_nat (length s + 1) - 1) 0); [lia|].
  replace (Z.to_nat (Z.of_nat (length s + 1) - 1)) with (length s + 0)%nat by lia.
  rewrite lookup_app_r by lia. replace (length s + 0 - length s)%nat with 0%nat by lia.
  reflexivity.
Qed.

Lemma getLastLogIndex_last rf :
  getLastLogIndex rf = LogEntry.Index <$> last (log rf).
Proof. unfold getLastLogIndex. rewrite index_last. destruct (last (log rf)); reflexivity. Qed.

Lemma getLastLogTerm_last rf :
  getLastLogTerm rf = LogEntry.Term <$> last (log rf).
Proof. unfold getLastLogTerm. rewrite index_last. destruct (last (log rf)); reflexivity. Qed.

Lemma last_is_Some {A} (s : list A) : s ≠ [] → ∃ x, last s = Some x.
Proof.
  destruct s as [|x s] using rev_ind; [congruence|].
  intros _. exists x. apply last_snoc.
Qed.

Lemma State_eqb_eq a b : State_eqb a b = true ↔ a = b.
Proof. destruct a, b; simpl; split; congruence. Qed.

Lemma State_eqb_neq a b : State_eqb a b = false ↔ a ≠ b.
Proof. destruct a, b; simpl; split; congruence. Qed.

(** ** Start *)

(** C10. On a replica that is not the leader [Start] returns [(-1, -1, false)]
    and leaves the whole replica, its persister included, as it was. On a
    leader (whose log holds at least the sentinel) it returns the index after
    the last one and the current term, appends exactly one entry with that
    index, that term and the command, and saves the new state. *)
Theorem Start_spec (command : Iface) (rf : Raft) :
  (state rf ≠ STATE_LEADER → Start command rf = Some (rf, (-1, -1, false)))
  ∧ (state rf = STATE_LEADER → log rf ≠ [] →
     ∃ lastLogIndex rf',
       getLastLogIndex rf = Some lastLogIndex
       ∧ Start command rf = Some (rf', (lastLogIndex + 1, currentTerm rf, true))
       ∧ log rf' = log rf ++ [LogEntry.mk (lastLogIndex + 1) (currentTerm rf) command]
       ∧ currentTerm rf' = currentTerm rf
       ∧ votedFor rf' = votedFor rf
       ∧ commitIndex rf' = commitIndex rf
       ∧ lastApplied rf' = lastApplied rf
       ∧ persister rf' = SaveRaftState (getRaftState rf') (persister rf)).
Proof.
  split.
  - intros Hst. unfold Start.
    apply State_eqb_neq in Hst. rewrite Hst. reflexivity.
  - intros Hst Hlog. unfold Start.
    apply State_eqb_eq in Hst. rewrite Hst.
    destruct (last_is_Some _ Hlog) as [e He].
    rewrite getLastLogIndex_last, He. simpl.
    eexists _, _. repeat split; reflexivity.
Qed.

(** ** RequestVote *)

(** C5. A request whose term is not behind is answered (the log holding at
    least the sentinel); with [votedFor] read after the step-down that a
    larger term causes, the vote is granted exactly when [votedFor] is none
    ([-1]) or the candidate and the candidate's last term is larger than
    ours, or equal with a last index not smaller than ours; a granted vote
    is recorded in [votedFor]. *)
Theorem RequestVote_grant_iff (args : RequestVoteArgs.t) (reply0 : RequestVoteReply.t)
    (rf : Raft) (ourLastTerm ourLastIndex : Z) :
  RequestVoteArgs.Term args >= currentTerm rf →
  getLastLogTerm rf = Some ourLastTerm →
  getLastLogIndex rf = Some ourLastIndex →
  let votedFor0 := if RequestVoteArgs.Term args >? currentTerm rf then -1 else votedFor rf in
  ∃ rf' reply,
    RequestVote args reply0 rf = Some (rf', reply)
    ∧ (RequestVoteReply.VoteGranted reply = true ↔
         (votedFor0 = -1 ∨ votedFor0 = RequestVoteArgs.CandidateId args)
         ∧ (RequestVoteArgs.LastLogTerm args > ourLastTerm
            ∨ (RequestVoteArgs.LastLogTerm args = ourLastTerm
               ∧ RequestVoteArgs.LastLogIndex args >= ourLastIndex)))
    ∧ (RequestVoteReply.VoteGranted reply = true →
         votedFor rf' = RequestVoteArgs.CandidateId args).
Proof.
  intros Hterm HlastT HlastI votedFor0.
  unfold RequestVote, RequestVote_body.
  destruct (Z.ltb_spec (RequestVoteArgs.Term args) (currentTerm rf)) as [?|_]; [lia|].
  set (rf1 := if RequestVoteArgs.Term args >? currentTerm rf
              then becomeFollower (RequestVoteArgs.Term args) rf else rf).
  assert (Hvf : votedFor rf1 = votedFor0).
  { unfold rf1, votedFor0. destruct (RequestVoteArgs.Term args >? currentTerm rf); reflexivity. }
  assert (Hlog : log rf1 = log rf).
  { unfold rf1. destruct (RequestVoteArgs.Term args >? currentTerm rf); reflexivity. }
  assert (Hup : isUpToDate rf1 (RequestVoteArgs.LastLogTerm args) (RequestVoteArgs.LastLogIndex args)
                = Some ((RequestVoteArgs.LastLogTerm args >? ourLastTerm)
                        || ((RequestVoteArgs.LastLogTerm args =? ourLastTerm)
                            && (RequestVoteArgs.LastLogIndex args >=? ourLastIndex)))).
  { unfold isUpToDate. rewrite getLastLogTerm_last, getLastLogIndex_last, Hlog.
    rewrite <- getLastLogTerm_last, <- getLastLogIndex_last, HlastT, HlastI. reflexivity. }
  rewrite Hvf.
  destruct ((votedFor0 =? -1) || (votedFor0 =? RequestVoteArgs.CandidateId args)) eqn:Hfree.
  - rewrite Hup. simpl.
    destruct ((RequestVoteArgs.LastLogTerm args >? ourLastTerm)
              || ((RequestVoteArgs.LastLogTerm args =? ourLastTerm)
                  && (RequestVoteArgs.LastLogIndex args >=? ourLastIndex))) eqn:Hnew.
    + eexists _, _. split; [reflexivity|]. simpl. split; [|reflexivity].
      split; [intros _|reflexivity]. split; lia.
    + eexists _, _. split; [reflexivity|]. simpl. split; [|discriminate].
      split; [discriminate|]. intros [_ H]. lia.
  - eexists _, _. split; [reflexivity|]. simpl. split; [|discriminate].
    split; [discriminate|]. intros [H _]. lia.
Qed.

Lemma RequestVote_grant_iff_witness :
  ∃ rf' reply,
    RequestVote (RequestVoteArgs.mk 1 2 0 0) (RequestVoteReply.mk 0 false) (Make 3 0)
      = Some (rf', reply)
    ∧ RequestVoteReply.VoteGranted reply = true
    ∧ votedFor rf' = 2.
Proof.
  destruct (RequestVote_grant_iff (RequestVoteArgs.mk 1 2 0 0) (RequestVoteReply.mk 0 false)
              (Make 3 0) 0 0) as (rf' & reply & Hrun & Hiff & Hvoted).
  - simpl. lia.
  - reflexivity.
  - reflexivity.
  - simpl in Hiff, Hvoted.
    assert (Hgranted : RequestVoteReply.VoteGranted reply = true).
    { apply Hiff. split; [left; reflexivity | right; lia]. }
    exists rf', reply. split; [exact Hrun|]. split; [exact Hgranted|].
    apply Hvoted, Hgranted.
Defined.

(** ** InstallSnapshot *)

Lemma trimScan_spec lg i t n newLog :
  (n ≤ length lg)%nat →
  (∃ pre e suf,
      lg = pre ++ e :: suf ∧ (length pre < n)%nat ∧ carries i t e
      ∧ (∀ k e', (length pre < k < n)%nat → lg !! k = Some e' → ¬ carries i t e')
      ∧ trimScan lg i t n newLog = newLog ++ suf)
  ∨ ((∀ k e', (k < n)%nat → lg !! k = Some e' → ¬ carries i t e')
     ∧ trimScan lg i t n newLog = newLog).
Proof.
  induction n as [|n IH]; intros Hn.
  - right. split; [intros; lia | reflexivity].
  - simpl. destruct (lookup_lt_is_Some_2 lg n ltac:(lia)) as [e He]. rewrite He.
    destruct ((LogEntry.Index e =? i) && (LogEntry.Term e =? t)) eqn:Hm.
    + left. exists (take n lg), e, (drop (S n) lg).
      split; [symmetry; apply take_drop_middle, He|].
      rewrite length_take. split; [lia|]. split; [split; lia|].
      split; [intros; lia | reflexivity].
    + destruct IH as [(pre & e1 & suf & Hlg & Hlen & Hc & Hafter & Hrun)|[Hnone Hrun]]; [lia| |].
      * left. exists pre, e1, suf. repeat split; try (assumption || lia || apply Hc).
        intros k e' Hk Hk'. destruct (decide (k = n)) as [->|].
        -- rewrite He in Hk'. injection Hk' as <-. unfold carries. lia.
        -- apply (Hafter k); [lia | assumption].
      * right. split; [|assumption].
        intros k e' Hk Hk'. destruct (decide (k = n)) as [->|].
        -- rewrite He in Hk'. injection Hk' as <-. unfold carries. lia.
        -- apply (Hnone k); [lia | assumption].
Qed.

(** What [trimLog] builds: the placeholder, then the entries after the last
    entry of the old log that carries the snapshot's index and term, or the
    placeholder alone when no entry does. *)
Lemma trimLog_log i t rf :
  (∃ pre e suf,
      log rf = pre ++ e :: suf ∧ carries i t e
      ∧ (∀ e', e' ∈ suf → ¬ carries i t e')
      ∧ log (trimLog i t rf) = LogEntry.mk i t INil :: suf)
  ∨ ((∀ e', e' ∈ log rf → ¬ carries i t e')
     ∧ log (trimLog i t rf) = [LogEntry.mk i t INil]).
Proof.
  unfold trimLog. simpl.
  destruct (trimScan_spec (log rf) i t (length (log rf)) [LogEntry.mk i t INil])
    as [(pre & e & suf & Hlg & Hlen & Hc & Hafter & Hrun)|[Hnone Hrun]]; [lia| |].
  - left. exists pre, e, suf. repeat split; try (assumption || apply Hc).
    intros e' [k Hk]%list_elem_of_lookup.
    apply (Hafter (length pre + S k)%nat).
    + split; [lia|]. apply lookup_lt_Some in Hk.
      rewrite Hlg, length_app. simpl. lia.
    + rewrite Hlg. rewrite lookup_app_r by lia.
      replace (length pre + S k - length pre)%nat with (S k) by lia. exact Hk.
  - right. split; [|assumption].
    intros e' [k Hk]%list_elem_of_lookup.
    apply (Hnone k); [eapply lookup_lt_Some, Hk | exact Hk].
Qed.

(** C6. On a request whose term is not behind: when the snapshot's index is
    above [commitIndex], the log becomes the placeholder followed by exactly
    the entries after the (last) old entry carrying the snapshot's index and
    term -- none when no entry does --, [lastApplied] and [commitIndex] become
    that index, and state and snapshot are saved by one
    [SaveStateAndSnapshot], the last call the persister serves and the only
    one that writes the snapshot; otherwise the log, [commitIndex] and
    [lastApplied] stay as they were. *)
Theorem InstallSnapshot_spec (args : InstallSnapshotArgs.t) (reply0 : InstallSnapshotReply.t)
    (rf : Raft) :
  InstallSnapshotArgs.Term args >= currentTerm rf →
  let rf' := (InstallSnapshot args reply0 rf).1 in
  let i := InstallSnapshotArgs.LastIncludedIndex args in
  let t := InstallSnapshotArgs.LastIncludedTerm args in
  (i > commitIndex rf →
     ((∃ pre e suf,
          log rf = pre ++ e :: suf ∧ carries i t e
          ∧ (∀ e', e' ∈ suf → ¬ carries i t e')
          ∧ log rf' = LogEntry.mk i t INil :: suf)
      ∨ ((∀ e', e' ∈ log rf → ¬ carries i t e')
         ∧ log rf' = [LogEntry.mk i t INil]))
     ∧ lastApplied rf' = i
     ∧ commitIndex rf' = i
     ∧ (∃ before,
          Persister.calls (persister rf')
            = Persister.calls (persister rf) ++ before
              ++ [CallSaveStateAndSnapshot (getRaftState rf') (InstallSnapshotArgs.Data args)]
          ∧ (∀ c, c ∈ before → ∃ st, c = CallSaveRaftState st))
     ∧ Persister.raftstate (persister rf') = Some (getRaftState rf')
     ∧ Persister.snapshot (persister rf') = InstallSnapshotArgs.Data args)
  ∧ (i <= commitIndex rf →
     log rf' = log rf ∧ commitIndex rf' = commitIndex rf ∧ lastApplied rf' = lastApplied rf).
Proof.
  intros Hterm rf' i t. subst rf'. unfold InstallSnapshot.
  destruct (Z.ltb_spec (InstallSnapshotArgs.Term args) (currentTerm rf)) as [?|_]; [lia|].
  set (rf1 := if InstallSnapshotArgs.Term args >? currentTerm rf
              then persist (becomeFollower (InstallSnapshotArgs.Term args) rf) else rf).
  assert (Hlog : log rf1 = log rf)
    by (unfold rf1; destruct (InstallSnapshotArgs.Term args >? currentTerm rf); reflexivity).
  assert (Hci : commitIndex rf1 = commitIndex rf)
    by (unfold rf1; destruct (InstallSnapshotArgs.Term args >? currentTerm rf); reflexivity).
  assert (Hla : lastApplied rf1 = lastApplied rf)
    by (unfold rf1; destruct (InstallSnapshotArgs.Term args >? currentTerm rf); reflexivity).
  assert (Hps : ∃ before,
             Persister.calls (persister rf1) = Persister.calls (persister rf) ++ before
             ∧ (∀ c, c ∈ before → ∃ st, c = CallSaveRaftState st)).
  { unfold rf1. destruct (InstallSnapshotArgs.Term args >? currentTerm rf).
    - eexists [_]. split; [reflexivity|].
      intros c ->%list_elem_of_singleton. eexists; reflexivity.
    - exists []. split; [symmetry; apply app_nil_r|]. intros c Hc. inversion Hc. }
  simpl. rewrite Hci. fold i t.
  split.
  - intros Hgt. destruct (Z.gtb_spec i (commitIndex rf)) as [_|?]; [|lia]. simpl.
    split; [|split; [reflexivity|split; [reflexivity|split; [|split; reflexivity]]]].
    + destruct (trimLog_log i t (set_chanHeartbeat (chanHeartbeat rf1 ++ [true]) rf1))
        as [(pre & e & suf & H1 & H2 & H3 & H4)|[H1 H2]]; simpl in *; rewrite Hlog in *.
      * left. exists pre, e, suf. auto.
      * right. auto.
    + destruct Hps as (before & Hcalls & Hbefore). exists before.
      split; [|exact Hbefore]. rewrite Hcalls, <- app_assoc. reflexivity.
  - intros Hle. destruct (Z.gtb_spec i (commitIndex rf)) as [?|_]; [lia|]. simpl. auto.
Qed.

Lemma InstallSnapshot_spec_witness :
  let rf := followerWith [ent 0 0; ent 1 1; ent 2 1; ent 3 1] 1 1 1 in
  let args := InstallSnapshotArgs.mk 1 0 2 1 [Byte.x01] in
  let rf' := (InstallSnapshot args (InstallSnapshotReply.mk 0) rf).1 in
  lastApplied rf' = 2 ∧ commitIndex rf' = 2
  ∧ Persister.snapshot (persister rf') = [Byte.x01].
Proof.
  intros rf args rf'.
  destruct (InstallSnapshot_spec args (InstallSnapshotReply.mk 0) rf) as [Habove _].
  - simpl. lia.
  - destruct Habove as (_ & Hla & Hci & _ & _ & Hsnap).
    + simpl. lia.
    + exact (conj Hla (conj Hci Hsnap)).
Defined.

(** ** AppendEntries: the conflict branch *)

(** The walk of the handler against the walk of the specification: they
    agree when some entry below [prevLogIndex] has another term; when none
    has, the handler leaves [NextTryIndex] as it found it. *)
Lemma conflictWalk_walkBackward lg baseIndex term n : ∀ i nti,
  i - baseIndex + 1 = Z.of_nat n →
  (n ≤ length lg)%nat →
  conflictWalk lg baseIndex term i n nti =
    Some (let w := walkBackward lg baseIndex term i n in
          if w =? baseIndex then nti else w)
  ∧ baseIndex <= walkBackward lg baseIndex term i n <= i + 1.
Proof.
  induction n as [|n IH]; intros i nti Hi Hn.
  - simpl. replace (i + 1) with baseIndex by lia. rewrite Z.eqb_refl. split; [reflexivity|lia].
  - simpl. unfold index.
    destruct (Z.ltb_spec (i - baseIndex) 0) as [?|_]; [lia|].
    destruct (lookup_lt_is_Some_2 lg (Z.to_nat (i - baseIndex)) ltac:(lia)) as [e He].
    rewrite He. simpl.
    destruct (Z.eqb_spec (LogEntry.Term e) term) as [_|_]; simpl.
    + destruct (IH (i - 1) nti ltac:(lia) ltac:(lia)) as [-> Hb]. split; [reflexivity|lia].
    + destruct (Z.eqb_spec (i + 1) baseIndex) as [?|_]; [lia|]. split; [reflexivity|lia].
Qed.

Lemma getLastLogIndex_log rf1 rf :
  log rf1 = log rf → getLastLogIndex rf1 = getLastLogIndex rf.
Proof. intros H. unfold getLastLogIndex. rewrite H. reflexivity. Qed.

(** What the conflict branch answers, for every request that reaches it:
    failure, with the first index of the conflicting term when an entry of
    another term lies below [prevLogIndex], and with [NextTryIndex] as the
    reply object came in when every entry from [baseIndex] on has the
    conflicting term. *)
Lemma AppendEntries_conflict (args : AppendEntriesArgs.t) (reply0 : AppendEntriesReply.t)
    (rf : Raft) (lastLogIndex : Z) (e0 ep : LogEntry.t) :
  AppendEntriesArgs.Term args >= currentTerm rf →
  getLastLogIndex rf = Some lastLogIndex →
  AppendEntriesArgs.PrevLogIndex args <= lastLogIndex →
  index (log rf) 0 = Some e0 →
  AppendEntriesArgs.PrevLogIndex args >= LogEntry.Index e0 →
  index (log rf) (AppendEntriesArgs.PrevLogIndex args - LogEntry.Index e0) = Some ep →
  LogEntry.Term ep ≠ AppendEntriesArgs.PrevLogTerm args →
  ∃ rf' reply w,
    AppendEntries args reply0 rf = Some (rf', reply)
    ∧ AppendEntriesReply.Success reply = false
    ∧ firstIndexOfTerm rf (AppendEntriesArgs.PrevLogIndex args) = Some w
    ∧ AppendEntriesReply.NextTryIndex reply
      = (if w =? LogEntry.Index e0 then AppendEntriesReply.NextTryIndex reply0 else w)
    ∧ log rf' = log rf ∧ commitIndex rf' = commitIndex rf.
Proof.
  intros Hterm Hlast Hprev He0 Hbase Hep Hconf.
  unfold AppendEntries, AppendEntries_body, firstIndexOfTerm.
  destruct (Z.ltb_spec (AppendEntriesArgs.Term args) (currentTerm rf)) as [?|_]; [lia|].
  set (rf1 := set_chanHeartbeat _ _).
  assert (Hlog : log rf1 = log rf)
    by (unfold rf1; destruct (AppendEntriesArgs.Term args >? currentTerm rf); reflexivity).
  assert (Hci : commitIndex rf1 = commitIndex rf)
    by (unfold rf1; destruct (AppendEntriesArgs.Term args >? currentTerm rf); reflexivity).
  rewrite (getLastLogIndex_log _ _ Hlog), Hlast, Hlog, He0. simpl.
  destruct (Z.gtb_spec (AppendEntriesArgs.PrevLogIndex args) lastLogIndex) as [?|_]; [lia|].
  destruct (Z.geb_spec (AppendEntriesArgs.PrevLogIndex args) (LogEntry.Index e0)) as [_|?]; [|lia].
  rewrite Hep. simpl.
  destruct (Z.eqb_spec (AppendEntriesArgs.PrevLogTerm args) (LogEntry.Term ep)) as [?|_];
    [congruence|]. simpl.
  assert (Hn : (Z.to_nat (AppendEntriesArgs.PrevLogIndex args - LogEntry.Index e0)
                ≤ length (log rf))%nat).
  { unfold index in Hep.
    destruct (AppendEntriesArgs.PrevLogIndex args - LogEntry.Index e0 <? 0); [discriminate|].
    apply lookup_lt_Some in Hep. lia. }
  destruct (conflictWalk_walkBackward (log rf) (LogEntry.Index e0) (LogEntry.Term ep)
              (Z.to_nat (AppendEntriesArgs.PrevLogIndex args - LogEntry.Index e0))
              (AppendEntriesArgs.PrevLogIndex args - 1)
              (AppendEntriesReply.NextTryIndex reply0) ltac:(lia) Hn) as [Hwalk _].
  rewrite Hwalk. simpl.
  eexists _, _, _. repeat split; try reflexivity; assumption.
Qed.

(** C2. A follower that installed a snapshot at index 5 (term 2) and holds
    entries 6 and 7 of term 2 receives, from the leader of term 4, a request
    with [prevLogIndex = 7] and [prevLogTerm = 3]: the entry at 7 conflicts
    and every entry from [baseIndex = 5] on has the conflicting term. The
    first index of that term is 5, yet the handler's walk finds no entry of
    another term and answers with [NextTryIndex] untouched, the 0 of the
    fresh reply. *)
Theorem AppendEntries_conflict_whole_log :
  let rf := followerWith [ent 5 2; ent 6 2; ent 7 2] 2 5 5 in
  let args := AppendEntriesArgs.mk 4 0 7 3 [] 5 in
  firstIndexOfTerm rf 7 = Some 5
  ∧ snd <$> AppendEntries args AppendEntriesReply.zero rf
    = Some (AppendEntriesReply.mk 4 false 0).
Proof. split; reflexivity. Qed.

(** ** The order of [lastApplied], [commitIndex] and the last log index *)

(** C3. A follower holds entries 1 to 3, all committed and applied. A
    heartbeat of the current leader sent when the leader's log ended at 1
    ([prevLogIndex = 1], no entries, [leaderCommit = 1]) arrives late: the
    handler accepts it, cuts the log after index 1 and leaves [commitIndex]
    at 3, above the last log index. *)
Theorem AppendEntries_late_heartbeat :
  let rf := followerWith [ent 0 0; ent 1 1; ent 2 1; ent 3 1] 1 3 3 in
  let args := AppendEntriesArgs.mk 1 0 1 1 [] 1 in
  indicesOrdered rf = true
  ∧ ∃ rf' reply,
      AppendEntries args AppendEntriesReply.zero rf = Some (rf', reply)
      ∧ AppendEntriesReply.Success reply = true
      ∧ getLastLogIndex rf' = Some 1
      ∧ commitIndex rf' = 3
      ∧ indicesOrdered rf' = false.
Proof.
  split; [reflexivity|].
  eexists _, _. split; [reflexivity|]. repeat split.
Qed.

(** ** The leader's commit rule *)

Lemma gt_half (c p : Z) : (c >? p / 2) = true ↔ 2 * c > p.
Proof.
  pose proof (Z.div_mod p 2 ltac:(lia)).
  pose proof (Z.mod_pos_bound p 2 ltac:(lia)).
  destruct (Z.gtb_spec c (p / 2)); split; intros; (lia || discriminate).
Qed.

Lemma countMatch_spec rf N ps : ∀ count r,
  countMatch rf N ps count = Some r →
  r = count + Z.of_nat (length (filter (fun i => holds rf N i = true) ps)).
Proof.
  induction ps as [|i ps IH]; intros count r Hrun; simpl in Hrun.
  - injection Hrun as <-. simpl. lia.
  - rewrite filter_cons. unfold index in Hrun. rewrite Nat2Z.id in Hrun.
    destruct (Z.ltb_spec (Z.of_nat i) 0); [lia|].
    destruct (decide (holds rf N i = true)) as [Hh|Hh]; unfold holds in Hh;
      destruct (Z.of_nat i =? me rf); simpl in Hrun, Hh;
      destruct (matchIndex rf !! i) as [m|]; simpl in Hrun, Hh;
      try discriminate; try (destruct (m >=? N)); try discriminate; try congruence;
      apply IH in Hrun; simpl; lia.
Qed.

Lemma countMatch_majority rf N count :
  countMatch rf N (seq 0 (peers rf)) 1 = Some count →
  (count >? Z.of_nat (peers rf) / 2) = true ↔ majority rf N.
Proof.
  intros ->%countMatch_spec. rewrite gt_half. reflexivity.
Qed.

(** What the commit loop does when it runs to its end: nothing, or it moves
    [commitIndex] to the first index, coming down from [N], whose entry is of
    the current term and which a majority holds; the indices it passed are of
    the current term too and no majority holds them. *)
Lemma commitLoop_spec rf baseIndex n : ∀ N rf',
  commitLoop rf baseIndex N n = Some rf' →
  Z.of_nat n = Z.max 0 (N - commitIndex rf) →
  rf' = rf
  ∨ ∃ M e,
      commitIndex rf < M <= N
      ∧ rf' = set_goApplyLog (S (goApplyLog rf)) (set_commitIndex M rf)
      ∧ index (log rf) (M - baseIndex) = Some e
      ∧ LogEntry.Term e = currentTerm rf
      ∧ majority rf M
      ∧ ∀ N', M < N' <= N → ¬ majority rf N'.
Proof.
  induction n as [|n IH]; intros N rf' Hrun Hn; simpl in Hrun.
  - left. congruence.
  - destruct (index (log rf) (N - baseIndex)) as [e|] eqn:He; simpl in Hrun; [|discriminate].
    destruct (Z.eqb_spec (LogEntry.Term e) (currentTerm rf)) as [Hterm|_];
      [|left; congruence].
    destruct (countMatch rf N (seq 0 (peers rf)) 1) as [count|] eqn:Hcount;
      simpl in Hrun; [|discriminate].
    pose proof (countMatch_majority rf N count Hcount) as Hmaj.
    destruct (count >? Z.of_nat (peers rf) / 2).
    + right. exists N, e. injection Hrun as <-.
      repeat split; try (assumption || lia). apply Hmaj; reflexivity.
    + destruct (IH (N - 1) rf' Hrun ltac:(lia))
        as [->|(M & e' & HM & -> & He' & Hterm' & Hmaj' & Hpassed)]; [left; reflexivity|].
      right. exists M, e'. repeat split; try (assumption || lia).
      intros N' HN'. destruct (decide (N' = N)) as [->|].
      * intros H. apply Hmaj in H. discriminate.
      * apply Hpassed. lia.
Qed.

(** The two ways the handling of a reply can end: [commitIndex], [lastApplied]
    and the log are as before; or the commit loop moved [commitIndex] to [M]. *)
Lemma sendAppendEntries_cases server args reply ok ok' rf rf' :
  sendAppendEntries server args reply ok rf = Some (rf', ok') →
  log rf' = log rf ∧ lastApplied rf' = lastApplied rf
  ∧ (commitIndex rf' = commitIndex rf
     ∨ currentTerm rf' = currentTerm rf
       ∧ ∃ e0 lastLogIndex e,
           index (log rf') 0 = Some e0
           ∧ getLastLogIndex rf' = Some lastLogIndex
           ∧ commitIndex rf < commitIndex rf' <= lastLogIndex
           ∧ index (log rf') (commitIndex rf' - LogEntry.Index e0) = Some e
           ∧ LogEntry.Term e = currentTerm rf'
           ∧ majority rf' (commitIndex rf')
           ∧ ∀ N', commitIndex rf' < N' <= lastLogIndex → ¬ majority rf' N').
Proof.
  unfold sendAppendEntries. intros Hrun.
  destruct (negb ok || negb (State_eqb (state rf) STATE_LEADER)
            || negb (AppendEntriesArgs.Term args =? currentTerm rf));
    [injection Hrun as <- _; auto|].
  destruct (AppendEntriesReply.Term reply >? currentTerm rf);
    [injection Hrun as <- _; simpl; auto|].
  match type of Hrun with (?upd ≫= _) = _ => destruct upd as [rf1|] eqn:Hupd end;
    simpl in Hrun; [|discriminate].
  assert (Hsame : log rf1 = log rf ∧ currentTerm rf1 = currentTerm rf
                  ∧ commitIndex rf1 = commitIndex rf ∧ lastApplied rf1 = lastApplied rf).
  { follow Hupd; injection Hupd as <-; auto. }
  destruct Hsame as (Hlog & Hct & Hci & Hla). clear Hupd.
  destruct (commitPhase rf1) as [rf2|] eqn:Hphase; simpl in Hrun; [|discriminate].
  injection Hrun as <- _. unfold commitPhase in Hphase.
  destruct (index (log rf1) 0) as [e0|] eqn:He0; simpl in Hphase; [|discriminate].
  destruct (getLastLogIndex rf1) as [lastLogIndex|] eqn:Hlast; simpl in Hphase; [|discriminate].
  apply commitLoop_spec in Hphase; [|lia].
  destruct Hphase as [->|(M & e & HM & -> & He & Hterm & Hmaj & Hpassed)]; [auto|].
  simpl. split; [exact Hlog|]. split; [exact Hla|]. right. split; [exact Hct|].
  exists e0, lastLogIndex, e. rewrite <- Hci. auto 10.
Qed.

(** C4. Whenever the handling of an AppendEntries reply, successful or not,
    moves [commitIndex], it moves it up to an index [N] of the log whose entry
    is of the current term and which a strict majority of the peers holds, the
    leader counted; no greater index of the log has both, so [N] is the
    greatest such index; the log and the term are those the leader had. *)
Theorem sendAppendEntries_commit_rule (server : Z) (args : AppendEntriesArgs.t)
    (reply : AppendEntriesReply.t) (ok ok' : bool) (rf rf' : Raft) :
  sendAppendEntries server args reply ok rf = Some (rf', ok') →
  commitIndex rf' ≠ commitIndex rf →
  let N := commitIndex rf' in
  N > commitIndex rf
  ∧ log rf' = log rf
  ∧ currentTerm rf' = currentTerm rf
  ∧ termAt rf' N = Some (currentTerm rf')
  ∧ majority rf' N
  ∧ ∃ lastLogIndex,
      getLastLogIndex rf' = Some lastLogIndex
      ∧ N <= lastLogIndex
      ∧ ∀ N', N < N' <= lastLogIndex →
          ¬ (termAt rf' N' = Some (currentTerm rf') ∧ majority rf' N').
Proof.
  intros Hrun Hmoved.
  destruct (sendAppendEntries_cases _ _ _ _ _ _ _ Hrun)
    as (Hlog & _ & [?|(Hct & e0 & l & e & He0 & Hl & HN & He & Hterm & Hmaj & Hpassed)]);
    [contradiction|].
  simpl. repeat split; try (assumption || lia).
  - unfold termAt. rewrite He0. simpl. rewrite He. simpl. congruence.
  - exists l. split; [exact Hl|]. split; [lia|].
    intros N' HN' [_ HmajN']. exact (Hpassed N' HN' HmajN').
Qed.

Lemma sendAppendEntries_commit_rule_witness :
  let rf := leaderWith [ent 0 0; ent 1 1; ent 2 1] 1 0 [0; 0; 0] in
  let args := AppendEntriesArgs.mk 1 0 0 0 [ent 1 1; ent 2 1] 0 in
  let reply := AppendEntriesReply.mk 1 true 2 in
  ∃ rf', sendAppendEntries 1 args reply true rf = Some (rf', true)
         ∧ commitIndex rf' = 2
         ∧ termAt rf' 2 = Some (currentTerm rf')
         ∧ majority rf' 2.
Proof.
  intros rf args reply.
  destruct (sendAppendEntries 1 args reply true rf) as [[rf' ok']|] eqn:Hrun;
    [|discriminate Hrun].
  assert (Hci : commitIndex rf' = 2) by (injection Hrun as <- _; reflexivity).
  assert (Hok : ok' = true) by (injection Hrun as _ <-; reflexivity).
  destruct (sendAppendEntries_commit_rule 1 args reply true ok' rf rf' Hrun)
    as (_ & _ & _ & Hterm & Hmaj & _).
  - rewrite Hci. simpl. lia.
  - exists rf'. rewrite Hok, <- Hci. auto.
Defined.

(** ** Where the order of the indices is kept *)

Lemma indicesOrdered_true rf :
  indicesOrdered rf = true ↔
  ∃ lastLogIndex, getLastLogIndex rf = Some lastLogIndex
                  ∧ lastApplied rf <= commitIndex rf <= lastLogIndex.
Proof.
  unfold indicesOrdered. destruct (getLastLogIndex rf) as [l|].
  - split.
    + intros H. exists l. split; [reflexivity|lia].
    + intros (l' & [= <-] & H). lia.
  - split; [discriminate|]. intros (l' & [=] & _).
Qed.

Lemma indicesOrdered_same rf rf' :
  log rf' = log rf → commitIndex rf' = commitIndex rf → lastApplied rf' = lastApplied rf →
  indicesOrdered rf' = indicesOrdered rf.
Proof.
  intros Hlog Hci Hla. unfold indicesOrdered.
  rewrite (getLastLogIndex_log _ _ Hlog), Hci, Hla. reflexivity.
Qed.

(** RequestVote touches none of the three. *)
Lemma RequestVote_body_frame args reply0 rf rf' reply :
  RequestVote_body args reply0 rf = Some (rf', reply) →
  log rf' = log rf ∧ commitIndex rf' = commitIndex rf ∧ lastApplied rf' = lastApplied rf.
Proof.
  unfold RequestVote_body. intros Hrun.
  follow Hrun; injection Hrun as <- _; auto.
Qed.

Lemma RequestVote_keeps_order args reply0 rf rf' reply :
  RequestVote args reply0 rf = Some (rf', reply) →
  indicesOrdered rf' = indicesOrdered rf.
Proof.
  unfold RequestVote. intros Hrun.
  destruct (RequestVote_body args reply0 rf) as [[rf1 reply1]|] eqn:Hbody;
    simpl in Hrun; [|discriminate].
  injection Hrun as <- _.
  apply RequestVote_body_frame in Hbody as (Hlog & Hci & Hla).
  apply indicesOrdered_same; assumption.
Qed.

(** applyLog moves [lastApplied] up to [commitIndex]. *)
Lemma applyLog_keeps_order rf rf' :
  applyLog rf = Some rf' → indicesOrdered rf = true → indicesOrdered rf' = true.
Proof.
  unfold applyLog. intros Hrun (l & Hl & Hord)%indicesOrdered_true.
  destruct (index (log rf) 0); simpl in Hrun; [|discriminate].
  destruct (applyLoop _ _ _ _ _); simpl in Hrun; [|discriminate].
  injection Hrun as <-. apply indicesOrdered_true. exists l. simpl.
  split; [exact Hl|lia].
Qed.

(** Start only lengthens the log. *)
Lemma Start_keeps_order command rf rf' r :
  Start command rf = Some (rf', r) → indicesOrdered rf = true → indicesOrdered rf' = true.
Proof.
  unfold Start. intros Hrun (l & Hl & Hord)%indicesOrdered_true.
  destruct (State_eqb (state rf) STATE_LEADER).
  - rewrite Hl in Hrun. simpl in Hrun. injection Hrun as <- _.
    apply indicesOrdered_true. exists (l + 1).
    rewrite getLastLogIndex_last. simpl. rewrite last_snoc. simpl.
    split; [reflexivity|lia].
  - injection Hrun as <- _. apply indicesOrdered_true. eauto.
Qed.

(** The leader's commit step stays within the log. *)
Lemma sendAppendEntries_keeps_order server args reply ok ok' rf rf' :
  sendAppendEntries server args reply ok rf = Some (rf', ok') →
  indicesOrdered rf = true → indicesOrdered rf' = true.
Proof.
  intros Hrun Hord.
  destruct (sendAppendEntries_cases _ _ _ _ _ _ _ Hrun)
    as (Hlog & Hla & [Hci|(_ & e0 & l & e & _ & Hl & HN & _)]).
  - rewrite <- Hord. apply indicesOrdered_same; assumption.
  - apply indicesOrdered_true in Hord as (l0 & Hl0 & Hord).
    apply indicesOrdered_true. exists l. split; [exact Hl|lia].
Qed.

(** InstallSnapshot installs the snapshot's index as both [lastApplied] and
    [commitIndex]; with a log numbered one after the other, whatever it keeps
    after the placeholder lies above that index. *)
Lemma InstallSnapshot_keeps_order args reply0 rf :
  consecutive (log rf) → indicesOrdered rf = true →
  indicesOrdered (InstallSnapshot args reply0 rf).1 = true.
Proof.
  intros Hcons Hord. unfold InstallSnapshot.
  destruct (InstallSnapshotArgs.Term args <? currentTerm rf); [exact Hord|].
  set (rf1 := set_chanHeartbeat _ _).
  assert (Hframe : log rf1 = log rf ∧ commitIndex rf1 = commitIndex rf
                   ∧ lastApplied rf1 = lastApplied rf)
    by (unfold rf1; destruct (InstallSnapshotArgs.Term args >? currentTerm rf); auto).
  destruct Hframe as (Hlog & Hci & Hla).
  set (i := InstallSnapshotArgs.LastIncludedIndex args).
  set (t := InstallSnapshotArgs.LastIncludedTerm args).
  destruct (i >? commitIndex rf1);
    [|rewrite <- Hord; apply indicesOrdered_same; assumption].
  assert (Hlast : ∃ l, LogEntry.Index <$> last (log (trimLog i t rf1)) = Some l ∧ i <= l).
  { destruct (trimLog_log i t rf1) as [(pre & e & suf & Hsplit & [Hi _] & _ & ->)|[_ ->]];
      [|exists i; split; [reflexivity|lia]].
    rewrite Hlog in Hsplit.
    destruct suf as [|x suf _] using rev_ind; [exists i; split; [reflexivity|lia]|].
    rewrite app_comm_cons, last_snoc. simpl. eexists. split; [reflexivity|].
    assert (He0 : ∃ e0, log rf !! 0%nat = Some e0).
    { rewrite Hsplit. destruct pre; simpl; eauto. }
    destruct He0 as [e0 He0].
    assert (He : log rf !! length pre = Some e).
    { rewrite Hsplit. rewrite lookup_app_r, Nat.sub_diag by lia. reflexivity. }
    assert (Hx : log rf !! (length pre + S (length suf))%nat = Some x).
    { rewrite Hsplit. rewrite lookup_app_r by lia.
      replace (length pre + S (length suf) - length pre)%nat with (S (length suf)) by lia.
      simpl. rewrite lookup_app_r, Nat.sub_diag by lia. reflexivity. }
    pose proof (Hcons _ _ _ He0 He). pose proof (Hcons _ _ _ He0 Hx). lia. }
  destruct Hlast as (l & Hl & Hil).
  apply indicesOrdered_true. exists l. split.
  - rewrite getLastLogIndex_last. exact Hl.
  - simpl. lia.
Qed.

(** AppendEntries: [lastApplied] stays, and [commitIndex] stays or becomes the
    smaller of the leader's and the new last log index. *)
Lemma AppendEntries_body_frame args reply0 rf rf' reply :
  AppendEntries_body args reply0 rf = Some (rf', reply) →
  lastApplied rf' = lastApplied rf
  ∧ (commitIndex rf' = commitIndex rf
     ∨ ∃ l, getLastLogIndex rf' = Some l
            ∧ commitIndex rf < AppendEntriesArgs.LeaderCommit args
            ∧ commitIndex rf' = min (AppendEntriesArgs.LeaderCommit args) l).
Proof.
  unfold AppendEntries_body. intros Hrun.
  follow Hrun; injection Hrun as <- _; simpl; (split; [reflexivity|]); auto.
  all: right; eexists; split; [eassumption|]; simpl in *; split; [lia|reflexivity].
Qed.

(** AppendEntries keeps the order whenever the log it leaves still reaches
    the old [commitIndex]: the one way to lose it is a cut of the log below
    [commitIndex]. *)
Lemma AppendEntries_keeps_order_when args reply0 rf rf' reply lastLogIndex' :
  AppendEntries args reply0 rf = Some (rf', reply) →
  indicesOrdered rf = true →
  getLastLogIndex rf' = Some lastLogIndex' →
  commitIndex rf <= lastLogIndex' →
  indicesOrdered rf' = true.
Proof.
  unfold AppendEntries. intros Hrun (l & Hl & Hord)%indicesOrdered_true Hl' Hreach.
  destruct (AppendEntries_body args reply0 rf) as [[rf1 reply1]|] eqn:Hbody;
    simpl in Hrun; [|discriminate].
  injection Hrun as <- _.
  apply AppendEntries_body_frame in Hbody as (Hla & [Hci|(l1 & Hl1 & Hlc & Hci)]);
    apply indicesOrdered_true; exists lastLogIndex'; (split; [exact Hl'|]); simpl.
  - lia.
  - change (getLastLogIndex (persist rf1)) with (getLastLogIndex rf1) in Hl'.
    rewrite Hl1 in Hl'. injection Hl' as ->. unfold min in Hci.
    destruct (AppendEntriesArgs.LeaderCommit args <? lastLogIndex') eqn:?; lia.
Qed.

(** ** Terms, votes and stable storage along the transitions *)

Lemma RequestVote_body_term_vote args reply0 rf rf' reply :
  RequestVote_body args reply0 rf = Some (rf', reply) →
  currentTerm rf <= currentTerm rf'
  ∧ (currentTerm rf' = currentTerm rf → votedFor rf ≠ -1 → votedFor rf' = votedFor rf).
Proof.
  unfold RequestVote_body. intros Hrun.
  follow Hrun; injection Hrun as <- _; simpl; split; try lia; intros; try lia; try reflexivity.
Qed.

Lemma AppendEntries_body_term_vote args reply0 rf rf' reply :
  AppendEntries_body args reply0 rf = Some (rf', reply) →
  currentTerm rf <= currentTerm rf'
  ∧ (currentTerm rf' = currentTerm rf → votedFor rf ≠ -1 → votedFor rf' = votedFor rf).
Proof.
  unfold AppendEntries_body. intros Hrun.
  follow Hrun; injection Hrun as <- _; simpl; split; try lia; intros; try lia; try reflexivity.
Qed.

Lemma sendRequestVote_body_term_vote server args reply ok rf rf' :
  sendRequestVote_body server args reply ok rf = Some rf' →
  currentTerm rf <= currentTerm rf'
  ∧ (currentTerm rf' = currentTerm rf → votedFor rf ≠ -1 → votedFor rf' = votedFor rf).
Proof.
  unfold sendRequestVote_body. intros Hrun.
  follow Hrun; injection Hrun as <-; simpl; split; try lia; intros; try lia; try reflexivity.
Qed.

(** X1. Along every transition the term does not decrease, and within one term a
    vote once given is not changed: a replica votes for at most one
    candidate per term. *)
Theorem step_term_vote (rf rf' : Raft) :
  step rf rf' →
  currentTerm rf <= currentTerm rf'
  ∧ (currentTerm rf' = currentTerm rf → votedFor rf ≠ -1 → votedFor rf' = votedFor rf).
Proof.
  intros Hstep. destruct Hstep as
    [args reply0 rf rf' reply Hrun | args reply0 rf rf' reply Hrun | args reply0 rf
    | server args reply ok rf rf' ok' Hrun | server args reply ok rf rf' ok' Hrun
    | server args reply ok rf rf' ok' Hrun | command rf rf' r Hrun | rf rf' Hrun
    | header kvSnapshot index rf rf' Hrun | rf Hst | rf Hst | rf Hst
    | rf Hst | rf Hst | rf Hst].
  - unfold RequestVote in Hrun.
    destruct (RequestVote_body args reply0 rf) as [[rf1 reply1]|] eqn:Hbody;
      simpl in Hrun; [|discriminate]. injection Hrun as <- _.
    exact (RequestVote_body_term_vote _ _ _ _ _ Hbody).
  - unfold AppendEntries in Hrun.
    destruct (AppendEntries_body args reply0 rf) as [[rf1 reply1]|] eqn:Hbody;
      simpl in Hrun; [|discriminate]. injection Hrun as <- _.
    exact (AppendEntries_body_term_vote _ _ _ _ _ Hbody).
  - unfold InstallSnapshot.
    destruct (Z.ltb_spec (InstallSnapshotArgs.Term args) (currentTerm rf));
      [simpl; split; [lia|reflexivity]|].
    destruct (Z.gtb_spec (InstallSnapshotArgs.Term args) (currentTerm rf));
      destruct (_ >? commitIndex _); simpl; split; try lia; intros; try lia; reflexivity.
  - unfold sendRequestVote in Hrun.
    destruct (sendRequestVote_body server args reply ok rf) as [rf1|] eqn:Hbody;
      simpl in Hrun; [|discriminate]. injection Hrun as <- _.
    exact (sendRequestVote_body_term_vote _ _ _ _ _ _ Hbody).
  - unfold sendAppendEntries in Hrun.
    destruct (negb ok || negb (State_eqb (state rf) STATE_LEADER)
              || negb (AppendEntriesArgs.Term args =? currentTerm rf));
      [injection Hrun as <- _; split; [lia|reflexivity]|].
    destruct (Z.gtb_spec (AppendEntriesReply.Term reply) (currentTerm rf));
      [injection Hrun as <- _; simpl; split; [lia|intros; lia]|].
    match type of Hrun with (?upd ≫= _) = _ => destruct upd as [rf1|] eqn:Hupd end;
      simpl in Hrun; [|discriminate].
    assert (Hsame : currentTerm rf1 = currentTerm rf ∧ votedFor rf1 = votedFor rf).
    { follow Hupd; injection Hupd as <-; auto. }
    destruct (commitPhase rf1) as [rf2|] eqn:Hphase; simpl in Hrun; [|discriminate].
    injection Hrun as <- _. unfold commitPhase in Hphase.
    follow Hphase. apply commitLoop_spec in Hphase; [|lia].
    destruct Hsame as [Ht Hv].
    destruct Hphase as [->|(M & e & _ & -> & _)]; simpl; rewrite Ht, Hv;
      split; try lia; reflexivity.
  - unfold sendInstallSnapshot in Hrun.
    destruct (Z.gtb_spec (InstallSnapshotReply.Term reply) (currentTerm rf));
      follow Hrun; injection Hrun as <- _; simpl; split; try lia; intros; try lia; reflexivity.
  - unfold Start in Hrun. follow Hrun; injection Hrun as <- _; simpl; split; try lia; reflexivity.
  - unfold applyLog in Hrun. follow Hrun; injection Hrun as <-; simpl; split; try lia; reflexivity.
  - unfold CreateSnapshot in Hrun.
    follow Hrun; injection Hrun as <-; simpl; split; try lia; reflexivity.
  - simpl. split; [lia|reflexivity].
  - simpl. split; [lia|intros; lia].
  - simpl. split; [lia|reflexivity].
  - simpl. split; [lia|reflexivity].
  - simpl. split; [lia|reflexivity].
  - simpl. split; [lia|reflexivity].
Qed.

Lemma step_term_vote_witness :
  ∃ rf', step (Make 3 0) rf' ∧ currentTerm (Make 3 0) <= currentTerm rf'.
Proof.
  destruct (RequestVote (RequestVoteArgs.mk 1 2 0 0) (RequestVoteReply.mk 0 false) (Make 3 0))
    as [[rf' reply]|] eqn:Hrun; [|discriminate Hrun].
  exists rf'.
  assert (Hstep : step (Make 3 0) rf') by (eapply step_RequestVote; exact Hrun).
  split; [exact Hstep|]. exact (proj1 (step_term_vote _ _ Hstep)).
Defined.




(** [Make] on a new persister is the general [Make] on it: [readPersist] and
    [recoverFromSnapshot] return at their first test. *)
Lemma Make_MakeOn decode peers me : Make peers me = MakeOn decode peers me MakePersister [].
Proof. reflexivity. Qed.


(** What a restart keeps: the term, the vote and the log last saved, when no
    snapshot was saved with them. *)
Lemma MakeOn_restores decode peers me persister applyCh st :
  ReadRaftState persister = Some st → ReadSnapshot persister = [] →
  getRaftState (MakeOn decode peers me persister applyCh) = st.
Proof.
  unfold MakeOn. intros -> ->. destruct st. reflexivity.
Qed.



(** ** AppendEntries: refusal and acceptance *)

Lemma index_lookup {A} (s : list A) (i : Z) : 0 <= i → index s i = s !! Z.to_nat i.
Proof. intros Hi. unfold index. destruct (Z.ltb_spec i 0); [lia|reflexivity]. Qed.

Lemma index_Some_lt {A} (s : list A) (i : Z) (x : A) :
  index s i = Some x → 0 <= i < Z.of_nat (length s).
Proof.
  unfold index. destruct (Z.ltb_spec i 0) as [?|Hi]; [discriminate|].
  intros Hx%lookup_lt_Some. lia.
Qed.

(** X3. A request whose term is behind, or whose [prevLogIndex] lies beyond the
    log, is refused: the answer asks for the index after the replica's last
    one and carries the larger of the two terms; the log, [commitIndex] and
    [lastApplied] stay. A request with a stale term, moreover, changes
    neither term, vote nor role and is not taken for a heartbeat. *)
Theorem AppendEntries_refused (args : AppendEntriesArgs.t) (reply0 : AppendEntriesReply.t)
    (rf : Raft) (lastLogIndex : Z) :
  getLastLogIndex rf = Some lastLogIndex →
  AppendEntriesArgs.Term args < currentTerm rf
  ∨ AppendEntriesArgs.PrevLogIndex args > lastLogIndex →
  ∃ rf' reply,
    AppendEntries args reply0 rf = Some (rf', reply)
    ∧ AppendEntriesReply.Success reply = false
    ∧ AppendEntriesReply.NextTryIndex reply = lastLogIndex + 1
    ∧ AppendEntriesReply.Term reply = Z.max (AppendEntriesArgs.Term args) (currentTerm rf)
    ∧ log rf' = log rf ∧ commitIndex rf' = commitIndex rf ∧ lastApplied rf' = lastApplied rf
    ∧ (AppendEntriesArgs.Term args < currentTerm rf →
       currentTerm rf' = currentTerm rf ∧ votedFor rf' = votedFor rf
       ∧ state rf' = state rf ∧ chanHeartbeat rf' = chanHeartbeat rf).
Proof.
  intros Hlast Hwhy. unfold AppendEntries, AppendEntries_body.
  destruct (Z.ltb_spec (AppendEntriesArgs.Term args) (currentTerm rf)) as [Hstale|Hterm].
  - rewrite Hlast. simpl. eexists _, _. split; [reflexivity|]. simpl.
    repeat split; try reflexivity. lia.
  - destruct Hwhy as [?|Hgap]; [lia|].
    set (rf1 := set_chanHeartbeat _ _).
    assert (Hframe : log rf1 = log rf ∧ commitIndex rf1 = commitIndex rf
                     ∧ lastApplied rf1 = lastApplied rf
                     ∧ currentTerm rf1
                       = Z.max (AppendEntriesArgs.Term args) (currentTerm rf)).
    { unfold rf1.
      destruct (Z.gtb_spec (AppendEntriesArgs.Term args) (currentTerm rf)); simpl;
        repeat split; lia. }
    destruct Hframe as (Hlog & Hci & Hla & Hct).
    rewrite (getLastLogIndex_log _ _ Hlog), Hlast. simpl.
    destruct (Z.gtb_spec (AppendEntriesArgs.PrevLogIndex args) lastLogIndex); [|lia].
    simpl. eexists _, _. split; [reflexivity|]. simpl.
    repeat split; try assumption; lia.
Qed.

Lemma AppendEntries_refused_witness :
  ∃ rf' reply,
    AppendEntries (AppendEntriesArgs.mk 1 0 5 1 [] 0) AppendEntriesReply.zero (Make 3 1)
      = Some (rf', reply)
    ∧ AppendEntriesReply.NextTryIndex reply = 1.
Proof.
  destruct (AppendEntries_refused (AppendEntriesArgs.mk 1 0 5 1 [] 0) AppendEntriesReply.zero
              (Make 3 1) 0) as (rf' & reply & Hrun & _ & Hnext & _).
  - reflexivity.
  - right. simpl. lia.
  - exists rf', reply. split; [exact Hrun|exact Hnext].
Defined.

(** What the handler does with a request it accepts: the log is cut after
    [prevLogIndex] and the entries are put behind; [commitIndex] follows the
    leader's, capped by the new last index. *)
Lemma AppendEntries_accept args reply0 rf e0 ep lastLogIndex :
  AppendEntriesArgs.Term args >= currentTerm rf →
  index (log rf) 0 = Some e0 →
  getLastLogIndex rf = Some lastLogIndex →
  LogEntry.Index e0 <= AppendEntriesArgs.PrevLogIndex args <= lastLogIndex →
  index (log rf) (AppendEntriesArgs.PrevLogIndex args - LogEntry.Index e0) = Some ep →
  LogEntry.Term ep = AppendEntriesArgs.PrevLogTerm args →
  ∃ rf' reply lastLogIndex',
    AppendEntries args reply0 rf = Some (rf', reply)
    ∧ log rf' = take (S (Z.to_nat (AppendEntriesArgs.PrevLogIndex args - LogEntry.Index e0)))
                     (log rf) ++ AppendEntriesArgs.Entries args
    ∧ getLastLogIndex rf' = Some lastLogIndex'
    ∧ AppendEntriesReply.Success reply = true
    ∧ AppendEntriesReply.Term reply = AppendEntriesArgs.Term args
    ∧ AppendEntriesReply.NextTryIndex reply
      = AppendEntriesArgs.PrevLogIndex args
        + Z.of_nat (length (AppendEntriesArgs.Entries args))
    ∧ currentTerm rf' = AppendEntriesArgs.Term args
    ∧ lastApplied rf' = lastApplied rf
    ∧ commitIndex rf'
      = (if commitIndex rf <? AppendEntriesArgs.LeaderCommit args
         then min (AppendEntriesArgs.LeaderCommit args) lastLogIndex'
         else commitIndex rf).
Proof.
  intros Hterm He0 Hlast Hprev Hep Hmatch. unfold AppendEntries, AppendEntries_body.
  destruct (Z.ltb_spec (AppendEntriesArgs.Term args) (currentTerm rf)); [lia|].
  remember (set_chanHeartbeat _ _) as rf1 eqn:Hrf1.
  assert (Hframe : log rf1 = log rf ∧ commitIndex rf1 = commitIndex rf
                   ∧ lastApplied rf1 = lastApplied rf
                   ∧ currentTerm rf1 = AppendEntriesArgs.Term args).
  { subst rf1.
    destruct (Z.gtb_spec (AppendEntriesArgs.Term args) (currentTerm rf)); simpl;
      repeat split; lia. }
  destruct Hframe as (Hlog & Hci & Hla & Hct). clear Hrf1.
  rewrite (getLastLogIndex_log _ _ Hlog), Hlast, Hlog, He0. simpl.
  destruct (Z.gtb_spec (AppendEntriesArgs.PrevLogIndex args) lastLogIndex); [lia|].
  destruct (Z.geb_spec (AppendEntriesArgs.PrevLogIndex args) (LogEntry.Index e0)); [|lia].
  rewrite Hep. simpl.
  destruct (Z.eqb_spec (AppendEntriesArgs.PrevLogTerm args) (LogEntry.Term ep)); [|congruence].
  simpl.
  destruct (Z.geb_spec (AppendEntriesArgs.PrevLogIndex args) (LogEntry.Index e0 - 1)); [|lia].
  pose proof (index_Some_lt _ _ _ Hep) as Hk.
  unfold slice_to.
  destruct (Z.ltb_spec (AppendEntriesArgs.PrevLogIndex args - LogEntry.Index e0 + 1) 0); [lia|].
  destruct (Z.ltb_spec (Z.of_nat (length (log rf)))
              (AppendEntriesArgs.PrevLogIndex args - LogEntry.Index e0 + 1)); [lia|].
  simpl.
  replace (Z.to_nat (AppendEntriesArgs.PrevLogIndex args - LogEntry.Index e0 + 1))
    with (S (Z.to_nat (AppendEntriesArgs.PrevLogIndex args - LogEntry.Index e0))) by lia.
  set (k := Z.to_nat (AppendEntriesArgs.PrevLogIndex args - LogEntry.Index e0)).
  set (log' := take (S k) (log rf) ++ AppendEntriesArgs.Entries args).
  assert (Hne : log' ≠ []).
  { unfold log'. destruct (log rf); simpl in *; [lia|discriminate]. }
  destruct (last_is_Some _ Hne) as [el Hel].
  rewrite Hci.
  destruct (commitIndex rf <? AppendEntriesArgs.LeaderCommit args) eqn:Hcommit.
  - rewrite getLastLogIndex_last. simpl. fold log'. rewrite Hel. simpl.
    eexists _, _, (LogEntry.Index el). split; [reflexivity|]. simpl.
    rewrite getLastLogIndex_last. simpl. fold log'. rewrite Hel.
    repeat split; try assumption; reflexivity.
  - eexists _, _, (LogEntry.Index el). split; [reflexivity|]. simpl.
    rewrite getLastLogIndex_last. simpl. fold log'. rewrite Hel.
    repeat split; try assumption; reflexivity.
Qed.

Lemma consecutive_last lg e0 el :
  consecutive lg → lg !! 0%nat = Some e0 → last lg = Some el →
  LogEntry.Index el = LogEntry.Index e0 + Z.of_nat (length lg) - 1.
Proof.
  intros Hcons He0 Hel. rewrite last_lookup in Hel.
  pose proof (Hcons _ _ _ He0 Hel). apply lookup_lt_Some in Hel. lia.
Qed.

(** ** Replication: a heartbeat and its handling *)

(** What [broadcastHeartbeat] puts into an AppendEntries request. *)
Lemma heartbeatFor_AppendEntries baseIndex snapshot server rf server' args :
  heartbeatFor baseIndex snapshot server rf = Some (CallAppendEntries server' args) →
  ∃ next lastLogIndex e,
    index (nextIndex rf) (Z.of_nat server) = Some next
    ∧ next > baseIndex
    ∧ getLastLogIndex rf = Some lastLogIndex
    ∧ index (log rf) (next - 1 - baseIndex) = Some e
    ∧ args = AppendEntriesArgs.mk (currentTerm rf) (me rf) (next - 1) (LogEntry.Term e)
               (if next <=? lastLogIndex then drop (Z.to_nat (next - baseIndex)) (log rf)
                else [])
               (commitIndex rf).
Proof.
  unfold heartbeatFor. intros Hrun.
  destruct (index (nextIndex rf) (Z.of_nat server)) as [next|]; simpl in Hrun; [|discriminate].
  destruct (Z.gtb_spec next baseIndex) as [Hnext|]; [|follow Hrun; discriminate].
  destruct (Z.geb_spec (next - 1) baseIndex); [|lia].
  destruct (index (log rf) (next - 1 - baseIndex)) as [e|] eqn:He; simpl in Hrun; [|discriminate].
  destruct (getLastLogIndex rf) as [lastLogIndex|]; simpl in Hrun; [|discriminate].
  exists next, lastLogIndex, e.
  split; [reflexivity|]. split; [lia|]. split; [reflexivity|]. split; [exact He|].
  destruct (next <=? lastLogIndex); simpl in Hrun.
  - unfold slice_from in Hrun.
    destruct ((next - baseIndex <? 0) || (Z.of_nat (length (log rf)) <? next - baseIndex));
      simpl in Hrun; [discriminate|].
    injection Hrun as _ <-. reflexivity.
  - injection Hrun as _ <-. reflexivity.
Qed.

(** X4. A follower whose log agrees with the leader's up to the entry before
    [nextIndex] accepts the leader's heartbeat and from then on holds the
    leader's log: it takes the leader's term, answers with the leader's last
    index, and moves [commitIndex] to the leader's when that is larger (both
    logs numbered one after the other from the same first entry). *)
Theorem follower_catches_up (leader follower : Raft) (server : nat)
    (args : AppendEntriesArgs.t) (reply0 : AppendEntriesReply.t) (e0 : LogEntry.t) :
  log leader !! 0%nat = Some e0 →
  heartbeatFor (LogEntry.Index e0) (ReadSnapshot (persister leader)) server leader
    = Some (CallAppendEntries server args) →
  consecutive (log leader) →
  consecutive (log follower) →
  currentTerm follower <= currentTerm leader →
  let k := Z.to_nat (AppendEntriesArgs.PrevLogIndex args - LogEntry.Index e0) in
  (k < length (log follower))%nat →
  take (S k) (log follower) = take (S k) (log leader) →
  ∃ follower' reply lastLogIndex,
    AppendEntries args reply0 follower = Some (follower', reply)
    ∧ AppendEntriesReply.Success reply = true
    ∧ log follower' = log leader
    ∧ currentTerm follower' = currentTerm leader
    ∧ getLastLogIndex leader = Some lastLogIndex
    ∧ AppendEntriesReply.NextTryIndex reply = lastLogIndex
    ∧ commitIndex follower'
      = (if commitIndex follower <? commitIndex leader
         then min (commitIndex leader) lastLogIndex
         else commitIndex follower).
Proof.
  intros He0 Hbeat HconsL HconsF Hterm k Hk Hagree.
  apply heartbeatFor_AppendEntries in Hbeat
    as (next & lastL & e & _ & Hnext & HlastL & He & ->).
  simpl in k.
  pose proof (index_Some_lt _ _ _ He) as HkL.
  rewrite index_lookup in He by lia. fold k in He.
  assert (HkS : next - LogEntry.Index e0 = Z.of_nat (S k)) by lia.
  (* the last entry of the leader *)
  rewrite getLastLogIndex_last in HlastL.
  destruct (last (log leader)) as [elL|] eqn:HelL; [|discriminate].
  injection HlastL as HlastL.
  pose proof (consecutive_last _ _ _ HconsL He0 HelL) as HidxL.
  (* the follower's view of the entries 0 and k *)
  assert (HF0 : log follower !! 0%nat = Some e0).
  { rewrite <- (lookup_take_lt (log follower) (S k) 0), Hagree, lookup_take_lt by lia.
    exact He0. }
  assert (HFk : log follower !! k = Some e).
  { rewrite <- (lookup_take_lt (log follower) (S k) k), Hagree, lookup_take_lt by lia.
    exact He. }
  destruct (last_is_Some (log follower)) as [elF HelF].
  { intros Hnil. rewrite Hnil in HF0. discriminate. }
  pose proof (consecutive_last _ _ _ HconsF HF0 HelF) as HidxF.
  destruct (AppendEntries_accept
              (AppendEntriesArgs.mk (currentTerm leader) (me leader) (next - 1) (LogEntry.Term e)
                 (if next <=? lastL then drop (Z.to_nat (next - LogEntry.Index e0)) (log leader)
                  else [])
                 (commitIndex leader))
              reply0 follower e0 e (LogEntry.Index elF))
    as (follower' & reply & lastF' & Hrun & Hlog & HlastF' & Hok & _ & Hnti & Hct & _ & Hci).
  - simpl. lia.
  - rewrite index_lookup by lia. exact HF0.
  - rewrite getLastLogIndex_last, HelF. reflexivity.
  - simpl. lia.
  - simpl. rewrite index_lookup by lia. fold k. exact HFk.
  - reflexivity.
  - simpl in Hlog, Hnti, Hct, Hci. fold k in Hlog.
    assert (Hentries : (if next <=? lastL
                        then drop (Z.to_nat (next - LogEntry.Index e0)) (log leader)
                        else []) = drop (S k) (log leader)).
    { destruct (Z.leb_spec next lastL).
      - f_equal. lia.
      - symmetry. apply drop_ge. lia. }
    rewrite Hentries in Hlog, Hnti. rewrite Hagree, take_drop in Hlog.
    assert (HlastF'L : lastF' = lastL).
    { rewrite getLastLogIndex_last, Hlog, HelL in HlastF'. injection HlastF' as <-.
      exact HlastL. }
    exists follower', reply, lastL. rewrite getLastLogIndex_last, HelL. simpl.
    rewrite HlastL. subst lastF'.
    repeat split; try assumption.
    rewrite Hnti, length_drop. lia.
Qed.

Lemma follower_catches_up_witness :
  let leader := leaderWith [ent 0 0; ent 1 1; ent 2 1] 1 1 [0; 0; 0] in
  let leader := set_nextIndex [3; 2; 3] leader in
  let follower := followerWith [ent 0 0; ent 1 1] 1 0 0 in
  let args := AppendEntriesArgs.mk 1 0 1 1 [ent 2 1] 1 in
  ∃ follower' reply,
    AppendEntries args AppendEntriesReply.zero follower = Some (follower', reply)
    ∧ log follower' = log leader.
Proof.
  intros leader0 leader follower args.
  destruct (follower_catches_up leader follower 1 args AppendEntriesReply.zero (ent 0 0))
    as (follower' & reply & l & Hrun & _ & Hlog & _).
  - reflexivity.
  - reflexivity.
  - intros k e0 e H0 Hk. injection H0 as <-.
    destruct k as [|[|[|k]]]; simpl in Hk; try discriminate; injection Hk as <-; reflexivity.
  - intros k e0 e H0 Hk. injection H0 as <-.
    destruct k as [|[|k]]; simpl in Hk; try discriminate; injection Hk as <-; reflexivity.
  - simpl. lia.
  - simpl. lia.
  - reflexivity.
  - exists follower', reply. split; [exact Hrun|exact Hlog].
Defined.

(** ** Catching up through a snapshot *)

Lemma index_0 {A} (s : list A) : index s 0 = s !! 0%nat.
Proof. reflexivity. Qed.

Lemma heartbeatFor_InstallSnapshot baseIndex snapshot server rf server' args :
  heartbeatFor baseIndex snapshot server rf = Some (CallInstallSnapshot server' args) →
  ∃ next e0,
    index (nextIndex rf) (Z.of_nat server) = Some next
    ∧ next <= baseIndex
    ∧ index (log rf) 0 = Some e0
    ∧ args = InstallSnapshotArgs.mk (currentTerm rf) (me rf) (LogEntry.Index e0)
               (LogEntry.Term e0) snapshot.
Proof.
  unfold heartbeatFor. intros Hrun.
  destruct (index (nextIndex rf) (Z.of_nat server)) as [next|]; simpl in Hrun; [|discriminate].
  destruct (Z.gtb_spec next baseIndex) as [|Hnext]; [follow Hrun; discriminate|].
  destruct (index (log rf) 0) as [e0|]; simpl in Hrun; [|discriminate].
  injection Hrun as _ <-. exists next, e0. auto.
Qed.

(** With a log numbered one after the other, what [trimLog] leaves ends at or
    above the index it was given, and starts with the placeholder. *)
Lemma trimLog_ends i t rf :
  consecutive (log rf) →
  log (trimLog i t rf) !! 0%nat = Some (LogEntry.mk i t INil)
  ∧ ∃ l, getLastLogIndex (trimLog i t rf) = Some l ∧ i <= l.
Proof.
  intros Hcons. rewrite getLastLogIndex_last.
  destruct (trimLog_log i t rf) as [(pre & e & suf & Hsplit & [Hi _] & _ & ->)|[_ ->]];
    (split; [reflexivity|]); [|exists i; split; [reflexivity|lia]].
  destruct suf as [|x suf _] using rev_ind; [exists i; split; [reflexivity|lia]|].
  rewrite app_comm_cons, last_snoc. simpl. eexists. split; [reflexivity|].
  assert (He0 : ∃ e0, log rf !! 0%nat = Some e0).
  { rewrite Hsplit. destruct pre; simpl; eauto. }
  destruct He0 as [e0 He0].
  assert (He : log rf !! length pre = Some e).
  { rewrite Hsplit. rewrite lookup_app_r, Nat.sub_diag by lia. reflexivity. }
  assert (Hx : log rf !! (length pre + S (length suf))%nat = Some x).
  { rewrite Hsplit. rewrite lookup_app_r by lia.
    replace (length pre + S (length suf) - length pre)%nat with (S (length suf)) by lia.
    simpl. rewrite lookup_app_r, Nat.sub_diag by lia. reflexivity. }
  pose proof (Hcons _ _ _ He0 He). pose proof (Hcons _ _ _ He0 Hx). lia.
Qed.

(** X5. Let the leader's log be numbered one after the other and start with
    the entry a snapshot leaves (no command), and let [nextIndex] for a peer
    be at or below the index of that entry. Then the request
    [broadcastHeartbeat] builds for the peer is an InstallSnapshot. A
    follower of a term not above the leader's, with a log numbered one after
    the other, that has committed less than the snapshot covers is brought
    to the leader's log in two exchanges: it installs the snapshot
    ([commitIndex] and [lastApplied] at the snapshot's index, the leader's
    snapshot on its stable storage); the leader, on the reply, moves
    [nextIndex] past the snapshot, so that its next heartbeat is an
    AppendEntries; and the follower accepts that one and then holds the
    leader's log. *)
Theorem follower_catches_up_by_snapshot (leader follower : Raft) (server : nat)
    (sreply0 : InstallSnapshotReply.t) (areply0 : AppendEntriesReply.t)
    (e0 : LogEntry.t) (next : Z) :
  log leader !! 0%nat = Some e0 →
  LogEntry.Command e0 = INil →
  consecutive (log leader) →
  consecutive (log follower) →
  state leader = STATE_LEADER →
  currentTerm follower <= currentTerm leader →
  commitIndex follower < LogEntry.Index e0 →
  nextIndex leader !! server = Some next →
  next <= LogEntry.Index e0 →
  (server < length (matchIndex leader))%nat →
  ∃ sargs,
    heartbeatFor (LogEntry.Index e0) (ReadSnapshot (persister leader)) server leader
    = Some (CallInstallSnapshot server sargs)
    ∧ let follower1 := (InstallSnapshot sargs sreply0 follower).1 in
      let sreply := (InstallSnapshot sargs sreply0 follower).2 in
      commitIndex follower1 = LogEntry.Index e0
      ∧ lastApplied follower1 = LogEntry.Index e0
      ∧ Persister.snapshot (persister follower1) = ReadSnapshot (persister leader)
      ∧ ∃ leader1 aargs follower2 areply,
          sendInstallSnapshot (Z.of_nat server) sargs sreply true leader = Some (leader1, true)
          ∧ heartbeatFor (LogEntry.Index e0) (ReadSnapshot (persister leader1)) server leader1
            = Some (CallAppendEntries server aargs)
          ∧ AppendEntries aargs areply0 follower1 = Some (follower2, areply)
          ∧ AppendEntriesReply.Success areply = true
          ∧ log follower2 = log leader.
Proof.
  intros He0 Hnil HconsL HconsF Hleader Hterm Hbehind Hnext Hbase Hmi.
  pose proof (lookup_lt_Some _ _ _ Hnext) as Hni.
  set (base := LogEntry.Index e0) in *.
  set (args := InstallSnapshotArgs.mk (currentTerm leader) (me leader) base (LogEntry.Term e0)
                 (ReadSnapshot (persister leader))) in *.
  exists args. split.
  { (* what the leader sends *)
    unfold heartbeatFor. rewrite (index_lookup _ (Z.of_nat server)) by lia.
    rewrite Nat2Z.id, Hnext. simpl.
    destruct (Z.gtb_spec next base); [lia|].
    rewrite index_0, He0. reflexivity. }
  intros follower1 sreply.
  (* the follower installs the snapshot *)
  set (rf0 := if currentTerm leader >? currentTerm follower
              then persist (becomeFollower (currentTerm leader) follower) else follower).
  set (rf1 := set_chanHeartbeat (chanHeartbeat rf0 ++ [true]) rf0).
  assert (Hframe : log rf1 = log follower ∧ commitIndex rf1 = commitIndex follower
                   ∧ currentTerm rf1 = currentTerm leader).
  { unfold rf1, rf0. destruct (Z.gtb_spec (currentTerm leader) (currentTerm follower));
      simpl; repeat split; lia. }
  destruct Hframe as (Hlog1 & Hci1 & Hct1).
  assert (Hinstall :
            InstallSnapshot args sreply0 follower
            = (let rf := trimLog base (LogEntry.Term e0) rf1 in
               let rf := set_lastApplied base rf in
               let rf := set_commitIndex base rf in
               let rf := set_persister
                           (SaveStateAndSnapshot (getRaftState rf)
                              (ReadSnapshot (persister leader)) (persister rf)) rf in
               set_chanApply
                 (chanApply rf
                  ++ [ApplyMsg.mk false 0 INil true (ReadSnapshot (persister leader))]) rf,
               InstallSnapshotReply.mk (currentTerm rf1))).
  { unfold InstallSnapshot.
    cbn [InstallSnapshotArgs.Term InstallSnapshotArgs.LastIncludedIndex
         InstallSnapshotArgs.LastIncludedTerm InstallSnapshotArgs.Data args].
    destruct (Z.ltb_spec (currentTerm leader) (currentTerm follower)); [lia|].
    fold rf0. fold rf1. rewrite Hci1.
    destruct (Z.gtb_spec base (commitIndex follower)); [reflexivity|lia]. }
  clearbody rf1. clear rf0.
  subst follower1 sreply. rewrite Hinstall. cbn [fst snd]. cbv zeta.
  split; [reflexivity|]. split; [reflexivity|]. split; [reflexivity|].
  (* the leader handles the reply *)
  unfold sendInstallSnapshot.
  cbn [InstallSnapshotArgs.Term InstallSnapshotArgs.LastIncludedIndex args
       InstallSnapshotReply.Term].
  rewrite Hleader, Z.eqb_refl, Hct1. simpl.
  destruct (Z.gtb_spec (currentTerm leader) (currentTerm leader)); [lia|].
  unfold assign. simpl. rewrite Nat2Z.id.
  destruct (Z.ltb_spec (Z.of_nat server) 0); [lia|].
  destruct (Z.leb_spec (Z.of_nat (length (nextIndex leader))) (Z.of_nat server)); [lia|].
  simpl.
  destruct (Z.leb_spec (Z.of_nat (length (matchIndex leader))) (Z.of_nat server)); [lia|].
  simpl. eexists _. 
  (* the next heartbeat *)
  destruct (last_is_Some (log leader)) as [elL HelL].
  { intros Hn. rewrite Hn in He0. discriminate. }
  pose proof (consecutive_last _ _ _ HconsL He0 HelL) as HidxL. fold base in HidxL.
  set (entries := if base + 1 <=? LogEntry.Index elL then drop 1 (log leader) else []).
  exists (AppendEntriesArgs.mk (currentTerm leader) (me leader) base (LogEntry.Term e0)
            entries (commitIndex leader)).
  assert (Hentries : entries = drop 1 (log leader)).
  { unfold entries. destruct (Z.leb_spec (base + 1) (LogEntry.Index elL)); [reflexivity|].
    symmetry. apply drop_ge. lia. }
  (* the follower accepts it *)
  set (follower1 := set_chanApply _ _).
  destruct (trimLog_ends base (LogEntry.Term e0) rf1) as (Hhead & l1 & Hl1 & Hle1).
  { rewrite Hlog1. exact HconsF. }
  destruct (AppendEntries_accept
              (AppendEntriesArgs.mk (currentTerm leader) (me leader) base (LogEntry.Term e0)
                 entries (commitIndex leader))
              areply0 follower1 (LogEntry.mk base (LogEntry.Term e0) INil)
              (LogEntry.mk base (LogEntry.Term e0) INil) l1)
    as (follower2 & areply & l2 & Hrun & Hlog2 & _ & Hok & _).
  - simpl. unfold trimLog. simpl. lia.
  - rewrite index_lookup by lia. exact Hhead.
  - exact Hl1.
  - simpl. lia.
  - simpl. rewrite Z.sub_diag. rewrite index_lookup by lia. exact Hhead.
  - reflexivity.
  - exists follower2, areply. split; [reflexivity|]. split.
    + unfold heartbeatFor. simpl. rewrite (index_lookup _ (Z.of_nat server)) by lia.
      rewrite Nat2Z.id, list_lookup_insert_eq by lia. simpl.
      destruct (Z.gtb_spec (base + 1) base); [|lia].
      destruct (Z.geb_spec (base + 1 - 1) base); [|lia].
      replace (base + 1 - 1 - base) with 0 by lia.
      rewrite index_0, He0. simpl.
      rewrite getLastLogIndex_last. simpl. rewrite HelL. simpl.
      replace (base + 1 - 1) with base by lia.
      unfold entries. destruct (base + 1 <=? LogEntry.Index elL); simpl; [|fold base; reflexivity].
      unfold slice_from. replace (base + 1 - base) with 1 by lia. simpl.
      pose proof (lookup_lt_Some _ _ _ He0).
      destruct (Z.ltb_spec (Z.of_nat (length (log leader))) 1); [lia|]. simpl.
      fold base. reflexivity.
    + split; [exact Hrun|]. split; [exact Hok|].
      rewrite Hlog2.
      cbn [AppendEntriesArgs.PrevLogIndex AppendEntriesArgs.Entries LogEntry.Index].
      rewrite Z.sub_diag, Hentries. change (Z.to_nat 0) with 0%nat.
      change (log follower1) with (log (trimLog base (LogEntry.Term e0) rf1)).
      revert Hhead. generalize (log (trimLog base (LogEntry.Term e0) rf1)).
      intros [|h tl] Hhead; [discriminate|]. injection Hhead as ->.
      destruct (log leader) as [|h0 tl0]; [discriminate|].
      injection He0 as ->. unfold base. simpl.
      destruct e0 as [i0 t0 c0]. simpl in *. subst c0. reflexivity.
Qed.


Lemma follower_catches_up_by_snapshot_witness :
  let leader := set_nextIndex [7; 3; 7] (leaderWith [ent 5 2; ent 6 3] 3 5 [0; 0; 0]) in
  let follower := followerWith [ent 0 0; ent 1 1; ent 2 1] 1 2 2 in
  let sargs := InstallSnapshotArgs.mk 3 0 5 2 [] in
  let follower1 := (InstallSnapshot sargs (InstallSnapshotReply.mk 0) follower).1 in
  heartbeatFor 5 [] 1 leader = Some (CallInstallSnapshot 1 sargs)
  ∧ commitIndex follower1 = 5
  ∧ ∃ aargs follower2 areply,
      AppendEntries aargs AppendEntriesReply.zero follower1 = Some (follower2, areply)
      ∧ log follower2 = log leader.
Proof.
  intros leader follower sargs follower1.
  destruct (follower_catches_up_by_snapshot leader follower 1 (InstallSnapshotReply.mk 0)
              AppendEntriesReply.zero (ent 5 2) 3)
    as (sargs' & Hbeat & Hci & _ & _ & leader1 & aargs & follower2 & areply
        & _ & _ & Hrun & _ & Hlog).
  - reflexivity.
  - reflexivity.
  - intros k e0 e H0 Hk. injection H0 as <-.
    destruct k as [|[|k]]; simpl in Hk; try discriminate; injection Hk as <-; reflexivity.
  - intros k e0 e H0 Hk. injection H0 as <-.
    destruct k as [|[|[|k]]]; simpl in Hk; try discriminate; injection Hk as <-; reflexivity.
  - reflexivity.
  - simpl. lia.
  - simpl. lia.
  - reflexivity.
  - simpl. lia.
  - simpl. lia.
  - assert (Hsargs : sargs' = sargs).
    { vm_compute in Hbeat. injection Hbeat as <-. reflexivity. }
    subst sargs'.
    split; [exact Hbeat|]. split; [exact Hci|].
    exists aargs, follower2, areply. split; [exact Hrun|exact Hlog].
Defined.

(** ** Applying committed entries *)

Lemma applyLoop_emits lg e0 n : ∀ i ch,
  consecutive lg → lg !! 0%nat = Some e0 →
  LogEntry.Index e0 <= i →
  (Z.to_nat (i - LogEntry.Index e0) + n ≤ length lg)%nat →
  applyLoop lg (LogEntry.Index e0) i n ch
  = Some (ch ++ map (λ e, ApplyMsg.mk true (LogEntry.Index e) (LogEntry.Command e) false [])
                    (take n (drop (Z.to_nat (i - LogEntry.Index e0)) lg))).
Proof.
  induction n as [|n IH]; intros i ch Hcons He0 Hi Hlen; simpl.
  - rewrite app_nil_r. reflexivity.
  - rewrite index_lookup by lia.
    destruct (lookup_lt_is_Some_2 lg (Z.to_nat (i - LogEntry.Index e0)) ltac:(lia)) as [e He].
    rewrite He. simpl.
    rewrite IH by (assumption || lia).
    rewrite (drop_S _ _ _ He). simpl. rewrite <- app_assoc. simpl.
    pose proof (Hcons _ _ _ He0 He) as Hidx.
    replace (LogEntry.Index e) with i by lia.
    replace (Z.to_nat (i + 1 - LogEntry.Index e0)) with (S (Z.to_nat (i - LogEntry.Index e0)))
      by lia.
    reflexivity.
Qed.

(** X6. On a log numbered one after the other, [applyLog] hands the service
    every entry after [lastApplied] up to [commitIndex], each once, in log
    order and under its own index, and then has [lastApplied] equal to
    [commitIndex]; nothing else of the replica changes. *)
Theorem applyLog_emits (rf : Raft) (e0 : LogEntry.t) :
  consecutive (log rf) →
  log rf !! 0%nat = Some e0 →
  LogEntry.Index e0 <= lastApplied rf + 1 →
  lastApplied rf <= commitIndex rf →
  commitIndex rf - LogEntry.Index e0 < Z.of_nat (length (log rf)) →
  ∃ rf',
    applyLog rf = Some rf'
    ∧ chanApply rf'
      = chanApply rf
        ++ map (λ e, ApplyMsg.mk true (LogEntry.Index e) (LogEntry.Command e) false [])
               (take (Z.to_nat (commitIndex rf - lastApplied rf))
                     (drop (Z.to_nat (lastApplied rf + 1 - LogEntry.Index e0)) (log rf)))
    ∧ lastApplied rf' = commitIndex rf
    ∧ commitIndex rf' = commitIndex rf
    ∧ log rf' = log rf.
Proof.
  intros Hcons He0 Hbase Hord Hin. unfold applyLog.
  rewrite index_0, He0. simpl.
  rewrite (applyLoop_emits _ e0) by (assumption || lia). simpl.
  eexists. split; [reflexivity|]. simpl. auto.
Qed.

Lemma applyLog_emits_witness :
  let rf := followerWith [ent 0 0; ent 1 1; ent 2 1; ent 3 1] 1 3 1 in
  ∃ rf', applyLog rf = Some rf'
         ∧ chanApply rf' = [ApplyMsg.mk true 2 INil false []; ApplyMsg.mk true 3 INil false []].
Proof.
  intros rf.
  destruct (applyLog_emits rf (ent 0 0)) as (rf' & Hrun & Hch & _).
  - intros k e0 e H0 Hk. injection H0 as <-.
    destruct k as [|[|[|[|k]]]]; simpl in Hk; try discriminate; injection Hk as <-; reflexivity.
  - reflexivity.
  - simpl. lia.
  - simpl. lia.
  - simpl. lia.
  - exists rf'. split; [exact Hrun|exact Hch].
Defined.

(** ** Winning an election *)

(** X7. A candidate asks a voter that is in an earlier term and whose log is not
    more up to date than the candidate's: the voter takes the candidate's
    term and grants the vote, and the candidate counts it. If the count then
    exceeds half the peers the candidate becomes leader with [nextIndex] one
    past its last index and [matchIndex] zero for every peer; otherwise it
    stays a candidate. *)
Theorem election_exchange (candidate voter : Raft) (server : Z)
    (args : RequestVoteArgs.t) (reply0 : RequestVoteReply.t)
    (lastTerm lastIndex voterTerm voterIndex : Z) :
  state candidate = STATE_CANDIDATE →
  getLastLogTerm candidate = Some lastTerm →
  getLastLogIndex candidate = Some lastIndex →
  requestVoteArgs candidate = Some args →
  getLastLogTerm voter = Some voterTerm →
  getLastLogIndex voter = Some voterIndex →
  currentTerm voter < currentTerm candidate →
  lastTerm > voterTerm ∨ (lastTerm = voterTerm ∧ lastIndex >= voterIndex) →
  ∃ voter' reply candidate',
    RequestVote args reply0 voter = Some (voter', reply)
    ∧ RequestVoteReply.VoteGranted reply = true
    ∧ RequestVoteReply.Term reply = currentTerm candidate
    ∧ currentTerm voter' = currentTerm candidate
    ∧ votedFor voter' = me candidate
    ∧ state voter' = STATE_FOLLOWER
    ∧ sendRequestVote server args reply true candidate = Some (candidate', true)
    ∧ voteCount candidate' = voteCount candidate + 1
    ∧ currentTerm candidate' = currentTerm candidate
    ∧ if voteCount candidate + 1 >? Z.of_nat (peers candidate) / 2
      then state candidate' = STATE_LEADER
           ∧ nextIndex candidate' = replicate (peers candidate) (lastIndex + 1)
           ∧ matchIndex candidate' = replicate (peers candidate) 0
      else state candidate' = STATE_CANDIDATE
           ∧ nextIndex candidate' = nextIndex candidate
           ∧ matchIndex candidate' = matchIndex candidate.
Proof.
  intros Hcand HlastT HlastI Hargs HvT HvI Hterm Hup.
  unfold requestVoteArgs in Hargs. rewrite HlastI, HlastT in Hargs. simpl in Hargs.
  injection Hargs as <-.
  unfold RequestVote, RequestVote_body. simpl.
  destruct (Z.ltb_spec (currentTerm candidate) (currentTerm voter)); [lia|].
  destruct (Z.gtb_spec (currentTerm candidate) (currentTerm voter)); [|lia].
  simpl. unfold isUpToDate.
  rewrite (getLastLogIndex_log (becomeFollower (currentTerm candidate) voter) voter eq_refl).
  assert (HvT' : getLastLogTerm (becomeFollower (currentTerm candidate) voter) = Some voterTerm)
    by exact HvT.
  rewrite HvT', HvI. simpl.
  assert (Hnew : (lastTerm >? voterTerm) || ((lastTerm =? voterTerm) && (lastIndex >=? voterIndex))
                 = true) by lia.
  rewrite Hnew. simpl.
  assert (Hsend : ∀ reply, RequestVoteReply.VoteGranted reply = true →
            RequestVoteReply.Term reply = currentTerm candidate →
            ∃ candidate', sendRequestVote server
                (RequestVoteArgs.mk (currentTerm candidate) (me candidate) lastIndex lastTerm)
                reply true candidate = Some (candidate', true)
              ∧ voteCount candidate' = voteCount candidate + 1
              ∧ currentTerm candidate' = currentTerm candidate
              ∧ if voteCount candidate + 1 >? Z.of_nat (peers candidate) / 2
                then state candidate' = STATE_LEADER
                     ∧ nextIndex candidate' = replicate (peers candidate) (lastIndex + 1)
                     ∧ matchIndex candidate' = replicate (peers candidate) 0
                else state candidate' = STATE_CANDIDATE
                     ∧ nextIndex candidate' = nextIndex candidate
                     ∧ matchIndex candidate' = matchIndex candidate).
  { intros reply Hgranted Hrt.
    unfold sendRequestVote, sendRequestVote_body. simpl.
    rewrite Hcand, Z.eqb_refl, Hrt, Hgranted. simpl.
    destruct (Z.ltb_spec (currentTerm candidate) (currentTerm candidate)); [lia|].
    destruct (voteCount candidate + 1 >? Z.of_nat (peers candidate) / 2).
    - assert (Hl : getLastLogIndex
                     (set_matchIndex (replicate (peers candidate) 0)
                        (set_nextIndex (replicate (peers candidate) 0)
                           (persist (set_state STATE_LEADER
                                       (set_voteCount (voteCount candidate + 1) candidate)))))
                   = Some lastIndex) by exact HlastI.
      rewrite Hl. simpl. rewrite length_replicate.
      eexists. split; [reflexivity|]. simpl. auto.
    - simpl. eexists. split; [reflexivity|]. simpl. rewrite Hcand. auto. }
  destruct (Hsend (RequestVoteReply.mk (currentTerm candidate) true) eq_refl eq_refl)
    as (candidate' & Hrun & Hrest).
  eexists _, _, candidate'. split; [reflexivity|]. simpl.
  split; [reflexivity|]. split; [reflexivity|]. split; [reflexivity|].
  split; [reflexivity|]. split; [reflexivity|].
  split; [exact Hrun|exact Hrest].
Qed.

Lemma election_exchange_witness :
  let candidate := startElection (followerTimeout (Make 3 0)) in
  let voter := Make 3 1 in
  ∃ voter' reply candidate',
    RequestVote (RequestVoteArgs.mk 1 0 0 0) (RequestVoteReply.mk 0 false) voter
      = Some (voter', reply)
    ∧ sendRequestVote 1 (RequestVoteArgs.mk 1 0 0 0) reply true candidate
      = Some (candidate', true)
    ∧ state candidate' = STATE_LEADER.
Proof.
  intros candidate voter.
  destruct (election_exchange candidate voter 1 (RequestVoteArgs.mk 1 0 0 0)
              (RequestVoteReply.mk 0 false) 0 0 0 0)
    as (voter' & reply & candidate' & Hvote & _ & _ & _ & _ & _ & Hcount & _ & _ & Hwin);
    try reflexivity.
  - right. lia.
  - exists voter', reply, candidate'. split; [exact Hvote|]. split; [exact Hcount|].
    exact (proj1 Hwin).
Defined.

(** ** Taking a snapshot *)

Lemma trimScan_consecutive lg e0 e k t newLog : ∀ n,
  consecutive lg → lg !! 0%nat = Some e0 → lg !! k = Some e → LogEntry.Term e = t →
  (k < n ≤ length lg)%nat →
  trimScan lg (LogEntry.Index e) t n newLog = newLog ++ drop (S k) lg.
Proof.
  intros n Hcons He0 He Ht. induction n as [|n IH]; intros Hn; [lia|].
  simpl. destruct (lookup_lt_is_Some_2 lg n ltac:(lia)) as [e' He']. rewrite He'.
  pose proof (Hcons _ _ _ He0 He) as Hi. pose proof (Hcons _ _ _ He0 He') as Hi'.
  destruct (decide (n = k)) as [->|Hne].
  - rewrite He in He'. injection He' as <-. rewrite Ht, !Z.eqb_refl. reflexivity.
  - destruct (Z.eqb_spec (LogEntry.Index e') (LogEntry.Index e)); [lia|].
    simpl. apply IH. lia.
Qed.

(** X8. [CreateSnapshot] on a log numbered one after the other. An index at or
    below the first entry's, or above the last entry's, changes nothing. Any
    other index replaces the log up to and including that entry by one
    placeholder carrying the entry's index and term, keeps the entries after
    it, so the log still ends at the same index and is still numbered one
    after the other, and saves the new state together with a snapshot that
    is the header for that index and term followed by the service's bytes. *)
Theorem CreateSnapshot_spec (header : Z → Z → list Byte.byte) (kvSnapshot : list Byte.byte)
    (index : Z) (rf : Raft) (e0 : LogEntry.t) (lastIndex : Z) :
  consecutive (log rf) →
  log rf !! 0%nat = Some e0 →
  getLastLogIndex rf = Some lastIndex →
  ∃ rf',
    CreateSnapshot header kvSnapshot index rf = Some rf'
    ∧ if (index <=? LogEntry.Index e0) || (index >? lastIndex) then rf' = rf
      else ∃ e,
        log rf !! Z.to_nat (index - LogEntry.Index e0) = Some e
        ∧ LogEntry.Index e = index
        ∧ log rf' = LogEntry.mk index (LogEntry.Term e) INil
                    :: drop (S (Z.to_nat (index - LogEntry.Index e0))) (log rf)
        ∧ consecutive (log rf')
        ∧ getLastLogIndex rf' = Some lastIndex
        ∧ Persister.raftstate (persister rf') = Some (getRaftState rf')
        ∧ Persister.snapshot (persister rf') = header index (LogEntry.Term e) ++ kvSnapshot
        ∧ commitIndex rf' = commitIndex rf
        ∧ lastApplied rf' = lastApplied rf
        ∧ currentTerm rf' = currentTerm rf.
Proof.
  intros Hcons He0 Hlast. unfold CreateSnapshot.
  rewrite index_0, He0, Hlast. simpl.
  destruct ((index <=? LogEntry.Index e0) || (index >? lastIndex)) eqn:Hout.
  { eexists. split; reflexivity. }
  apply orb_false_iff in Hout as [Hlo Hhi].
  apply Z.leb_gt in Hlo. assert (Hhi' : index <= lastIndex) by lia. clear Hhi.
  rewrite getLastLogIndex_last in Hlast.
  destruct (last (log rf)) as [el|] eqn:Hel; [|discriminate].
  simpl in Hlast. injection Hlast as Hlast.
  pose proof (consecutive_last _ _ _ Hcons He0 Hel) as Hlen.
  set (k := Z.to_nat (index - LogEntry.Index e0)).
  assert (Hk : (k < length (log rf))%nat) by lia.
  destruct (lookup_lt_is_Some_2 _ _ Hk) as [e He].
  rewrite index_lookup by lia. fold k. rewrite He.
  with_strategy opaque [trimLog] simpl.
  pose proof (Hcons _ _ _ He0 He) as Hidx.
  assert (Hie : LogEntry.Index e = index) by lia.
  pose proof (trimScan_consecutive (log rf) e0 e k (LogEntry.Term e)
                [LogEntry.mk index (LogEntry.Term e) INil] (length (log rf))
                Hcons He0 He eq_refl ltac:(lia)) as Hscan.
  rewrite Hie in Hscan.
  assert (Hlog : log (trimLog index (LogEntry.Term e) rf)
                 = LogEntry.mk index (LogEntry.Term e) INil :: drop (S k) (log rf))
    by exact Hscan.
  rewrite Hscan. simpl.
  eexists. split; [reflexivity|]. exists e. cbn [log set_persister persister].
  rewrite Hlog.
  split; [reflexivity|]. split; [exact Hie|]. split; [reflexivity|].
  split; [|split; [|split; [|split; [reflexivity|auto]]]].
  - intros j a b Ha Hb. injection Ha as <-. destruct j as [|j]; simpl in Hb.
    + injection Hb as <-. simpl. lia.
    + rewrite lookup_drop in Hb. pose proof (Hcons _ _ _ He0 Hb). simpl. lia.
  - rewrite getLastLogIndex_last. cbn [log set_persister].
    rewrite Hlog.
    destruct (decide (S k = length (log rf))) as [Heq|Hne].
    + rewrite drop_ge by lia. simpl. f_equal. lia.
    + assert (Hlast' : last (LogEntry.mk index (LogEntry.Term e) INil :: drop (S k) (log rf))
                       = Some el).
      { rewrite last_lookup. simpl length. rewrite length_drop.
        replace (Nat.pred (S (length (log rf) - S k))) with (S (length (log rf) - S k - 1))
          by lia.
        simpl. rewrite lookup_drop. rewrite last_lookup in Hel. rewrite <- Hel. f_equal. lia. }
      rewrite Hlast'. simpl. f_equal. lia.
  - reflexivity.
Qed.

Lemma CreateSnapshot_spec_witness :
  let rf := followerWith [ent 0 0; ent 1 1; ent 2 1; ent 3 2] 2 3 3 in
  ∃ rf', CreateSnapshot (λ _ _, []) [] 2 rf = Some rf'
         ∧ log rf' = [LogEntry.mk 2 1 INil; ent 3 2].
Proof.
  intros rf.
  destruct (CreateSnapshot_spec (λ _ _, []) [] 2 rf (ent 0 0) 3) as (rf' & Hrun & Hspec).
  - intros k e0 e H0 Hk. injection H0 as <-.
    destruct k as [|[|[|[|k]]]]; simpl in Hk; try discriminate; injection Hk as <-; reflexivity.
  - reflexivity.
  - reflexivity.
  - exists rf'. split; [exact Hrun|].
    simpl in Hspec. destruct Hspec as (e & He & _ & Hlog & _).
    injection He as <-. exact Hlog.
Defined.
(** ** The leader's bookkeeping after a successful reply *)

Lemma countMatch_total rf N ps : ∀ count,
  (∀ i, i ∈ ps → (i < length (matchIndex rf))%nat) →
  is_Some (countMatch rf N ps count).
Proof.
  induction ps as [|i ps IH]; intros count Hin; simpl; [eauto|].
  destruct (negb (Z.of_nat i =? me rf)).
  - rewrite index_lookup by lia. rewrite Nat2Z.id.
    destruct (lookup_lt_is_Some_2 (matchIndex rf) i (Hin i ltac:(left))) as [m ->]. simpl.
    apply IH. intros j Hj. apply Hin. right. exact Hj.
  - apply IH. intros j Hj. apply Hin. right. exact Hj.
Qed.

Lemma commitLoop_total rf baseIndex n : ∀ N,
  (peers rf ≤ length (matchIndex rf))%nat →
  (∀ M, N - Z.of_nat n < M <= N → is_Some (index (log rf) (M - baseIndex))) →
  Z.of_nat n = Z.max 0 (N - commitIndex rf) →
  ∃ rf',
    commitLoop rf baseIndex N n = Some rf'
    ∧ log rf' = log rf ∧ nextIndex rf' = nextIndex rf ∧ matchIndex rf' = matchIndex rf
    ∧ currentTerm rf' = currentTerm rf ∧ state rf' = state rf
    ∧ commitIndex rf <= commitIndex rf'.
Proof.
  induction n as [|n IH]; intros N Hpeers Hlog Hci; simpl.
  - exists rf. split; [reflexivity|]. repeat split; lia.
  - destruct (Hlog N ltac:(lia)) as [e ->]. simpl.
    destruct (LogEntry.Term e =? currentTerm rf); [|exists rf; repeat split; lia].
    destruct (countMatch_total rf N (seq 0 (peers rf)) 1) as [count ->].
    { intros i Hi%elem_of_seq. lia. }
    simpl. destruct (count >? Z.of_nat (peers rf) / 2).
    + eexists. split; [reflexivity|]. simpl. repeat split; lia.
    + apply IH; [exact Hpeers| |lia]. intros M HM. apply Hlog. lia.
Qed.

(** X9. The leader receives a successful reply, of a term not above its own, to
    a request of its current term that carried entries: it sets the peer's
    [nextIndex] to one past the last entry sent and its [matchIndex] to that
    entry's index, keeps its log, and then looks for a new commit index,
    which is never below the old one. The call returns -- no index is out of
    range -- when the log is numbered one after the other from an index not
    above [commitIndex] and the two index arrays cover the peers. *)
Theorem leader_records_match (leader : Raft) (server : nat) (args : AppendEntriesArgs.t)
    (reply : AppendEntriesReply.t) (e0 el : LogEntry.t) :
  state leader = STATE_LEADER →
  AppendEntriesArgs.Term args = currentTerm leader →
  AppendEntriesReply.Term reply <= currentTerm leader →
  AppendEntriesReply.Success reply = true →
  last (AppendEntriesArgs.Entries args) = Some el →
  (server < length (nextIndex leader))%nat →
  (server < length (matchIndex leader))%nat →
  (peers leader ≤ length (matchIndex leader))%nat →
  consecutive (log leader) →
  log leader !! 0%nat = Some e0 →
  LogEntry.Index e0 <= commitIndex leader →
  ∃ leader',
    sendAppendEntries (Z.of_nat server) args reply true leader = Some (leader', true)
    ∧ nextIndex leader' = <[server := LogEntry.Index el + 1]> (nextIndex leader)
    ∧ matchIndex leader' = <[server := LogEntry.Index el]> (matchIndex leader)
    ∧ log leader' = log leader
    ∧ currentTerm leader' = currentTerm leader
    ∧ state leader' = STATE_LEADER
    ∧ commitIndex leader <= commitIndex leader'.
Proof.
  intros Hstate Hterm Hrterm Hsucc Hlast Hni Hmi Hpeers Hcons He0 Hbase.
  unfold sendAppendEntries. rewrite Hstate, Hterm, Z.eqb_refl, Hsucc. simpl.
  destruct (Z.gtb_spec (AppendEntriesReply.Term reply) (currentTerm leader)); [lia|].
  assert (Hlen : (0 < length (AppendEntriesArgs.Entries args))%nat).
  { destruct (AppendEntriesArgs.Entries args); [discriminate Hlast|simpl; lia]. }
  destruct (Z.gtb_spec (Z.of_nat (length (AppendEntriesArgs.Entries args))) 0); [|lia].
  rewrite index_lookup by lia.
  replace (Z.to_nat (Z.of_nat (length (AppendEntriesArgs.Entries args)) - 1))
    with (Nat.pred (length (AppendEntriesArgs.Entries args))) by lia.
  rewrite <- last_lookup, Hlast. simpl.
  unfold assign.
  destruct (Z.ltb_spec (Z.of_nat server) 0); [lia|].
  destruct (Z.leb_spec (Z.of_nat (length (nextIndex leader))) (Z.of_nat server)); [lia|].
  simpl. rewrite index_lookup by lia. rewrite !Nat2Z.id.
  rewrite list_lookup_insert_eq by lia. simpl.
  destruct (Z.leb_spec (Z.of_nat (length (matchIndex leader))) (Z.of_nat server)); [lia|].
  simpl.
  replace (LogEntry.Index el + 1 - 1) with (LogEntry.Index el) by lia.
  set (rf1 := set_matchIndex _ _).
  unfold commitPhase.
  assert (Hlog1 : log rf1 = log leader) by reflexivity.
  rewrite index_0, Hlog1, He0. simpl.
  destruct (last_is_Some (log leader)) as [ell Hell].
  { intros Hnil. rewrite Hnil in He0. discriminate. }
  assert (Hlast1 : getLastLogIndex rf1 = Some (LogEntry.Index ell)).
  { rewrite getLastLogIndex_last, Hlog1, Hell. reflexivity. }
  rewrite Hlast1. simpl.
  pose proof (consecutive_last _ _ _ Hcons He0 Hell) as Hidx.
  destruct (commitLoop_total rf1 (LogEntry.Index e0)
              (Z.to_nat (LogEntry.Index ell - commitIndex leader)) (LogEntry.Index ell))
    as (rf2 & Hrun & Hlog2 & Hni2 & Hmi2 & Hct2 & Hst2 & Hci2).
  - subst rf1. simpl. rewrite length_insert. exact Hpeers.
  - intros M HM. rewrite Hlog1. rewrite index_lookup.
    + apply lookup_lt_is_Some_2. lia.
    + lia.
  - change (commitIndex rf1) with (commitIndex leader). lia.
  - rewrite Hrun. simpl. exists rf2. split; [reflexivity|].
    rewrite Hni2, Hmi2, Hlog2, Hct2, Hst2. subst rf1. simpl. auto 10.
Qed.

Lemma leader_records_match_witness :
  let leader := set_nextIndex [3; 2; 3] (leaderWith [ent 0 0; ent 1 1; ent 2 1] 1 0 [0; 0; 0]) in
  let args := AppendEntriesArgs.mk 1 0 1 1 [ent 2 1] 0 in
  ∃ leader',
    sendAppendEntries 1 args (AppendEntriesReply.mk 1 true 2) true leader = Some (leader', true)
    ∧ matchIndex leader' = [0; 2; 0].
Proof.
  intros leader args.
  destruct (leader_records_match leader 1 args (AppendEntriesReply.mk 1 true 2)
              (ent 0 0) (ent 2 1))
    as (leader' & Hrun & _ & Hmatch & _); try reflexivity; try (simpl; lia).
  - intros k e0 e H0 Hk. injection H0 as <-.
    destruct k as [|[|[|k]]]; simpl in Hk; try discriminate; injection Hk as <-; reflexivity.
  - exists leader'. split; [exact Hrun|exact Hmatch].
Defined.
End RaftFacts.

(** * Properties of the key-value layer *)
Module KVFacts.
Import Go Raft KV.

Local Open Scope string_scope.

(** ** The apply dispatcher *)

(** Every result the dispatcher builds is marked [OK]. *)
Lemma applyOp_OK (op : Op.t) (kv : KVServer) : Result.OK (applyOp op kv).2 = true.
Proof.
  unfold applyOp.
  repeat match goal with
         | |- context [if ?c then _ else _] => destruct c
         | |- context [match ?c with Some _ => _ | None => _ end] => destruct c
         end; reflexivity.
Qed.

(** The result carries the identity of the operation applied. *)
Lemma applyOp_identity (op : Op.t) (kv : KVServer) :
  Result.ClientId (applyOp op kv).2 = Op.ClientId op
  ∧ Result.RequestId (applyOp op kv).2 = Op.RequestId op.
Proof.
  unfold applyOp.
  repeat match goal with
         | |- context [if ?c then _ else _] => destruct c
         | |- context [match ?c with Some _ => _ | None => _ end] => destruct c
         end; split; reflexivity.
Qed.

(** What [applyOp] leaves in [ack]: the request id of the operation, whatever
    was recorded for the client before. *)
Lemma applyOp_ack (op : Op.t) (kv : KVServer) :
  ack (applyOp op kv).1 = <[Op.ClientId op := Op.RequestId op]> (ack kv).
Proof.
  unfold applyOp.
  repeat match goal with
         | |- context [if ?c then _ else _] => destruct c
         | |- context [match ?c with Some _ => _ | None => _ end] => destruct c
         end; reflexivity.
Qed.

(** One step keeps every recorded id from decreasing when the operation's id
    is not below the one recorded for its client. *)
Lemma applyOp_frame_ack (op : Op.t) (kv : KVServer) :
  (∀ last, ack kv !! Op.ClientId op = Some last → (last <= Op.RequestId op)%Z) →
  ∀ c old, ack kv !! c = Some old →
           ∃ new, ack (applyOp op kv).1 !! c = Some new ∧ (old <= new)%Z.
Proof.
  intros Hnew c old Hold. rewrite applyOp_ack.
  destruct (decide (c = Op.ClientId op)) as [->|Hc].
  - exists (Op.RequestId op). rewrite lookup_insert_eq. split; [reflexivity|].
    apply Hnew, Hold.
  - exists old. rewrite lookup_insert_ne by congruence. split; [exact Hold|lia].
Qed.

(** C9. The result's [Err] is [ErrNoKey] exactly when the operation is a get
    of a key that [data] does not hold, and then the value is empty; every
    put and every append answers [OK]; a get of a key that [data] holds
    answers [OK] with the stored value. *)
Theorem applyOp_Err (op : Op.t) (kv : KVServer) :
  let result := (applyOp op kv).2 in
  (Result.Err result = ErrNoKey ↔ Op.Command op = "get" ∧ data kv !! Op.Key op = None)
  ∧ (Result.Err result = ErrNoKey → Result.Value result = "")
  ∧ (Op.Command op = "put" ∨ Op.Command op = "append" → Result.Err result = OK)
  ∧ (∀ value, Op.Command op = "get" → data kv !! Op.Key op = Some value →
       Result.Err result = OK ∧ Result.Value result = value).
Proof.
  unfold applyOp.
  destruct (String.eqb_spec (Op.Command op) "put") as [Hput|Hput].
  { rewrite Hput. simpl. repeat split; try (intros; discriminate); try (intros [? _]; discriminate). }
  destruct (String.eqb_spec (Op.Command op) "append") as [Happ|Happ].
  { rewrite Happ. simpl. repeat split; try (intros; discriminate); try (intros [? _]; discriminate). }
  destruct (String.eqb_spec (Op.Command op) "get") as [Hget|Hget].
  - destruct (data kv !! Op.Key op) as [value|] eqn:Hkey; simpl.
    + repeat split; try (intros; discriminate); try (intros [_ ?]; discriminate);
        try (intros [?|?]; congruence); intros; congruence.
    + repeat split; try (intros; discriminate); try (intros [?|?]; congruence);
        intros; congruence.
  - simpl. repeat split; try (intros; discriminate); try (intros [? _]; congruence);
      try (intros [?|?]; congruence); intros; congruence.
Qed.

(** When the operation's id is not below the one already recorded for its
    client -- the order in which one client's requests are applied when it
    issues them one at a time with growing ids -- the id [applyOp] records is
    the larger of the two, and no client's recorded id decreases. *)
Lemma applyOp_ack_max (op : Op.t) (kv : KVServer) :
  (∀ last, ack kv !! Op.ClientId op = Some last → (last <= Op.RequestId op)%Z) →
  let kv' := (applyOp op kv).1 in
  ack kv' !! Op.ClientId op
  = Some (match ack kv !! Op.ClientId op with
          | Some last => Z.max last (Op.RequestId op)
          | None => Op.RequestId op
          end)
  ∧ ∀ c old, ack kv !! c = Some old →
             ∃ new, ack kv' !! c = Some new ∧ (old <= new)%Z.
Proof.
  intros Hnew kv'. subst kv'. split.
  - rewrite applyOp_ack, lookup_insert_eq.
    destruct (ack kv !! Op.ClientId op) as [last|]; [|reflexivity].
    specialize (Hnew last eq_refl). f_equal. lia.
  - exact (applyOp_frame_ack op kv Hnew).
Qed.

Lemma applyOp_ack_max_witness :
  let kv1 := (applyOp (Op.mk "put" 1 7 "k" "v") (StartKVServer 3 0 (-1))).1 in
  let kv2 := (applyOp (Op.mk "get" 1 8 "k" "") kv1).1 in
  ack kv2 !! 1%Z = Some 8%Z.
Proof.
  intros kv1 kv2.
  destruct (applyOp_ack_max (Op.mk "get" 1 8 "k" "") kv1) as [Hmax _].
  - intros last Hlast. vm_compute in Hlast. injection Hlast as <-. simpl. lia.
  - exact Hmax.
Defined.

(** C1. [applyOp] does not keep the larger of the two ids: it ends with the
    plain assignment of the operation's id. A client's append with request
    id 7 is applied, then a late copy of its earlier get with request id 5:
    the id recorded for the client goes from 7 down to 5. [isDuplicated],
    which compares a request with the recorded id, recognised a second
    delivery of the append before the get was applied and no longer does
    after it, and the append is applied a second time. *)
Theorem applyOp_ack_lowered :
  let kv0 := StartKVServer 3 0 (-1) in
  let append7 := Op.mk "append" 1 7 "k" "x" in
  let get5 := Op.mk "get" 1 5 "k" "" in
  let kv1 := (applyOp append7 kv0).1 in
  let kv2 := (applyOp get5 kv1).1 in
  ack kv1 !! 1%Z = Some 7%Z
  ∧ ack kv2 !! 1%Z = Some 5%Z
  ∧ ack kv2 !! 1%Z ≠ Some (Z.max 7 5)
  ∧ isDuplicated append7 kv1 = true
  ∧ isDuplicated append7 kv2 = false
  ∧ data kv1 !! "k" = Some "x"
  ∧ data (applyOp append7 kv1).1 !! "k" = Some "x"
  ∧ data (applyOp append7 kv2).1 !! "k" = Some "xx".
Proof.
  intros kv0 append7 get5 kv1 kv2.
  split; [reflexivity|]. split; [reflexivity|].
  split; [intros Hmax; vm_compute in Hmax; discriminate Hmax|].
  repeat split; vm_compute; reflexivity.
Qed.

(** Over a run of operations in which every request id is at least the one
    recorded for its client, no client's recorded id ever decreases. *)
Lemma applyOps_ack_monotone (ops : list Op.t) : ∀ kv,
  Forall (λ '(op, kv), ∀ last, ack kv !! Op.ClientId op = Some last
                               → (last <= Op.RequestId op)%Z)
         (zip ops (scanl_states ops kv)) →
  ∀ c old, ack kv !! c = Some old →
           ∃ new, ack (applyOps ops kv) !! c = Some new ∧ (old <= new)%Z.
Proof.
  induction ops as [|op ops IH]; intros kv Hall c old Hold; simpl in *.
  - exists old. split; [exact Hold|lia].
  - apply Forall_cons in Hall as [Hop Hall].
    destruct (applyOp_frame_ack op kv Hop c old Hold) as (mid & Hmid & Hle).
    destruct (IH _ Hall c mid Hmid) as (new & Hnew & Hle').
    exists new. split; [exact Hnew|lia].
Qed.

(** The same over a run of operations: delivered twice in a row the append
    is applied once; with the stale get between the two deliveries it is
    applied twice. *)
Lemma applyOps_append_twice :
  let append7 := Op.mk "append" 1 7 "k" "x" in
  let get5 := Op.mk "get" 1 5 "k" "" in
  data (applyOps [append7; append7] (StartKVServer 3 0 (-1))) !! "k" = Some "x"
  ∧ data (applyOps [append7; get5; append7] (StartKVServer 3 0 (-1))) !! "k" = Some "xx".
Proof. split; vm_compute; reflexivity. Qed.

(** What [Run] leaves on the channel of the index is the result [applyOp]
    built, when the channel held at most the one value its capacity allows. *)
Lemma RunCommand_sends (msg : ApplyMsg.t) (kv kv' : KVServer) :
  (∀ ch, resultCh kv !! ApplyMsg.CommandIndex msg = Some ch → (length ch ≤ 1)%nat) →
  RunCommand msg kv = Some kv' →
  ∃ op, ApplyMsg.Command msg = IOp op
        ∧ resultCh kv' !! ApplyMsg.CommandIndex msg = Some [(applyOp op kv).2].
Proof.
  unfold RunCommand. intros Hcap Hrun.
  destruct (ApplyMsg.Command msg) as [|op]; [discriminate|].
  exists op. split; [reflexivity|].
  assert (Hch : resultCh (applyOp op kv).1 = resultCh kv).
  { unfold applyOp.
    repeat match goal with
           | |- context [if ?c then _ else _] => destruct c
           | |- context [match ?c with Some _ => _ | None => _ end] => destruct c
           end; reflexivity. }
  destruct (applyOp op kv) as [kv1 result]. simpl in Hch.
  destruct (resultCh kv1 !! ApplyMsg.CommandIndex msg) as [ch|] eqn:Hlook; simpl in Hrun.
  - rewrite lookup_insert_eq in Hrun. simpl in Hrun. injection Hrun as <-. simpl.
    rewrite lookup_insert_eq. rewrite Hch in Hlook. apply Hcap in Hlook.
    destruct ch as [|r [|r' ch]]; simpl in *; (reflexivity || lia).
  - rewrite lookup_insert_eq in Hrun. simpl in Hrun. injection Hrun as <-. simpl.
    rewrite lookup_insert_eq. reflexivity.
Qed.

(** ** The request handlers *)

Lemma isMatch_eq (entry : Op.t) (result : Result.t) :
  isMatch entry result = true ↔
  Result.ClientId result = Op.ClientId entry ∧ Result.RequestId result = Op.RequestId entry.
Proof. unfold isMatch. lia. Qed.

(** The common part of both handlers: the entry is proposed and the result is
    marked [OK] exactly when the replica is the leader and a result with the
    entry's identity arrived in time. *)
Lemma appendEntryToLog_OK (entry : Op.t) (sel : Select) (kv : KVServer) :
  sentByRun sel →
  (state (rf kv) = STATE_LEADER → log (rf kv) ≠ []) →
  ∃ kv' result,
    appendEntryToLog entry sel kv = Some (kv', result)
    ∧ (Result.OK result = true ↔
       state (rf kv) = STATE_LEADER ∧ delivered sel (Op.ClientId entry) (Op.RequestId entry)).
Proof.
  intros Hsent Hlog. unfold appendEntryToLog, Start.
  destruct (State_eqb (state (rf kv)) STATE_LEADER) eqn:Hst.
  - apply RaftFacts.State_eqb_eq in Hst.
    destruct (RaftFacts.last_is_Some _ (Hlog Hst)) as [e He].
    rewrite RaftFacts.getLastLogIndex_last, He. simpl.
    destruct sel as [result|].
    + destruct (isMatch entry result) eqn:Hm.
      * eexists _, _. split; [reflexivity|]. split.
        -- intros _. split; [exact Hst|]. exists result.
           apply isMatch_eq in Hm. tauto.
        -- intros _. destruct (Hsent result eq_refl) as (op & kv0 & ->).
           apply applyOp_OK.
      * eexists _, _. split; [reflexivity|]. simpl. split; [discriminate|].
        intros [_ (result' & Hsel & Hids)]. injection Hsel as <-.
        apply isMatch_eq in Hids. congruence.
    + eexists _, _. split; [reflexivity|]. simpl. split; [discriminate|].
      intros [_ (result' & Hsel & _)]. discriminate Hsel.
  - apply RaftFacts.State_eqb_neq in Hst. simpl.
    eexists _, _. split; [reflexivity|]. simpl. split; [discriminate|].
    intros [Hleader _]. contradiction.
Qed.

(** C7. A [Get] or [PutAppend] handler, on any replica whose results come
    from the dispatcher, answers; it answers success ([WrongLeader = false])
    exactly when the replica is the leader and a result arrived on the
    channel before the 240 ms timer fired whose client id and request id are
    those of the request; in every other case -- not the leader, a result of
    another request, the timer -- it answers [WrongLeader = true]. *)
Theorem handlers_success_iff (sel : Select) (kv : KVServer) :
  sentByRun sel →
  (state (rf kv) = STATE_LEADER → log (rf kv) ≠ []) →
  (∀ args reply0, ∃ kv' reply,
      Get args reply0 sel kv = Some (kv', reply)
      ∧ let success := state (rf kv) = STATE_LEADER
                       ∧ delivered sel (GetArgs.ClientId args) (GetArgs.RequestId args) in
        (GetReply.WrongLeader reply = false ↔ success)
        ∧ (¬ success → GetReply.WrongLeader reply = true))
  ∧ (∀ args reply0, ∃ kv' reply,
      PutAppend args reply0 sel kv = Some (kv', reply)
      ∧ let success := state (rf kv) = STATE_LEADER
                       ∧ delivered sel (PutAppendArgs.ClientId args)
                                   (PutAppendArgs.RequestId args) in
        (PutAppendReply.WrongLeader reply = false ↔ success)
        ∧ (¬ success → PutAppendReply.WrongLeader reply = true)).
Proof.
  intros Hsent Hlog. split; intros args reply0.
  - unfold Get.
    destruct (appendEntryToLog_OK
                (Op.mk "get" (GetArgs.ClientId args) (GetArgs.RequestId args)
                       (GetArgs.Key args) "") sel kv Hsent Hlog)
      as (kv' & result & -> & Hok). simpl in Hok. simpl.
    destruct (Result.OK result); simpl; eexists _, _; (split; [reflexivity|]); simpl.
    + split; [tauto|]. intros Hn. exfalso. apply Hn, Hok. reflexivity.
    + split; [|reflexivity]. split; [discriminate|].
      intros H. apply Hok in H. discriminate H.
  - unfold PutAppend.
    destruct (appendEntryToLog_OK
                (Op.mk (PutAppendArgs.Command args) (PutAppendArgs.ClientId args)
                       (PutAppendArgs.RequestId args) (PutAppendArgs.Key args)
                       (PutAppendArgs.Value args)) sel kv Hsent Hlog)
      as (kv' & result & -> & Hok). simpl in Hok. simpl.
    destruct (Result.OK result); simpl; eexists _, _; (split; [reflexivity|]); simpl.
    + split; [tauto|]. intros Hn. exfalso. apply Hn, Hok. reflexivity.
    + split; [|reflexivity]. split; [discriminate|].
      intros H. apply Hok in H. discriminate H.
Qed.

Lemma handlers_success_iff_witness :
  let get := Op.mk "get" 9 0 "k" "" in
  let sel := RecvResult (applyOp get Examples.leaderKV).2 in
  ∃ kv' reply,
    Get (GetArgs.mk "k" 9 0) GetReply.zero sel Examples.leaderKV = Some (kv', reply)
    ∧ GetReply.WrongLeader reply = false.
Proof.
  intros get sel.
  destruct (handlers_success_iff sel Examples.leaderKV) as [Hget _].
  - intros result Hsel. injection Hsel as <-. eexists _, _. reflexivity.
  - intros _. discriminate.
  - destruct (Hget (GetArgs.mk "k" 9 0) GetReply.zero) as (kv' & reply & Hrun & Hiff & _).
    exists kv', reply. split; [exact Hrun|].
    apply Hiff. split; [reflexivity|].
    eexists. split; [reflexivity|]. split; reflexivity.
Defined.

(** ** What the dispatcher does to the store *)

Lemma applyOp_rest (op : Op.t) (kv : KVServer) :
  me (applyOp op kv).1 = me kv ∧ rf (applyOp op kv).1 = rf kv
  ∧ maxraftstate (applyOp op kv).1 = maxraftstate kv
  ∧ resultCh (applyOp op kv).1 = resultCh kv.
Proof.
  unfold applyOp.
  repeat match goal with
         | |- context [if ?c then _ else _] => destruct c
         | |- context [match ?c with Some _ => _ | None => _ end] => destruct c
         end; auto.
Qed.

Lemma applyOp_data_cases (op : Op.t) (kv : KVServer) :
  data (applyOp op kv).1
  = if isDuplicated op kv then data kv
    else if String.eqb (Op.Command op) "put" then <[Op.Key op := Op.Value op]> (data kv)
    else if String.eqb (Op.Command op) "append"
         then <[Op.Key op := default "" (data kv !! Op.Key op) +:+ Op.Value op]> (data kv)
    else data kv.
Proof.
  unfold applyOp. destruct (isDuplicated op kv); simpl.
  all: repeat match goal with
         | |- context [if ?c then _ else _] => destruct c
         | |- context [match ?c with Some _ => _ | None => _ end] => destruct c
         end; reflexivity.
Qed.

(** X10. What [applyOp] does to [data]. It touches no key but the operation's; a
    get, an operation with any other command word, and every operation whose
    request id is not above the one recorded for its client leave [data] as
    it is; a put that is not such a duplicate stores its value, an append
    that is not such a duplicate stores the old value (empty when the key is
    missing) followed by its value. *)
Theorem applyOp_data (op : Op.t) (kv : KVServer) :
  let kv' := (applyOp op kv).1 in
  (∀ k, k ≠ Op.Key op → data kv' !! k = data kv !! k)
  ∧ (isDuplicated op kv = true ∨ (Op.Command op ≠ "put" ∧ Op.Command op ≠ "append") →
     data kv' = data kv)
  ∧ (isDuplicated op kv = false → Op.Command op = "put" →
     data kv' !! Op.Key op = Some (Op.Value op))
  ∧ (isDuplicated op kv = false → Op.Command op = "append" →
     data kv' !! Op.Key op = Some (default "" (data kv !! Op.Key op) +:+ Op.Value op)).
Proof.
  intros kv'. subst kv'. rewrite applyOp_data_cases.
  split; [|split; [|split]].
  - intros k Hk.
    destruct (isDuplicated op kv); [reflexivity|].
    destruct (String.eqb (Op.Command op) "put"); [apply lookup_insert_ne; congruence|].
    destruct (String.eqb (Op.Command op) "append"); [apply lookup_insert_ne; congruence|].
    reflexivity.
  - intros [->|[Hput Happ]]; [reflexivity|].
    apply String.eqb_neq in Hput, Happ. rewrite Hput, Happ.
    destruct (isDuplicated op kv); reflexivity.
  - intros -> ->. simpl. apply lookup_insert_eq.
  - intros -> ->. simpl. apply lookup_insert_eq.
Qed.

(** ** A request delivered twice *)

Lemma applyOp_ack_other (op : Op.t) (kv : KVServer) (c : Z) :
  c ≠ Op.ClientId op → ack (applyOp op kv).1 !! c = ack kv !! c.
Proof. intros Hc. rewrite applyOp_ack. apply lookup_insert_ne. congruence. Qed.

Lemma applyOps_ack_other (ops : list Op.t) (c : Z) : ∀ kv,
  Forall (λ o, Op.ClientId o ≠ c) ops →
  ack (applyOps ops kv) !! c = ack kv !! c.
Proof.
  induction ops as [|o ops IH]; intros kv Hall; [reflexivity|].
  inversion Hall as [|? ? Ho Hrest]; subst. unfold applyOps. simpl.
  fold (applyOps ops (applyOp o kv).1). rewrite IH by assumption.
  apply applyOp_ack_other. congruence.
Qed.

Lemma applyOps_app (ops1 ops2 : list Op.t) (kv : KVServer) :
  applyOps (ops1 ++ ops2) kv = applyOps ops2 (applyOps ops1 kv).
Proof. unfold applyOps. apply fold_left_app. Qed.

(** X11. A request that reaches the log twice -- the clerk's retry after a lost
    reply -- with only other clients' operations between the two copies: the
    second copy changes neither [data] nor [ack], whatever the command. *)
Theorem retry_is_invisible (op : Op.t) (ops : list Op.t) (kv : KVServer) :
  Forall (λ o, Op.ClientId o ≠ Op.ClientId op) ops →
  applyOps (op :: ops ++ [op]) kv = applyOps (op :: ops) kv.
Proof.
  intros Hothers. rewrite app_comm_cons, applyOps_app.
  set (kv1 := applyOps (op :: ops) kv).
  assert (Hack : ack kv1 !! Op.ClientId op = Some (Op.RequestId op)).
  { unfold kv1, applyOps. simpl. fold (applyOps ops (applyOp op kv).1).
    rewrite applyOps_ack_other by assumption.
    rewrite applyOp_ack. apply lookup_insert_eq. }
  clearbody kv1. unfold applyOps. simpl.
  pose proof (applyOp_rest op kv1) as (Hme & Hrf & Hmax & Hch).
  pose proof (applyOp_data_cases op kv1) as Hdata.
  pose proof (applyOp_ack op kv1) as Hack'.
  assert (Hdup : isDuplicated op kv1 = true).
  { unfold isDuplicated. rewrite Hack. lia. }
  rewrite Hdup in Hdata.
  rewrite insert_id in Hack' by exact Hack.
  destruct (applyOp op kv1).1 as [m r x d a c], kv1 as [m1 r1 x1 d1 a1 c1].
  simpl in *. congruence.
Qed.

Lemma retry_is_invisible_witness :
  let append7 := Op.mk "append" 1 7 "k" "x" in
  let put3 := Op.mk "put" 2 3 "k" "y" in
  data (applyOps [append7; put3; append7] (StartKVServer 3 0 (-1))) !! "k" = Some "y".
Proof.
  intros append7 put3.
  assert (Hothers : Forall (λ o, Op.ClientId o ≠ Op.ClientId append7) [put3]).
  { repeat constructor. simpl. lia. }
  pose proof (retry_is_invisible append7 [put3] (StartKVServer 3 0 (-1)) Hothers) as Hsame.
  change (append7 :: [put3] ++ [append7]) with [append7; put3; append7] in Hsame.
  rewrite Hsame. reflexivity.
Defined.

(** ** Reading what was written *)

Lemma applyOps_data_frame (k : string) (ops : list Op.t) : ∀ kv,
  Forall (λ o, Op.Key o ≠ k ∨ Op.Command o = "get") ops →
  data (applyOps ops kv) !! k = data kv !! k.
Proof.
  induction ops as [|o ops IH]; intros kv Hall; [reflexivity|].
  inversion Hall as [|? ? Ho Hrest]; subst. unfold applyOps. simpl.
  fold (applyOps ops (applyOp o kv).1). rewrite IH by assumption.
  rewrite applyOp_data_cases.
  destruct (isDuplicated o kv); [reflexivity|].
  destruct Ho as [Hk|Hget].
  - destruct (String.eqb (Op.Command o) "put"); [apply lookup_insert_ne; congruence|].
    destruct (String.eqb (Op.Command o) "append"); [apply lookup_insert_ne; congruence|].
    reflexivity.
  - rewrite Hget. reflexivity.
Qed.

(** X12. A put that is not a duplicate, then any operations that are gets or
    concern other keys, then a get of the key by any client: the get answers
    [OK] with the value put. *)
Theorem get_after_put (put get : Op.t) (ops : list Op.t) (kv : KVServer) :
  Op.Command put = "put" →
  isDuplicated put kv = false →
  Forall (λ o, Op.Key o ≠ Op.Key put ∨ Op.Command o = "get") ops →
  Op.Command get = "get" →
  Op.Key get = Op.Key put →
  let result := (applyOp get (applyOps (put :: ops) kv)).2 in
  Result.Err result = OK ∧ Result.Value result = Op.Value put.
Proof.
  intros Hput Hfresh Hops Hget Hkey result.
  assert (Hdata : data (applyOps (put :: ops) kv) !! Op.Key get = Some (Op.Value put)).
  { unfold applyOps. simpl. fold (applyOps ops (applyOp put kv).1).
    rewrite Hkey, applyOps_data_frame by assumption.
    rewrite applyOp_data_cases, Hfresh, Hput. apply lookup_insert_eq. }
  subst result. unfold applyOp. rewrite Hget, Hdata. simpl. split; reflexivity.
Qed.

Lemma get_after_put_witness :
  let put := Op.mk "put" 1 0 "k" "v" in
  let other := Op.mk "append" 2 0 "j" "w" in
  let get := Op.mk "get" 3 0 "k" "" in
  Result.Value (applyOp get (applyOps [put; other] (StartKVServer 3 0 (-1)))).2 = "v".
Proof.
  intros put other get.
  apply (get_after_put put get [other] (StartKVServer 3 0 (-1))); try reflexivity.
  constructor; [left; discriminate|constructor].
Defined.

(** ** The result channels *)

(** X13. [Run] on a normal message leaves at most one value on every result
    channel when it found at most one on each: the send on the channel of
    capacity one, after the drain, has room. The service's [data] and [ack]
    are those [applyOp] built, exactly the result is left on the message's
    channel, and the channels of other indices are untouched. *)
Theorem RunCommand_capacity (msg : ApplyMsg.t) (op : Op.t) (kv : KVServer) :
  ApplyMsg.Command msg = IOp op →
  (∀ i ch, resultCh kv !! i = Some ch → (length ch ≤ 1)%nat) →
  ∃ kv',
    RunCommand msg kv = Some kv'
    ∧ (∀ i ch, resultCh kv' !! i = Some ch → (length ch ≤ 1)%nat)
    ∧ resultCh kv' !! ApplyMsg.CommandIndex msg = Some [(applyOp op kv).2]
    ∧ (∀ i, i ≠ ApplyMsg.CommandIndex msg → resultCh kv' !! i = resultCh kv !! i)
    ∧ data kv' = data (applyOp op kv).1
    ∧ ack kv' = ack (applyOp op kv).1.
Proof.
  intros Hcmd Hcap. unfold RunCommand. rewrite Hcmd.
  pose proof (applyOp_rest op kv) as (_ & _ & _ & Hch).
  destruct (applyOp op kv) as [kv1 result]. simpl in Hch. simpl.
  assert (Hsent : ∀ ch0 : list Result.t, (length ch0 ≤ 1)%nat → (tail ch0 ++ [result])%list = [result]).
  { intros [|r [|r' ch0]] Hlen; simpl in *; (reflexivity || lia). }
  destruct (resultCh kv1 !! ApplyMsg.CommandIndex msg) as [ch|] eqn:Hlook; simpl;
    rewrite lookup_insert_eq; simpl; eexists; (split; [reflexivity|]); simpl;
    rewrite insert_insert_eq.
  - rewrite Hch in Hlook. rewrite (Hsent ch (Hcap _ _ Hlook)).
    split; [|split; [apply lookup_insert_eq|split; [|auto]]].
    + intros i ch' Hi. destruct (decide (i = ApplyMsg.CommandIndex msg)) as [->|Hne].
      * rewrite lookup_insert_eq in Hi. injection Hi as <-. simpl. lia.
      * rewrite lookup_insert_ne in Hi by congruence. rewrite Hch in Hi. eauto.
    + intros i Hne. rewrite lookup_insert_ne by congruence. rewrite Hch. reflexivity.
  - split; [|split; [apply lookup_insert_eq|split; [|auto]]].
    + intros i ch' Hi. destruct (decide (i = ApplyMsg.CommandIndex msg)) as [->|Hne].
      * rewrite lookup_insert_eq in Hi. injection Hi as <-. simpl. lia.
      * rewrite lookup_insert_ne in Hi by congruence. rewrite Hch in Hi. eauto.
    + intros i Hne. rewrite lookup_insert_ne by congruence. rewrite Hch. reflexivity.
Qed.

Lemma RunCommand_capacity_witness :
  let get := Op.mk "get" 9 0 "k" "" in
  ∃ kv', RunCommand (ApplyMsg.mk true 1 (IOp get) false []) Examples.leaderKV = Some kv'
         ∧ resultCh kv' !! 1%Z = Some [(applyOp get Examples.leaderKV).2].
Proof.
  intros get.
  destruct (RunCommand_capacity (ApplyMsg.mk true 1 (IOp get) false []) get Examples.leaderKV)
    as (kv' & Hrun & _ & Hsent & _).
  - reflexivity.
  - intros i ch Hi. discriminate Hi.
  - exists kv'. split; [exact Hrun|exact Hsent].
Defined.

(** ** A handler and the dispatcher together *)

(** X14. The leader's [Get] handler, when the result [Run] built for its own
    entry from the store [kv0] arrives in time: the entry is appended to the
    replica's log under the next index and the current term, the reply is a
    success carrying the value [kv0] held for the key with [OK], or the
    empty string with [ErrNoKey] when [kv0] held none; the handler itself
    changes neither [data] nor [ack]. *)
Theorem Get_answers_applied (args : GetArgs.t) (reply0 : GetReply.t) (kv kv0 : KVServer)
    (last : Z) :
  state (rf kv) = STATE_LEADER →
  getLastLogIndex (rf kv) = Some last →
  let entry := Op.mk "get" (GetArgs.ClientId args) (GetArgs.RequestId args)
                     (GetArgs.Key args) "" in
  ∃ kv',
    Get args reply0 (RecvResult (applyOp entry kv0).2) kv
    = Some (kv', GetReply.mk false
                   (match data kv0 !! GetArgs.Key args with Some _ => OK | None => ErrNoKey end)
                   (default "" (data kv0 !! GetArgs.Key args)))
    ∧ log (rf kv')
      = (log (rf kv) ++ [LogEntry.mk (last + 1) (currentTerm (rf kv)) (IOp entry)])%list
    ∧ data kv' = data kv
    ∧ ack kv' = ack kv.
Proof.
  intros Hleader Hlast entry.
  unfold Get, appendEntryToLog, Start. fold entry.
  rewrite Hleader, Hlast. simpl.
  assert (Hm : isMatch entry (applyOp entry kv0).2 = true).
  { apply isMatch_eq. apply applyOp_identity. }
  rewrite Hm. simpl.
  assert (Hres : (applyOp entry kv0).2
                 = Result.mk "get" true (GetArgs.ClientId args) (GetArgs.RequestId args) false
                     (match data kv0 !! GetArgs.Key args with Some _ => OK | None => ErrNoKey end)
                     (default "" (data kv0 !! GetArgs.Key args))).
  { unfold applyOp, entry. simpl. destruct (data kv0 !! GetArgs.Key args); reflexivity. }
  rewrite Hres. simpl.
  destruct (resultCh kv !! (last + 1)%Z); eexists; (split; [reflexivity|]); simpl; auto.
Qed.

Lemma Get_answers_applied_witness :
  ∃ kv', Get (GetArgs.mk "k" 9 0) GetReply.zero
             (RecvResult (applyOp (Op.mk "get" 9 0 "k" "") Examples.leaderKV).2)
             Examples.leaderKV
         = Some (kv', GetReply.mk false ErrNoKey "").
Proof.
  destruct (Get_answers_applied (GetArgs.mk "k" 9 0) GetReply.zero Examples.leaderKV
              Examples.leaderKV 1) as (kv' & Hrun & _); try reflexivity.
  exists kv'. exact Hrun.
Defined.

(** ** The clerk *)

Section Retry.
Context {Args Reply : Type}.
Variable wrongLeader : Reply → bool.
Variable call : Clerk.network Args Reply.
Variable args : Args.

Lemma retry_finds (n : nat) : ∀ (attempt calls : nat) (ck : Clerk.t),
  (0 <= Clerk.leader ck < Z.of_nat (Clerk.servers ck))%Z →
  (∀ j, (j < n)%nat →
        Clerk.answered wrongLeader call args (attempt + j)
                 ((Clerk.leader ck + Z.of_nat j) mod Z.of_nat (Clerk.servers ck)) = false) →
  Clerk.answered wrongLeader call args (attempt + n)
           ((Clerk.leader ck + Z.of_nat n) mod Z.of_nat (Clerk.servers ck)) = true →
  (n < calls)%nat →
  Clerk.retry wrongLeader call args attempt calls ck
  = Clerk.Returned
      (Clerk.set_leader ((Clerk.leader ck + Z.of_nat n) mod Z.of_nat (Clerk.servers ck)) ck)
      (call (attempt + n)%nat
            ((Clerk.leader ck + Z.of_nat n) mod Z.of_nat (Clerk.servers ck)) args).2.
Proof.
  induction n as [|n IH]; intros attempt calls ck Hrange Hfail Hok Hcalls;
    (destruct calls as [|calls]; [lia|]); simpl.
  - rewrite Z.add_0_r, Z.mod_small, Nat.add_0_r in * by lia.
    destruct (Z.leb_spec 0 (Clerk.leader ck)); [|lia].
    destruct (Z.ltb_spec (Clerk.leader ck) (Z.of_nat (Clerk.servers ck))); [|lia].
    simpl. unfold Clerk.answered in Hok.
    destruct (call attempt (Clerk.leader ck) args) as [ok reply]. rewrite Hok.
    destruct ck; reflexivity.
  - destruct (Z.leb_spec 0 (Clerk.leader ck)); [|lia].
    destruct (Z.ltb_spec (Clerk.leader ck) (Z.of_nat (Clerk.servers ck))); [|lia].
    simpl. pose proof (Hfail 0%nat ltac:(lia)) as Hfirst.
    rewrite Z.add_0_r, Z.mod_small, Nat.add_0_r in Hfirst by lia.
    unfold Clerk.answered in Hfirst.
    destruct (call attempt (Clerk.leader ck) args) as [ok reply]. rewrite Hfirst.
    rewrite Z.rem_mod_nonneg by lia.
    set (N := Z.of_nat (Clerk.servers ck)) in *.
    assert (Hstep : ∀ j, (((Clerk.leader ck + 1) mod N + Z.of_nat j) mod N
                          = (Clerk.leader ck + Z.of_nat (S j)) mod N)%Z).
    { intros j. rewrite Zplus_mod_idemp_l. f_equal. lia. }
    rewrite (IH (S attempt) calls
               (Clerk.set_leader ((Clerk.leader ck + 1) mod N)%Z ck)).
    + unfold Clerk.set_leader.
      cbn [Clerk.leader Clerk.servers Clerk.clientId Clerk.requestId]. fold N.
      rewrite Hstep.
      replace (S attempt + n)%nat with (attempt + S n)%nat by lia. reflexivity.
    + unfold Clerk.set_leader; cbn [Clerk.leader Clerk.servers Clerk.clientId Clerk.requestId]; fold N. apply Z.mod_pos_bound. lia.
    + intros j Hj. unfold Clerk.set_leader; cbn [Clerk.leader Clerk.servers Clerk.clientId Clerk.requestId]; fold N. rewrite Hstep.
      replace (S attempt + j)%nat with (attempt + S j)%nat by lia. apply Hfail. lia.
    + unfold Clerk.set_leader; cbn [Clerk.leader Clerk.servers Clerk.clientId Clerk.requestId]; fold N. rewrite Hstep.
      replace (S attempt + n)%nat with (attempt + S n)%nat by lia. exact Hok.
    + lia.
Qed.

End Retry.

(** X15. A clerk's [Get] and [PutAppend]. The request takes the clerk's next
    request id, which is then used up, and is sent unchanged on every call.
    The servers are called one after the other in a ring, starting at the one
    the clerk believes to be the leader. When the call number [n] (from zero)
    is the first that succeeds with a reply not marked WrongLeader, the
    request returns after those [n + 1] calls -- [Get] with the value of
    that reply -- and the clerk remembers the server that answered. *)
Theorem Clerk_request_returns (ck : Clerk.t) (n calls : nat) :
  (0 <= Clerk.leader ck < Z.of_nat (Clerk.servers ck))%Z →
  (n < calls)%nat →
  let server j := ((Clerk.leader ck + Z.of_nat j) mod Z.of_nat (Clerk.servers ck))%Z in
  let ck' := Clerk.mk (Clerk.servers ck) (Clerk.clientId ck) (Clerk.requestId ck + 1)
                      (server n) in
  (∀ call key,
     let args := GetArgs.mk key (Clerk.clientId ck) (Clerk.requestId ck) in
     (∀ j, (j < n)%nat → Clerk.answered GetReply.WrongLeader call args j (server j) = false) →
     Clerk.answered GetReply.WrongLeader call args n (server n) = true →
     Clerk.Get call key calls ck
     = Clerk.Returned ck' (GetReply.Value (call n (server n) args).2))
  ∧ (∀ call key value op,
       let args := PutAppendArgs.mk key value op (Clerk.clientId ck) (Clerk.requestId ck) in
       (∀ j, (j < n)%nat → Clerk.answered PutAppendReply.WrongLeader call args j (server j) = false) →
       Clerk.answered PutAppendReply.WrongLeader call args n (server n) = true →
       Clerk.PutAppend call key value op calls ck = Clerk.Returned ck' tt).
Proof.
  intros Hrange Hcalls server ck'. split.
  - intros call key args Hfail Hok. unfold Clerk.Get. fold args.
    rewrite (retry_finds GetReply.WrongLeader call args n 0 calls); simpl; auto.
  - intros call key value op args Hfail Hok. unfold Clerk.PutAppend. fold args.
    rewrite (retry_finds PutAppendReply.WrongLeader call args n 0 calls); simpl; auto.
Qed.

Lemma Clerk_request_returns_witness :
  let call : Clerk.network GetArgs.t GetReply.t :=
    λ attempt server args,
      if (server =? 2)%Z then (true, GetReply.mk false OK "v")
      else if (server =? 1)%Z then (false, GetReply.zero)
      else (true, GetReply.mk true "" "") in
  Clerk.Get call "k" 5 (Clerk.MakeClerk 3 77) = Clerk.Returned (Clerk.mk 3 77 1 2) "v".
Proof.
  intros call.
  destruct (Clerk_request_returns (Clerk.MakeClerk 3 77) 2 5) as [Hget _].
  - simpl. lia.
  - lia.
  - apply (Hget call "k").
    + intros [|[|j]] Hj; (reflexivity || lia).
    + reflexivity.
Defined.

End KVFacts.

(** * Properties of the linearizability checker *)
Module LinFacts.
Import Go Lin LinSpec Examples.

(** The entries of the stale-read history in the order of their times. *)
Lemma makeEntries_staleRead (putCall putReturn getCall getReturn : Z) (putOutput : string) :
  putCall < putReturn → putReturn < getCall → getCall < getReturn →
  makeEntries (staleRead putCall putReturn getCall getReturn putOutput)
  = [mkEntry callEntry (VKvInput (KvInput.mk 1 "k" "v2")) 0 putCall;
     mkEntry returnEntry (VKvOutput (KvOutput.mk putOutput)) 0 putReturn;
     mkEntry callEntry (VKvInput (KvInput.mk 0 "k" "")) 1 getCall;
     mkEntry returnEntry (VKvOutput (KvOutput.mk "v1")) 1 getReturn].
Proof.
  intros H1 H2 H3. unfold makeEntries, sortByTime, staleRead. simpl.
  repeat (match goal with
          | |- context [?a <? ?b] => destruct (Z.ltb_spec a b); [lia|]
          end; simpl).
  reflexivity.
Qed.

(** The search on the stale-read history: the put is linearized, the get
    then fails on "v2", the search backtracks and meets the put's return with
    nothing left to undo. Four turns of the loop. *)
Lemma checkPartition_staleRead (putCall putReturn getCall getReturn : Z) (putOutput : string)
    (fuel : nat) :
  putCall < putReturn → putReturn < getCall → getCall < getReturn →
  checkPartition (4 + fuel) (fillDefault KvModel)
                 (staleRead putCall putReturn getCall getReturn putOutput)
  = Done false.
Proof.
  intros H1 H2 H3. unfold checkPartition.
  rewrite makeEntries_staleRead by assumption.
  vm_compute. reflexivity.
Qed.

(** C8. For the history of a completed [Put("k", "v2")] followed, after its
    return, by a [Get("k")] that returns "v1", whatever the four times (in
    that order) and whatever the put returned, [CheckOperations] with
    [KvModel] returns false; four turns of the search loop are enough. *)
Theorem CheckOperations_staleRead (putCall putReturn getCall getReturn : Z)
    (putOutput : string) (fuel : nat) :
  putCall < putReturn → putReturn < getCall → getCall < getReturn →
  (4 ≤ fuel)%nat →
  CheckOperations fuel KvModel (staleRead putCall putReturn getCall getReturn putOutput)
  = Done false.
Proof.
  intros H1 H2 H3 Hfuel.
  replace fuel with (4 + (fuel - 4))%nat by lia.
  unfold CheckOperations.
  change (Partition (fillDefault KvModel)) with (Some kvPartition).
  change (Some kvPartition ≫= λ partition, partition (staleRead putCall putReturn getCall getReturn putOutput))
    with (Some [staleRead putCall putReturn getCall getReturn putOutput]).
  cbn [map collect].
  rewrite checkPartition_staleRead by assumption. reflexivity.
Qed.

Lemma CheckOperations_staleRead_witness :
  CheckOperations 4 KvModel (staleRead 0 1 2 3 "") = Done false.
Proof. apply (CheckOperations_staleRead 0 1 2 3 "" 4); lia. Defined.

(** ** The bit set *)

Lemma u64_bit (minor : Z) : 0 <= minor < 64 → u64 (Z.shiftl 1 minor) = 2 ^ minor.
Proof.
  intros Hm. unfold u64. rewrite Z.shiftl_1_l. apply Z.mod_small.
  split; [apply Z.pow_nonneg; lia|apply Z.pow_lt_mono_r; lia].
Qed.

Lemma land_bit (v minor : Z) :
  0 <= minor → negb (Z.land v (2 ^ minor) =? 0) = Z.testbit v minor.
Proof.
  intros Hm. destruct (Z.testbit v minor) eqn:Hbit.
  - destruct (Z.eqb_spec (Z.land v (2 ^ minor)) 0) as [Hz|]; [|reflexivity].
    assert (Hb : Z.testbit (Z.land v (2 ^ minor)) minor = true).
    { rewrite Z.land_spec, Hbit, Z.pow2_bits_true by lia. reflexivity. }
    rewrite Hz, Z.bits_0 in Hb. discriminate.
  - replace (Z.land v (2 ^ minor)) with 0; [reflexivity|].
    symmetry. apply Z.bits_inj'. intros n Hn.
    rewrite Z.land_spec, Z.bits_0, Z.pow2_bits_eqb by lia.
    destruct (Z.eqb_spec minor n) as [<-|]; [rewrite Hbit|]; auto using andb_false_r.
Qed.

(** What [get] reads: the bit [pos mod 64] of the word [pos / 64]. *)
Lemma get_testbit (b : list Z) (pos : Z) :
  0 <= pos →
  get b pos = v ← b !! Z.to_nat (pos / 64); Some (Z.testbit v (pos mod 64)).
Proof.
  intros Hpos. unfold get, bitsetIndex. unfold index.
  destruct (Z.ltb_spec (pos / 64) 0) as [Hneg|_].
  { pose proof (Z.div_pos pos 64). lia. }
  pose proof (Z.mod_pos_bound pos 64 ltac:(lia)).
  assert (Hword : ∀ o : option Z,
            (v ← o; Some (negb (Z.land v (u64 (Z.shiftl 1 (pos mod 64))) =? 0)))
            = (v ← o; Some (Z.testbit v (pos mod 64)))).
  { intros [v|]; [|reflexivity]. simpl. rewrite u64_bit, land_bit by lia. reflexivity. }
  apply Hword.
Qed.

Lemma position_split (pos q : Z) :
  q ≠ pos → q / 64 = pos / 64 → q mod 64 ≠ pos mod 64.
Proof.
  intros Hne Hdiv Hmod.
  pose proof (Z.div_mod q 64 ltac:(lia)). pose proof (Z.div_mod pos 64 ltac:(lia)). lia.
Qed.

(** X16. [set] and [clear] on a position the words cover: the bit set reads as
    true, the bit cleared reads as false, every other position reads as
    before, and the number of words stays. A position beyond the words makes
    all three of [set], [clear] and [get] panic. *)
Theorem bitset_set_clear_get (b : bitset) (pos : Z) :
  0 <= pos →
  (pos < 64 * Z.of_nat (Datatypes.length b) →
   ∃ b1 b0,
     set b pos = Some b1 ∧ clear b pos = Some b0
     ∧ Datatypes.length b1 = Datatypes.length b ∧ Datatypes.length b0 = Datatypes.length b
     ∧ get b1 pos = Some true ∧ get b0 pos = Some false
     ∧ ∀ q, 0 <= q → q ≠ pos → get b1 q = get b q ∧ get b0 q = get b q)
  ∧ (64 * Z.of_nat (Datatypes.length b) <= pos →
     set b pos = None ∧ clear b pos = None ∧ get b pos = None).
Proof.
  intros Hpos.
  pose proof (Z.mod_pos_bound pos 64 ltac:(lia)) as Hminor.
  assert (Hmajor : 0 <= pos / 64) by (apply Z.div_pos; lia).
  split.
  - intros Hin.
    assert (Hlt : pos / 64 < Z.of_nat (Datatypes.length b))
      by (apply Z.div_lt_upper_bound; lia).
    destruct (lookup_lt_is_Some_2 b (Z.to_nat (pos / 64)) ltac:(lia)) as [v Hv].
    unfold set, clear, bitsetIndex, assign.
    rewrite (RaftFacts.index_lookup b (pos / 64)) by lia. rewrite Hv. simpl.
    destruct (Z.ltb_spec (pos / 64) 0); [lia|].
    destruct (Z.leb_spec (Z.of_nat (Datatypes.length b)) (pos / 64)); [lia|]. simpl.
    rewrite u64_bit by lia.
    eexists _, _. split; [reflexivity|]. split; [reflexivity|].
    rewrite !length_insert. split; [reflexivity|]. split; [reflexivity|].
    rewrite !get_testbit by lia.
    rewrite !list_lookup_insert_eq by lia. simpl.
    rewrite Z.lor_spec, Z.ldiff_spec, Z.pow2_bits_true by lia.
    split; [f_equal; apply orb_true_r|]. split; [f_equal; apply andb_false_r|].
    intros q Hq Hne. rewrite !get_testbit by lia.
    destruct (decide (Z.to_nat (q / 64) = Z.to_nat (pos / 64))) as [Heq|Hother].
    + assert (Hdiv : q / 64 = pos / 64).
      { pose proof (Z.div_pos q 64). lia. }
      pose proof (position_split pos q Hne Hdiv) as Hmod.
      pose proof (Z.mod_pos_bound q 64 ltac:(lia)).
      rewrite Heq, !list_lookup_insert_eq, Hv by lia. simpl.
      rewrite Z.lor_spec, Z.ldiff_spec, Z.pow2_bits_false by lia.
      rewrite orb_false_r, andb_true_r. split; reflexivity.
    + rewrite !list_lookup_insert_ne by congruence. split; reflexivity.
  - intros Hout.
    assert (Hge : Z.of_nat (Datatypes.length b) <= pos / 64)
      by (apply Z.div_le_lower_bound; lia).
    unfold set, clear, get, bitsetIndex.
    rewrite (RaftFacts.index_lookup b (pos / 64)) by lia.
    rewrite lookup_ge_None_2 by lia. auto.
Qed.

Lemma bitset_set_clear_get_witness :
  ∃ b1, set [0; 0] 70 = Some b1 ∧ get b1 70 = Some true.
Proof.
  destruct (bitset_set_clear_get [0; 0] 70 ltac:(lia)) as [Hin _].
  destruct Hin as (b1 & b0 & Hset & _ & _ & _ & Hget & _); [simpl; lia|].
  exists b1. split; [exact Hset|exact Hget].
Defined.

(** X17. [newBitset bits] has the fewest 64-bit words that cover [bits]
    positions, and every position reads as false; [clone] reads like the set
    it copies. *)
Theorem newBitset_empty (bits pos : Z) :
  0 <= bits →
  0 <= pos < bits →
  Z.of_nat (Datatypes.length (newBitset bits)) = (bits + 63) / 64
  ∧ get (newBitset bits) pos = Some false
  ∧ get (clone (newBitset bits)) pos = Some false.
Proof.
  intros Hbits Hpos.
  assert (Hlen : Z.of_nat (Datatypes.length (newBitset bits)) = (bits + 63) / 64).
  { unfold newBitset. rewrite length_replicate.
    pose proof (Z.div_mod bits 64 ltac:(lia)) as Hdm.
    pose proof (Z.mod_pos_bound bits 64 ltac:(lia)) as Hm.
    assert (H0 : 0 <= bits / 64) by (apply Z.div_pos; lia).
    destruct (Z.eqb_spec (bits mod 64) 0) as [Hz|Hnz]; simpl; rewrite Z2Nat.id by lia.
    - apply (Z.div_unique (bits + 63) 64 _ 63); lia.
    - apply (Z.div_unique (bits + 63) 64 _ (bits mod 64 - 1)); lia. }
  split; [exact Hlen|].
  unfold clone. rewrite get_testbit by lia.
  assert (Hlt : pos / 64 < (bits + 63) / 64).
  { apply Z.div_lt_upper_bound; [lia|].
    pose proof (Z.div_mod (bits + 63) 64 ltac:(lia)).
    pose proof (Z.mod_pos_bound (bits + 63) 64 ltac:(lia)). lia. }
  assert (Hmajor : 0 <= pos / 64) by (apply Z.div_pos; lia).
  unfold newBitset in *. rewrite length_replicate in Hlen.
  rewrite lookup_replicate_2 by lia. simpl. rewrite Z.bits_0. auto.
Qed.

Lemma newBitset_empty_witness :
  Z.of_nat (Datatypes.length (newBitset 65)) = 2 ∧ get (newBitset 65) 64 = Some false.
Proof.
  destruct (newBitset_empty 65 64) as (Hlen & Hget & _); [lia|lia|].
  split; [exact Hlen|exact Hget].
Defined.

(** X18. [equals] answers true exactly for two bit sets with the same words. *)
Theorem equals_iff (b b2 : bitset) : equals b b2 = true ↔ b = b2.
Proof.
  unfold equals. split.
  - destruct (Nat.eqb_spec (Datatypes.length b) (Datatypes.length b2)) as [Hlen|];
      [simpl|discriminate].
    revert b2 Hlen. induction b as [|v b IH]; intros [|v2 b2] Hlen Heq;
      try discriminate Hlen; [reflexivity|].
    simpl in Heq. destruct (Z.eqb_spec v v2) as [->|]; [|discriminate].
    simpl in Heq. f_equal. apply IH; [simpl in Hlen; lia|exact Heq].
  - intros <-. rewrite Nat.eqb_refl. simpl.
    induction b as [|v b IH]; [reflexivity|]. simpl. rewrite Z.eqb_refl. exact IH.
Qed.

(** One pass of the search loop whose test finds the list non-empty. *)
Lemma checkLoop_step fuel model kill headEntry s p r :
  (hd ← s_heap s !! headEntry; Some (node.next hd)) = Some (Some p) →
  checkTurn model kill headEntry s = r →
  checkLoop (S fuel) model kill headEntry s
  = match r with
    | None => Panic
    | Some (inl b) => Done b
    | Some (inr s') => checkLoop fuel model kill headEntry s'
    end.
Proof.
  intros Hhd <-. simpl.
  destruct (s_heap s !! headEntry) as [hd|]; [|discriminate].
  simpl in Hhd. injection Hhd as ->. reflexivity.
Qed.

(** The pass whose test finds the list empty. *)
Lemma checkLoop_end fuel model kill headEntry s :
  (hd ← s_heap s !! headEntry; Some (node.next hd)) = Some None →
  checkLoop (S fuel) model kill headEntry s = Done true.
Proof.
  intros Hhd. simpl.
  destruct (s_heap s !! headEntry) as [hd|]; [|discriminate].
  simpl in Hhd. injection Hhd as ->. reflexivity.
Qed.

Ltac turn :=
  erewrite checkLoop_step; [|vm_compute; reflexivity|vm_compute; reflexivity];
  cbv beta iota.
Ltac finish := rewrite checkLoop_end by (vm_compute; reflexivity).
Ltac split_on b :=
  match goal with
  | |- context [if ?c then _ else _] => change c with b
  end;
  first [ match goal with E : b = _ |- _ => rewrite E end | destruct b eqn:? ];
  cbv beta iota.
Ltac search w v :=
  repeat first [ split_on (String.eqb w v) | split_on (String.eqb w "")
               | finish | turn ].

Lemma kvPartition_putGet key v w c1 r1 c2 r2 :
  kvPartition (putGet key v w c1 r1 c2 r2) = Some [putGet key v w c1 r1 c2 r2].
Proof.
  unfold kvPartition, putGet. simpl. rewrite String.eqb_refl. reflexivity.
Qed.

Ltac start_search :=
  match goal with |- context [makeLinkedEntries ?l] =>
    let r := eval vm_compute in (makeLinkedEntries l) in
    change (makeLinkedEntries l) with r end;
  cbv beta iota; unfold checkSingle;
  match goal with |- context [length ?l ?h] =>
    let r := eval vm_compute in (length l h) in
    change (length l h) with r end;
  simpl mbind; cbv beta iota.

(** The search on one put and one get of a key, in each of the orders their
    four times can have. *)
Lemma checkPartition_putGet key v w c1 r1 c2 r2 fuel :
  c1 < r1 → c2 < r2 → c1 ≠ c2 → c1 ≠ r2 → r1 ≠ c2 → r1 ≠ r2 →
  checkPartition (8 + fuel) (fillDefault KvModel) (putGet key v w c1 r1 c2 r2)
  = Done (if r1 <? c2 then String.eqb w v
          else if r2 <? c1 then String.eqb w ""
          else String.eqb w v || String.eqb w "").
Proof.
  intros H1 H2 H3 H4 H5 H6.
  unfold checkPartition.
  change (makeEntries (putGet key v w c1 r1 c2 r2))
    with (sortByTime (putGetEntries key v w c1 r1 c2 r2)).
  change (8 + fuel)%nat with (S (S (S (S (S (S (S (S fuel)))))))).
  pose (run := λ l, match makeLinkedEntries l with
                    | Some (h, l') =>
                        checkSingle (S (S (S (S (S (S (S (S fuel)))))))) (fillDefault KvModel)
                                    l' h false
                    | None => Panic
                    end).
  change (run (sortByTime (putGetEntries key v w c1 r1 c2 r2))
          = Done (if r1 <? c2 then String.eqb w v
                  else if r2 <? c1 then String.eqb w ""
                  else String.eqb w v || String.eqb w "")).
  assert (Hrun : run = λ l, match makeLinkedEntries l with
                            | Some (h, l') =>
                                checkSingle (S (S (S (S (S (S (S (S fuel))))))))
                                            (fillDefault KvModel) l' h false
                            | None => Panic
                            end) by reflexivity.
  clearbody run.
  unfold sortByTime, putGetEntries. simpl.
  repeat (match goal with
          | |- context [?a <? ?b] => destruct (Z.ltb_spec a b); try lia
          end; simpl).
  all: subst run; cbv beta.
  all: start_search; search w v.
  all: rewrite ?orb_true_r; reflexivity.
Qed.

(** X20. [CheckOperations] with [KvModel] on a history of one put and one get of
    the same key, whatever the key, the values and the four times (each
    call before its return, no two equal): when the put returned before the
    get was called the history is accepted exactly when the get returned
    the value put; when the get returned before the put was called, exactly
    when it returned the empty string; when the two overlap, exactly when it
    returned one of the two. Eight passes of the search loop are enough. *)
Theorem CheckOperations_put_get (key v w : string) (putCall putReturn getCall getReturn : Z)
    (fuel : nat) :
  putCall < putReturn → getCall < getReturn →
  putCall ≠ getCall → putCall ≠ getReturn → putReturn ≠ getCall → putReturn ≠ getReturn →
  (8 ≤ fuel)%nat →
  CheckOperations fuel KvModel (putGet key v w putCall putReturn getCall getReturn)
  = Done (if putReturn <? getCall then String.eqb w v
          else if getReturn <? putCall then String.eqb w ""
          else String.eqb w v || String.eqb w "").
Proof.
  intros H1 H2 H3 H4 H5 H6 Hfuel.
  replace fuel with (8 + (fuel - 8))%nat by lia.
  unfold CheckOperations.
  change (Partition (fillDefault KvModel)) with (Some kvPartition).
  change (Some kvPartition ≫= λ partition,
            partition (putGet key v w putCall putReturn getCall getReturn))
    with (kvPartition (putGet key v w putCall putReturn getCall getReturn)).
  rewrite kvPartition_putGet. cbn [map collect].
  rewrite checkPartition_putGet by assumption.
  repeat match goal with |- context [if ?c then _ else _] => destruct c end;
    reflexivity.
Qed.

Lemma CheckOperations_put_get_witness :
  CheckOperations 8 KvModel (putGet "k" "v" "" 0 2 1 3) = Done true.
Proof. apply (CheckOperations_put_get "k" "v" "" 0 2 1 3 8); lia. Defined.

(** ** Taking a call and its return out of the list, and putting them back *)

Lemma chain_app h prev l1 l2 next :
  chain h prev (l1 ++ l2) next
  ↔ chain h prev l1 (first_or l2 next)
    ∧ chain h (match last l1 with Some q => Some q | None => prev end) l2 next.
Proof.
  revert prev. induction l1 as [|q l1 IH]; intros prev; simpl.
  - tauto.
  - rewrite IH.
    replace (first_or (l1 ++ l2) next) with (first_or l1 (first_or l2 next))
      by (destruct l1; reflexivity).
    replace (match last (q :: l1) with Some q0 => Some q0 | None => prev end)
      with (match last l1 with Some q0 => Some q0 | None => Some q end)
      by (destruct l1 as [|q' l1]; [reflexivity|change (last (q :: q' :: l1)) with (last (q' :: l1)); destruct (last (q' :: l1)) eqn:E; [reflexivity|apply last_None in E; discriminate]]).
    tauto.
Qed.

Lemma chain_frame h h' prev ps next :
  (∀ q, q ∈ ps → h' !! q = h !! q) → chain h prev ps next → chain h' prev ps next.
Proof.
  revert prev. induction ps as [|p ps IH]; intros prev Hsame; simpl; [auto|].
  intros [(n & Hn & Hprev & Hnext) Hrest]. split.
  - exists n. rewrite Hsame by set_solver. auto.
  - apply IH; [|exact Hrest]. intros q Hq. apply Hsame. set_solver.
Qed.

Lemma first_or_app l1 l2 next :
  first_or (l1 ++ l2) next = first_or l1 (first_or l2 next).
Proof. destruct l1; reflexivity. Qed.

Lemma chain_cons h prev p ps next :
  chain h prev (p :: ps) next
  ↔ (∃ n, h !! p = Some n ∧ node.prev n = prev ∧ node.next n = first_or ps next)
    ∧ chain h (Some p) ps next.
Proof. reflexivity. Qed.

Lemma last_snoc_or {A} (l : list A) (x : A) (d : option A) :
  match last (l ++ [x]) with Some q => Some q | None => d end = Some x.
Proof. rewrite last_snoc. reflexivity. Qed.

(** Rewriting of a lookup after stores. *)
Ltac heap_step :=
  first
    [ rewrite list_lookup_insert_eq
        by (rewrite ?length_insert; eapply lookup_lt_Some; eassumption)
    | rewrite list_lookup_insert_ne by congruence
    | match goal with
      | H : ?h !! ?p = Some _ |- context [?h !! ?p] => rewrite H
      end ];
  cbn [mbind option_bind node.next node.prev node.match_ node.value node.id
       node.set_next node.set_prev].

Ltac heap_run :=
  unfold lift, unlift, load, store_next, store_prev, heap, ptr in *;
  cbn [mbind option_bind];
  repeat heap_step.

(** Equality of two heaps that differ by stores. *)
Ltac heap_eq :=
  apply list_eq; intros i;
  repeat match goal with
         | |- context [<[?p := _]> _ !! i] =>
             destruct (decide (p = i)) as [<-|?];
             [ try congruence; repeat heap_step
             | rewrite (list_lookup_insert_ne _ p i) by assumption ]
         end;
  try reflexivity.

(** The nodes of [ps] are not written by stores to pointers outside. *)
Ltac frame Hnd :=
  let q := fresh "q" in let Hq := fresh "Hq" in
  intros q Hq; unfold heap, ptr in *;
  repeat (rewrite list_lookup_insert_ne by (intros ->; set_solver));
  reflexivity.

Ltac chain_solve Hnd :=
  repeat match goal with
         | _ => progress (unfold heap, ptr in * )
         | |- chain _ _ [] _ => exact I
         | H : ?x = ?y |- chain _ ?y _ _ => is_var x; rewrite <- H
         | |- chain _ _ (_ :: _) _ =>
             rewrite chain_cons; unfold heap, ptr in *; split;
             [eexists; split;
              [repeat heap_step; reflexivity|split; rewrite ?first_or_app; reflexivity]|]
         | |- chain _ _ (_ ++ _) _ => rewrite chain_app; split
         | |- chain _ _ ?l _ => is_var l; eapply chain_frame; [frame Hnd|eassumption]
         end.

Ltac lift_case Hnd :=
  unfold heap, ptr in *; eexists; split; [heap_run; reflexivity|];
  split; [|split; [repeat heap_step; reflexivity|heap_run; f_equal; heap_eq]].

(** X21. [lift] on a call whose return comes later in a well linked list takes
    both out: what is left is linked in the old order, the node before the
    call now followed by what came between the call and its return and then
    by what came after the return. The call's own node keeps its links, and
    [unlift] on the same call puts the heap back exactly as it was. *)
Theorem lift_unlift (h : heap) (prev0 : option ptr) (pre mid post : list ptr)
    (p e m : ptr) (en : node.t) :
  NoDup (pre ++ p :: e :: mid ++ m :: post) →
  chain h prev0 (pre ++ p :: e :: mid ++ m :: post) None →
  h !! e = Some en →
  node.match_ en = Some m →
  ∃ h1,
    lift (Some e) h = Some h1
    ∧ chain h1 prev0 (pre ++ p :: mid ++ post) None
    ∧ h1 !! e = Some en
    ∧ unlift (Some e) h1 = Some h.
Proof.
  intros Hnd Hchain He Hmatch.
  apply chain_app in Hchain as [Hpre Hchain].
  apply chain_cons in Hchain as [(pn & Hp & Hpprev & Hpnext) Hchain].
  apply chain_cons in Hchain as [(en' & He' & Heprev & Henext) Hchain].
  rewrite He in He'. injection He' as <-.
  apply chain_app in Hchain as [Hmid Hchain].
  apply chain_cons in Hchain as [(mn & Hm & Hmprev & Hmnext) Hpost].
  simpl in Hpnext, Hpre.
  assert (Hmid3 : mid = [] ∨ (∃ a, mid = [a]) ∨ ∃ a mid1 b, mid = a :: mid1 ++ [b]).
  { destruct mid as [|a mid]; [auto|]. right.
    destruct mid as [|a' mid _] using rev_ind; [eauto|]. right. eauto. }
  destruct pn as [pv pm pi pnx ppv], en as [ev em ei enx epv], mn as [mv mm mi mnx mpv].
  destruct Hmid3 as [->|[[a ->]|(a & mid1 & b & ->)]]; destruct post as [|c post].
  - (* the return follows the call; nothing after it *)
    simpl in *. subst pnx enx epv em mnx mpv.
    repeat (rewrite ?NoDup_app, ?NoDup_cons in Hnd; simpl in Hnd).
    assert (Hd : p ≠ e ∧ p ≠ m ∧ e ≠ m) by set_solver.
    destruct Hd as (? & ? & ?).
    lift_case Hnd. chain_solve Hnd.
  - (* the return follows the call; [c] follows the return *)
    apply chain_cons in Hpost as [(cn & Hc & Hcprev & Hcnext) Hpost].
    destruct cn as [cv cm ci cnx cpv].
    simpl in *. subst pnx enx epv em mnx mpv cnx cpv.
    repeat (rewrite ?NoDup_app, ?NoDup_cons in Hnd; simpl in Hnd).
    assert (Hd : p ≠ e ∧ p ≠ m ∧ e ≠ m ∧ p ≠ c ∧ e ≠ c ∧ m ≠ c) by set_solver.
    destruct Hd as (? & ? & ? & ? & ? & ?).
    lift_case Hnd. chain_solve Hnd.
  - (* one entry [a] between the call and its return; nothing after *)
    apply chain_cons in Hmid as [(an & Ha & Haprev & Hanext) _].
    destruct an as [av am ai anx apv].
    simpl in *. subst pnx enx epv em mnx mpv anx apv.
    repeat (rewrite ?NoDup_app, ?NoDup_cons in Hnd; simpl in Hnd).
    assert (Hd : p ≠ e ∧ p ≠ m ∧ e ≠ m ∧ p ≠ a ∧ e ≠ a ∧ m ≠ a) by set_solver.
    destruct Hd as (? & ? & ? & ? & ? & ?).
    lift_case Hnd. chain_solve Hnd.
  - (* one entry [a] between; [c] follows the return *)
    apply chain_cons in Hmid as [(an & Ha & Haprev & Hanext) _].
    apply chain_cons in Hpost as [(cn & Hc & Hcprev & Hcnext) Hpost].
    destruct an as [av am ai anx apv], cn as [cv cm ci cnx cpv].
    simpl in *. subst pnx enx epv em mnx mpv anx apv cnx cpv.
    repeat (rewrite ?NoDup_app, ?NoDup_cons in Hnd; simpl in Hnd).
    assert (Hd : p ≠ e ∧ p ≠ m ∧ e ≠ m ∧ p ≠ a ∧ e ≠ a ∧ m ≠ a
                 ∧ p ≠ c ∧ e ≠ c ∧ m ≠ c ∧ a ≠ c) by set_solver.
    destruct Hd as (? & ? & ? & ? & ? & ? & ? & ? & ? & ?).
    lift_case Hnd. chain_solve Hnd.
  - (* several entries between, from [a] to [b]; nothing after *)
    apply chain_cons in Hmid as [(an & Ha & Haprev & Hanext) Hmid].
    apply chain_app in Hmid as [Hmid Hb].
    apply chain_cons in Hb as [(bn & Hb & Hbprev & Hbnext) _].
    destruct an as [av am ai anx apv], bn as [bv bm bi bnx bpv].
    rewrite app_comm_cons, last_snoc in Hmprev.
    simpl in *. subst pnx enx epv em mnx mpv anx apv bnx.
    change (p :: (a :: mid1 ++ [b]) ++ []) with (p :: a :: (mid1 ++ [b]) ++ []).
    rewrite <- app_assoc. simpl app.
    repeat (rewrite ?NoDup_app, ?NoDup_cons in Hnd; simpl in Hnd).
    assert (Hd : p ≠ e ∧ p ≠ m ∧ e ≠ m ∧ p ≠ a ∧ e ≠ a ∧ m ≠ a
                 ∧ p ≠ b ∧ e ≠ b ∧ m ≠ b ∧ a ≠ b) by set_solver.
    destruct Hd as (? & ? & ? & ? & ? & ? & ? & ? & ? & ?).
    lift_case Hnd. chain_solve Hnd.
  - (* several entries between, from [a] to [b]; [c] follows the return *)
    apply chain_cons in Hmid as [(an & Ha & Haprev & Hanext) Hmid].
    apply chain_app in Hmid as [Hmid Hb].
    apply chain_cons in Hb as [(bn & Hb & Hbprev & Hbnext) _].
    apply chain_cons in Hpost as [(cn & Hc & Hcprev & Hcnext) Hpost].
    destruct an as [av am ai anx apv], bn as [bv bm bi bnx bpv], cn as [cv cm ci cnx cpv].
    rewrite app_comm_cons, last_snoc in Hmprev.
    simpl in *. subst pnx enx epv em mnx mpv anx apv bnx cnx cpv.
    change (p :: (a :: mid1 ++ [b]) ++ c :: post)
      with (p :: a :: (mid1 ++ [b]) ++ c :: post).
    rewrite <- app_assoc. simpl app.
    repeat (rewrite ?NoDup_app, ?NoDup_cons in Hnd; simpl in Hnd).
    assert (Hd : p ≠ e ∧ p ≠ m ∧ e ≠ m ∧ p ≠ a ∧ e ≠ a ∧ m ≠ a
                 ∧ p ≠ b ∧ e ≠ b ∧ m ≠ b ∧ a ≠ b
                 ∧ p ≠ c ∧ e ≠ c ∧ m ≠ c ∧ a ≠ c ∧ b ≠ c) by set_solver.
    destruct Hd as (? & ? & ? & ? & ? & ? & ? & ? & ? & ? & ? & ? & ? & ? & ?).
    lift_case Hnd. chain_solve Hnd.
Qed.

Lemma lift_unlift_witness :
  let h := [node.mk VNil None 9 (Some 1%nat) None;
            node.mk VNil (Some 2%nat) 0 (Some 2%nat) (Some 0%nat);
            node.mk VNil None 0 None (Some 1%nat)] in
  ∃ h1, lift (Some 1%nat) h = Some h1 ∧ unlift (Some 1%nat) h1 = Some h.
Proof.
  intros h.
  destruct (lift_unlift h None [] [] [] 0%nat 1%nat 2%nat
              (node.mk VNil (Some 2%nat) 0 (Some 2%nat) (Some 0%nat)))
    as (h1 & Hlift & _ & _ & Hunlift).
  - repeat constructor; set_solver.
  - simpl. repeat split; eexists; (split; [reflexivity|split; reflexivity]).
  - reflexivity.
  - reflexivity.
  - exists h1. split; [exact Hlift|exact Hunlift].
Defined.
(** ** KvModel: the partition by key *)

Lemma at_key_appendAt (k key : string) (v : Operation.t) m :
  at_key k (appendAt key v m)
  = if decide (k = key) then at_key k m ++ [v] else at_key k m.
Proof.
  induction m as [|[k' vs] m IH]; simpl.
  - destruct (String.eqb_spec key k); case_decide; congruence.
  - destruct (String.eqb_spec k' key); simpl;
      destruct (String.eqb_spec k' k); case_decide; congruence.
Qed.

Lemma keys_appendAt (key : string) (v : Operation.t) m :
  map fst (appendAt key v m)
  = if decide (key ∈ map fst m) then map fst m else map fst m ++ [key].
Proof.
  induction m as [|[k' vs] m IH]; cbn [appendAt map fst].
  - reflexivity.
  - destruct (String.eqb_spec k' key) as [->|Hne]; cbn [map fst].
    + destruct (decide (key ∈ key :: map fst m)) as [|Hout]; [reflexivity|].
      exfalso. apply Hout. left.
    + rewrite IH.
      destruct (decide (key ∈ map fst m)) as [Hin|Hout],
               (decide (key ∈ k' :: map fst m)) as [Hin'|Hout'].
      * reflexivity.
      * exfalso. apply Hout'. right. exact Hin.
      * exfalso. apply elem_of_cons in Hin' as [->|Hin']; [congruence|auto].
      * reflexivity.
Qed.

Lemma kvPartitionLoop_spec (history : list Operation.t) : ∀ m,
  NoDup (map fst m) →
  (∀ op, op ∈ history → is_Some (keyOf op)) →
  ∃ m',
    kvPartitionLoop history m = Some m'
    ∧ NoDup (map fst m')
    ∧ (∀ k, k ∈ map fst m' ↔ k ∈ map fst m ∨ ∃ op, op ∈ history ∧ keyOf op = Some k)
    ∧ (∀ k, at_key k m' = at_key k m ++ filter (λ op, keyOf op = Some k) history).
Proof.
  induction history as [|v history IH]; intros m Hnd Hall; simpl.
  - exists m. split; [reflexivity|]. split; [exact Hnd|]. split.
    + intros k. split; [auto|]. intros [Hk|(op & Hop & _)]; [exact Hk|].
      apply elem_of_nil in Hop. contradiction.
    + intros k. rewrite app_nil_r. reflexivity.
  - destruct (Hall v ltac:(left)) as [key Hkey]. unfold keyOf in Hkey.
    destruct (Operation.Input v) as [|inp| |] eqn:Hin; try discriminate.
    injection Hkey as Hkey.
    destruct (IH (appendAt (KvInput.Key inp) v m)) as (m' & Hrun & Hnd' & Hkeys & Hat).
    { rewrite keys_appendAt. destruct (decide (KvInput.Key inp ∈ map fst m)); [exact Hnd|].
      apply NoDup_app. split; [exact Hnd|]. split; [|apply NoDup_singleton].
      intros x Hx Hx'. apply list_elem_of_singleton in Hx' as ->. contradiction. }
    { intros op Hop. apply Hall. right. exact Hop. }
    exists m'. split; [exact Hrun|]. split; [exact Hnd'|].
    assert (Hkv : keyOf v = Some key) by (unfold keyOf; rewrite Hin, Hkey; reflexivity).
    clear IH. split.
    + intros k. rewrite Hkeys, keys_appendAt. split.
      * intros [Hk|(op & Hop & Hk)].
        -- destruct (decide (KvInput.Key inp ∈ map fst m)); [auto|].
           apply elem_of_app in Hk as [Hk|Hk]; [auto|]. right. exists v.
           split; [left|]. apply list_elem_of_singleton in Hk. congruence.
        -- right. exists op. split; [right; exact Hop|exact Hk].
      * intros [Hk|(op & Hop & Hk)].
        -- left. destruct (decide (KvInput.Key inp ∈ map fst m)); [exact Hk|].
           apply elem_of_app. left. exact Hk.
        -- apply elem_of_cons in Hop as [->|Hop].
           ++ left. assert (k = KvInput.Key inp) as -> by congruence.
              destruct (decide (KvInput.Key inp ∈ map fst m)) as [Hyes|Hno]; [exact Hyes|].
              apply elem_of_app. right. left.
           ++ right. exists op. auto.
    + intros k. rewrite Hat, at_key_appendAt, filter_cons.
      repeat case_decide; try congruence; rewrite <- ?app_assoc; reflexivity.
Qed.

Lemma values_by_key (m : list (string * list Operation.t)) :
  NoDup (map fst m) → map snd m = map (λ k, at_key k m) (map fst m).
Proof.
  induction m as [|[k vs] m IH]; intros Hnd; [reflexivity|].
  simpl in *. apply NoDup_cons in Hnd as [Hk Hnd].
  rewrite String.eqb_refl. f_equal. rewrite IH by exact Hnd.
  apply map_ext_in. intros k' Hk'.
  destruct (String.eqb_spec k k') as [->|_]; [|reflexivity].
  exfalso. apply Hk. apply list_elem_of_In. exact Hk'.
Qed.

(** X22. [KvModel]'s [Partition] on a history whose inputs are all [KvInput]s:
    there is one partition for each key that occurs, and it holds the
    operations on that key in the order of the history. An input of another
    type makes it panic. *)
Theorem kvPartition_by_key (history : list Operation.t) :
  ((∀ op, op ∈ history → is_Some (keyOf op)) →
   ∃ keys,
     kvPartition history
     = Some (map (λ k, filter (λ op, keyOf op = Some k) history) keys)
     ∧ NoDup keys
     ∧ ∀ k, k ∈ keys ↔ ∃ op, op ∈ history ∧ keyOf op = Some k)
  ∧ ((∃ op, op ∈ history ∧ keyOf op = None) → kvPartition history = None).
Proof.
  split.
  - intros Hall.
    destruct (kvPartitionLoop_spec history [] (NoDup_nil_2) Hall)
      as (m' & Hrun & Hnd & Hkeys & Hat).
    exists (map fst m'). unfold kvPartition. rewrite Hrun. simpl.
    split; [|split; [exact Hnd|]].
    + f_equal. rewrite values_by_key by exact Hnd.
      apply map_ext. intros k. rewrite Hat. reflexivity.
    + intros k. rewrite Hkeys. simpl. split; [|auto].
      intros [Hk|Hk]; [apply elem_of_nil in Hk; contradiction|exact Hk].
  - intros (op & Hop & Hnone). unfold kvPartition.
    assert (Hloop : ∀ m, kvPartitionLoop history m = None).
    { induction history as [|v history IH]; intros m;
        [apply elem_of_nil in Hop; contradiction|]. simpl.
      apply elem_of_cons in Hop as [<-|Hop].
      - unfold keyOf in Hnone. destruct (Operation.Input op); (reflexivity || discriminate).
      - destruct (Operation.Input v); try reflexivity. apply IH. exact Hop. }
    rewrite Hloop. reflexivity.
Qed.
(** ** Renumbering the events *)

Lemma renumberLoop_spec (events : list Event.t) : ∀ m id e,
  dense m id →
  ∃ m' id',
    dense m' id'
    ∧ (∀ a r, m !! a = Some r → m' !! a = Some r)
    ∧ (∀ a, is_Some (m' !! a) ↔ is_Some (m !! a) ∨ ∃ v, v ∈ events ∧ Event.Id v = a)
    ∧ renumberLoop events m id e
      = e ++ map (λ v, Event.mk (Event.Kind v) (Event.Value v)
                                (default 0 (m' !! Event.Id v))) events.
Proof.
  induction events as [|v events IH]; intros m id e Hdense; simpl.
  - exists m, id. split; [exact Hdense|]. split; [auto|]. split.
    + intros a. split; [auto|]. intros [Ha|(w & Hw & _)]; [exact Ha|].
      apply elem_of_nil in Hw. contradiction.
    + rewrite app_nil_r. reflexivity.
  - destruct (m !! Event.Id v) as [r|] eqn:Hlook.
    + destruct (IH m id (e ++ [Event.mk (Event.Kind v) (Event.Value v) r]) Hdense)
        as (m' & id' & Hdense' & Hsub & Hdom & Hrun).
      exists m', id'. split; [exact Hdense'|]. split; [exact Hsub|]. split.
      * intros a. rewrite Hdom. split.
        -- intros [Ha|(w & Hw & Hid)]; [auto|]. right. exists w. split; [right|]; assumption.
        -- intros [Ha|(w & Hw & Hid)]; [auto|].
           apply elem_of_cons in Hw as [->|Hw]; [|right; eauto].
           left. rewrite <- Hid, Hlook. eauto.
      * rewrite Hrun, <- app_assoc. simpl. rewrite (Hsub _ _ Hlook). reflexivity.
    + destruct Hdense as (Hpos & Hrange & Hinj & Hsurj).
      assert (Hdense1 : dense (<[Event.Id v := id]> m) (id + 1)).
      { split; [lia|]. split; [|split].
        - intros a r Ha. destruct (decide (a = Event.Id v)) as [->|Hne].
          + rewrite lookup_insert_eq in Ha. injection Ha as <-. lia.
          + rewrite lookup_insert_ne in Ha by congruence. apply Hrange in Ha. lia.
        - intros a b r Ha Hb.
          destruct (decide (a = Event.Id v)) as [->|Hna], (decide (b = Event.Id v)) as [->|Hnb].
          + reflexivity.
          + rewrite lookup_insert_eq in Ha. rewrite lookup_insert_ne in Hb by congruence.
            injection Ha as <-. apply Hrange in Hb. lia.
          + rewrite lookup_insert_eq in Hb. rewrite lookup_insert_ne in Ha by congruence.
            injection Hb as <-. apply Hrange in Ha. lia.
          + rewrite lookup_insert_ne in Ha, Hb by congruence. eapply Hinj; eassumption.
        - intros r Hr. destruct (decide (r = id)) as [->|Hne].
          + exists (Event.Id v). apply lookup_insert_eq.
          + destruct (Hsurj r ltac:(lia)) as [a Ha]. exists a.
            rewrite lookup_insert_ne; [exact Ha|]. intros <-. congruence. }
      destruct (IH _ _ (e ++ [Event.mk (Event.Kind v) (Event.Value v) id]) Hdense1)
        as (m' & id' & Hdense' & Hsub & Hdom & Hrun).
      exists m', id'. split; [exact Hdense'|]. split; [|split].
      * intros a r Ha. apply Hsub. rewrite lookup_insert_ne; [exact Ha|].
        intros <-. congruence.
      * intros a. rewrite Hdom. split.
        -- intros [Ha|(w & Hw & Hid)].
           ++ destruct (decide (a = Event.Id v)) as [->|Hne].
              ** right. exists v. split; [left|reflexivity].
              ** rewrite lookup_insert_ne in Ha by congruence. auto.
           ++ right. exists w. split; [right|]; assumption.
        -- intros [Ha|(w & Hw & Hid)].
           ++ left. destruct (decide (a = Event.Id v)) as [->|Hne].
              ** rewrite lookup_insert_eq. eauto.
              ** rewrite lookup_insert_ne by congruence. exact Ha.
           ++ apply elem_of_cons in Hw as [->|Hw]; [|right; eauto].
              left. rewrite <- Hid, lookup_insert_eq. eauto.
      * rewrite Hrun, <- app_assoc. simpl.
        rewrite (Hsub (Event.Id v) id) by apply lookup_insert_eq. reflexivity.
Qed.

(** X23. [renumber] keeps the events, their kinds and values in place and
    replaces the ids: two events get the same new id exactly when they had the
    same old id, and the new ids are the numbers [0], [1], ... up to the count
    of different old ids, none left out. *)
Theorem renumber_spec (events : list Event.t) :
  ∃ (f : Z → Z) (count : Z),
    renumber events
    = map (λ v, Event.mk (Event.Kind v) (Event.Value v) (f (Event.Id v))) events
    ∧ (∀ v w, v ∈ events → w ∈ events →
              (f (Event.Id v) = f (Event.Id w) ↔ Event.Id v = Event.Id w))
    ∧ (∀ v, v ∈ events → 0 <= f (Event.Id v) < count)
    ∧ (∀ r, 0 <= r < count → ∃ v, v ∈ events ∧ f (Event.Id v) = r).
Proof.
  assert (Hempty : dense ∅ 0).
  { split; [lia|]. split; [|split].
    - intros a r Ha. rewrite lookup_empty in Ha. discriminate.
    - intros a b r Ha. rewrite lookup_empty in Ha. discriminate.
    - intros r Hr. lia. }
  destruct (renumberLoop_spec events ∅ 0 [] Hempty)
    as (m' & count & (Hpos & Hrange & Hinj & Hsurj) & _ & Hdom & Hrun).
  exists (λ a, default 0 (m' !! a)), count.
  assert (Hin : ∀ v, v ∈ events → ∃ r, m' !! Event.Id v = Some r).
  { intros v Hv. apply Hdom. right. eauto. }
  split; [exact Hrun|]. split; [|split].
  - intros v w Hv Hw. split; [|intros ->; reflexivity].
    destruct (Hin v Hv) as [r Hr], (Hin w Hw) as [r' Hr']. rewrite Hr, Hr'. simpl.
    intros <-. eapply Hinj; eassumption.
  - intros v Hv. destruct (Hin v Hv) as [r Hr]. rewrite Hr. simpl. eapply Hrange, Hr.
  - intros r Hr. destruct (Hsurj r Hr) as [a Ha].
    assert (Hsome : is_Some (m' !! a)) by eauto.
    apply Hdom in Hsome as [[x Hx]|(v & Hv & Hid)].
    + rewrite lookup_empty in Hx. discriminate.
    + exists v. split; [exact Hv|]. rewrite Hid, Ha. reflexivity.
Qed.

Lemma renumber_putGetEvents o key v w putId getId :
  putId ≠ getId →
  renumber (putGetEvents o key v w putId getId)
  = if putFirst o then putGetEvents o key v w 0 1 else putGetEvents o key v w 1 0.
Proof.
  intros Hne. unfold renumber, putGetEvents.
  destruct o; simpl;
    repeat first [ rewrite lookup_empty | rewrite lookup_insert_eq
                 | rewrite lookup_insert_ne by congruence ]; simpl; reflexivity.
Qed.

(** X24. [CheckEvents] with [KvModel] on the events of one put and one get of a
    key, under any two different ids and in each of the six orders the four
    events can have: when the put returns before the get is called the
    history is accepted exactly when the get returned the value put; when the
    get returns before the put is called, exactly when it returned the empty
    string; and when the two overlap, exactly when it returned that value or
    the empty string. *)
Theorem CheckEvents_put_get (o : Interleaving) (key v w : string) (putId getId : Z)
    (fuel : nat) :
  putId ≠ getId →
  (8 ≤ fuel)%nat →
  CheckEvents fuel KvModel (putGetEvents o key v w putId getId)
  = Done (match o with
          | PPGG => String.eqb w v
          | GGPP => String.eqb w ""
          | PGPG | PGGP | GPPG | GPGP => String.eqb w v || String.eqb w ""
          end).
Proof.
  intros Hne Hfuel.
  replace fuel with (8 + (fuel - 8))%nat by lia.
  unfold CheckEvents.
  change (PartitionEvent (fillDefault KvModel)) with (Some NoPartitionEvent).
  cbn [mbind option_bind NoPartitionEvent map collect].
  unfold checkEventPartition. rewrite renumber_putGetEvents by exact Hne.
  change (8 + (fuel - 8))%nat with (S (S (S (S (S (S (S (S (fuel - 8))))))))).
  destruct o; cbn [putFirst putGetEvents convertEntries map Bool.eqb Event.Kind Event.Value
                   Event.Id CallEvent ReturnEvent returnEntry callEntry].
  all: start_search; search w v.
  all: try destruct (String.eqb w v); reflexivity.
Qed.

Lemma CheckEvents_put_get_witness :
  CheckEvents 8 KvModel (putGetEvents PGPG "k" "v" "" 7 3) = Done true
  ∧ CheckEvents 8 KvModel (putGetEvents GGPP "k" "v" "v" 7 3) = Done false.
Proof.
  split.
  - apply (CheckEvents_put_get PGPG "k" "v" "" 7 3 8); lia.
  - apply (CheckEvents_put_get GGPP "k" "v" "v" 7 3 8); lia.
Defined.
(** ** Building the list *)

Lemma nearest_app es es' i j o :
  (j ≤ Datatypes.length es)%nat → nearest es i j o → nearest (es ++ es') i j o.
Proof.
  intros Hj. destruct o as [q|]; simpl.
  - intros (Hq & (r & Hr & Hret) & Hnone). split; [exact Hq|]. split.
    + exists r. split; [|exact Hret]. rewrite lookup_app_l by lia. exact Hr.
    + intros q' r' Hq' Hr'. rewrite lookup_app_l in Hr' by lia. eauto.
  - intros Hnone q r Hq Hr. rewrite lookup_app_l in Hr by lia. eauto.
Qed.

Lemma nodeOf_app es es' n j e nd :
  (j < Datatypes.length es)%nat → (S j < n)%nat →
  nodeOf es n j e nd → nodeOf (es ++ es') (S n) j e nd.
Proof.
  intros Hj Hn (Hv & Hi & Hnext & Hprev & Hret & Hcall).
  repeat split; try assumption.
  - rewrite Hprev. repeat case_decide; (reflexivity || lia).
  - intros Hk. apply nearest_app; [lia|auto].
Qed.


Lemma nearest_snoc es elem i o :
  ¬ isReturn i elem →
  nearest es i (Datatypes.length es) o →
  nearest (es ++ [elem]) i (S (Datatypes.length es)) o.
Proof.
  intros Hnot Hnear.
  assert (Hlast : ∀ q r, (q < S (Datatypes.length es))%nat → (es ++ [elem]) !! q = Some r →
                         ¬ (q < Datatypes.length es)%nat → ¬ isReturn i r).
  { intros q r Hq Hr Hge. assert (q = Datatypes.length es) as -> by lia.
    rewrite lookup_app_r, Nat.sub_diag in Hr by lia. injection Hr as <-. exact Hnot. }
  destruct o as [q|]; simpl in *.
  - destruct Hnear as (Hq & (r & Hr & Hret) & Hnone). split; [lia|]. split.
    + exists r. split; [|exact Hret]. rewrite lookup_app_l by lia. exact Hr.
    + intros q' r' Hq' Hr'.
      destruct (decide (q' < Datatypes.length es)%nat) as [Hlt|Hge].
      * rewrite lookup_app_l in Hr' by lia. apply (Hnone q' r'); [lia|exact Hr'].
      * apply (Hlast q' r'); [lia|exact Hr'|exact Hge].
  - intros q r Hq Hr.
    destruct (decide (q < Datatypes.length es)%nat) as [Hlt|Hge].
    + rewrite lookup_app_l in Hr by lia. apply (Hnear q r); [lia|exact Hr].
    + apply (Hlast q r); [lia|exact Hr|exact Hge].
Qed.

(** A fresh node put before the root. *)
Lemma insertBefore_root (h : heap) (nd : node.t) (root : option ptr) :
  node.next nd = None → node.prev nd = None →
  (∀ r, root = Some r → ∃ rn, h !! r = Some rn ∧ node.prev rn = None) →
  insertBefore (Datatypes.length h) root (h ++ [nd])
  = Some (match root with
          | Some r =>
              <[Datatypes.length h := node.set_next root nd]>
                (<[r := node.set_prev (Some (Datatypes.length h))
                          (default nd (h !! r))]> (h ++ [nd]))
          | None => h ++ [nd]
          end, Datatypes.length h).
Proof.
  intros Hnext Hprev Hroot. unfold insertBefore.
  destruct root as [r|]; [|reflexivity].
  destruct (Hroot r eq_refl) as (rn & Hr & Hrprev).
  pose proof (lookup_lt_Some _ _ _ Hr) as Hlt.
  unfold load, store_prev, store_next, heap, ptr in *. cbn [mbind option_bind].
  rewrite lookup_app_l by lia. rewrite Hr. cbn [mbind option_bind default].
  rewrite Hrprev.
  rewrite list_lookup_insert_ne by lia.
  rewrite lookup_app_r by lia. rewrite Nat.sub_diag. reflexivity.
Qed.

Lemma built_step (done : list entry) (h : heap) (m : gmap Z ptr) (root : option ptr)
    (elem : entry) (es : list entry) :
  built done h m root →
  ∃ h' m',
    makeLinkedEntriesLoop (elem :: es) m root h
    = makeLinkedEntriesLoop es m' (Some (Datatypes.length done)) h'
    ∧ built (done ++ [elem]) h' m' (Some (Datatypes.length done)).
Proof.
  intros (Hlen & Hroot & Hnodes & Hmap).
  set (nd := node.mk (value elem) (if kind elem then None else m !! id elem) (id elem)
                     None None).
  set (m' := if kind elem then <[id elem := Datatypes.length h]> m else m).
  assert (Hrootnode : ∀ r, root = Some r → ∃ rn, h !! r = Some rn ∧ node.prev rn = None).
  { intros r ->. destruct (Datatypes.length done) as [|k] eqn:Hk; [discriminate|].
    injection Hroot as ->.
    destruct (lookup_lt_is_Some_2 done k ltac:(lia)) as [e He].
    destruct (Hnodes k e He) as (rn & Hrn & _ & _ & _ & Hprev & _).
    exists rn. split; [exact Hrn|]. rewrite Hprev. case_decide; [reflexivity|lia]. }
  pose proof (insertBefore_root h nd root eq_refl eq_refl Hrootnode) as Hins.
  set (h' := match root with
             | Some r =>
                 <[Datatypes.length h := node.set_next root nd]>
                   (<[r := node.set_prev (Some (Datatypes.length h))
                             (default nd (h !! r))]> (h ++ [nd]))
             | None => h ++ [nd]
             end) in *.
  exists h', m'. split.
  - cbn [makeLinkedEntriesLoop]. unfold new.
    destruct (kind elem) eqn:Hkind; fold nd; rewrite Hins; cbn [mbind option_bind];
      subst m'; rewrite Hlen; reflexivity.
  - assert (Hlen' : Datatypes.length h' = S (Datatypes.length done)).
    { subst h'. destruct root; rewrite ?length_insert, length_app; simpl; lia. }
    assert (Hnew : h' !! Datatypes.length done = Some (node.set_next root nd)).
    { subst h'. rewrite <- Hlen. destruct root as [r|].
      - apply list_lookup_insert_eq. rewrite length_insert, length_app. simpl. lia.
      - rewrite lookup_app_r, Nat.sub_diag by lia. reflexivity. }
    split; [rewrite length_app; simpl; lia|].
    split; [rewrite length_app, Nat.add_1_r; reflexivity|].
    rewrite length_app, Nat.add_1_r. split.
    + intros j e He.
      destruct (decide (j < Datatypes.length done)%nat) as [Hj|Hj].
      * rewrite lookup_app_l in He by lia.
        destruct (Hnodes j e He) as (nj & Hnj & Hnode).
        destruct (Datatypes.length done) as [|k] eqn:Hk; [lia|]. subst root.
        destruct (decide (j = k)) as [->|Hne].
        -- exists (node.set_prev (Some (S k)) nj). split.
           ++ subst h'. cbv beta iota. unfold heap, ptr in *.
              rewrite list_lookup_insert_ne by lia.
              rewrite Hnj. cbn [default]. rewrite <- Hlen.
              apply list_lookup_insert_eq. rewrite length_app. simpl. lia.
           ++ destruct Hnode as (Hv & Hi & Hnext & Hprev & Hret & Hcall).
              repeat split; try assumption.
              ** simpl. destruct (decide (S k = S (S k))); [lia|reflexivity].
              ** intros Hkind. simpl. apply nearest_app; [lia|auto].
        -- exists nj. split.
           ++ subst h'. cbv beta iota. unfold heap, ptr in *.
              rewrite !list_lookup_insert_ne by lia.
              rewrite lookup_app_l by lia. exact Hnj.
           ++ rewrite <- Hk. rewrite <- Hk in Hnode.
              apply nodeOf_app; [lia|lia|exact Hnode].
      * pose proof (lookup_lt_Some _ _ _ He) as Hlt. rewrite length_app in Hlt. simpl in Hlt.
        assert (j = Datatypes.length done) as -> by lia.
        rewrite lookup_app_r, Nat.sub_diag in He by lia. injection He as <-.
        exists (node.set_next root nd). split; [exact Hnew|].
        repeat split.
        -- simpl. exact Hroot.
        -- simpl. destruct (decide (S (Datatypes.length done) = S (Datatypes.length done)));
             [reflexivity|lia].
        -- intros Hkind. simpl. rewrite Hkind. reflexivity.
        -- intros Hkind. simpl. rewrite Hkind. apply nearest_app; [lia|apply Hmap].
    + intros i. subst m'. destruct (kind elem) eqn:Hkind.
      * destruct (decide (i = id elem)) as [->|Hne].
        -- rewrite lookup_insert_eq. simpl. split; [lia|]. split.
           ++ exists elem. split; [|split; [exact Hkind|reflexivity]].
              rewrite Hlen, lookup_app_r, Nat.sub_diag by lia. reflexivity.
           ++ intros q' r Hq'. lia.
        -- rewrite lookup_insert_ne by congruence.
           apply nearest_snoc; [|apply Hmap]. intros [_ Hid]. congruence.
      * apply nearest_snoc; [|apply Hmap]. intros [Hret _].
        rewrite Hkind in Hret. discriminate Hret.
Qed.

Lemma makeLinkedEntriesLoop_built (es : list entry) : ∀ done h m root,
  built done h m root →
  ∃ h' m',
    makeLinkedEntriesLoop es m root h
    = Some (h', match Datatypes.length (done ++ es) with O => None | S k => Some k end)
    ∧ built (done ++ es) h' m'
            (match Datatypes.length (done ++ es) with O => None | S k => Some k end).
Proof.
  induction es as [|elem es IH]; intros done h m root Hbuilt.
  - exists h, m. rewrite app_nil_r. destruct Hbuilt as (Hlen & Hroot & Hrest).
    split; [simpl; rewrite Hroot; reflexivity|].
    split; [exact Hlen|]. split; [reflexivity|exact Hrest].
  - destruct (built_step done h m root elem es Hbuilt) as (h1 & m1 & Hrun & Hbuilt1).
    destruct (IH _ _ _ _ Hbuilt1) as (h' & m' & Hrun' & Hbuilt').
    rewrite <- app_assoc in Hrun', Hbuilt'. simpl in Hrun', Hbuilt'.
    exists h', m'. split; [rewrite Hrun; exact Hrun'|exact Hbuilt'].
Qed.

(** The walk of [length] from the node at [j] of a list built this way. *)
Lemma lengthFrom_built (es : list entry) (h : heap) (n : nat) :
  (∀ j e, es !! j = Some e → ∃ nd, h !! j = Some nd ∧ nodeOf es n j e nd) →
  ∀ j fuel l, (j < Datatypes.length es)%nat → (j < fuel)%nat →
              lengthFrom fuel (Some j) h l = Some (l + Z.of_nat j + 1).
Proof.
  intros Hnodes. induction j as [|j IH]; intros fuel l Hj Hfuel;
    (destruct fuel as [|fuel]; [lia|]);
    destruct (lookup_lt_is_Some_2 es _ Hj) as [e He];
    destruct (Hnodes _ e He) as (nd & Hnd & _ & _ & Hnext & _);
    simpl; unfold load; simpl; unfold heap, ptr in *; rewrite Hnd; simpl; rewrite Hnext.
  - destruct fuel; simpl; f_equal; lia.
  - rewrite IH by lia. f_equal. lia.
Qed.

Lemma chain_built (es : list entry) (h : heap) (n : nat) :
  n = Datatypes.length es →
  (∀ j e, es !! j = Some e → ∃ nd, h !! j = Some nd ∧ nodeOf es n j e nd) →
  ∀ k, (k ≤ n)%nat →
       chain h (if decide (k = n) then None else Some k) (rev (seq 0 k)) None.
Proof.
  intros Hn Hnodes. induction k as [|k IH]; intros Hk; [exact I|].
  rewrite seq_S, rev_app_distr. simpl. split.
  - destruct (lookup_lt_is_Some_2 es k ltac:(lia)) as [e He].
    destruct (Hnodes _ e He) as (nd & Hnd & _ & _ & Hnext & Hprev & _).
    exists nd. split; [exact Hnd|]. split; [exact Hprev|].
    rewrite Hnext. destruct k as [|k]; [reflexivity|].
    rewrite seq_S, rev_app_distr. reflexivity.
  - specialize (IH ltac:(lia)). rewrite decide_False in IH by lia. exact IH.
Qed.

(** X25. [makeLinkedEntries] allocates one node per entry, the last entry first,
    and returns the node of the first entry. Each node carries its entry's
    value and id; the nodes are linked in the order of the entries; a return
    has no match and a call's match is the nearest later return with the
    call's id (nil when there is none). [length] of the result is the number
    of entries. *)
Theorem makeLinkedEntries_spec (entries : list entry) :
  let n := Datatypes.length entries in
  let root := match n with O => None | S k => Some k end in
  ∃ h,
    makeLinkedEntries entries = Some (h, root)
    ∧ Datatypes.length h = n
    ∧ (∀ j e, rev entries !! j = Some e →
              ∃ nd, h !! j = Some nd ∧ nodeOf (rev entries) n j e nd)
    ∧ chain h None (rev (seq 0 n)) None
    ∧ length root h = Some (Z.of_nat n).
Proof.
  intros n root.
  assert (Hempty : built [] [] ∅ None).
  { split; [reflexivity|]. split; [reflexivity|]. split.
    - intros j e He. rewrite lookup_nil in He. discriminate.
    - intros i. rewrite lookup_empty. intros q r Hq. simpl in Hq. lia. }
  destruct (makeLinkedEntriesLoop_built (rev entries) [] [] ∅ None Hempty)
    as (h & m & Hrun & Hlen & _ & Hnodes & _).
  simpl in Hrun, Hlen, Hnodes. rewrite length_rev in Hrun, Hlen, Hnodes.
  fold n in Hrun, Hlen, Hnodes. fold root in Hrun.
  exists h. split; [exact Hrun|]. split; [exact Hlen|]. split; [exact Hnodes|]. split.
  - pose proof (chain_built (rev entries) h n ltac:(rewrite length_rev; reflexivity)
                  Hnodes n ltac:(lia)) as Hchain.
    rewrite decide_True in Hchain by reflexivity. exact Hchain.
  - unfold length. rewrite Hlen. subst root n.
    destruct (Datatypes.length entries) as [|k] eqn:Hk; [reflexivity|].
    rewrite (lengthFrom_built (rev entries) h (S k) Hnodes) by (rewrite ?length_rev; lia).
    f_equal. lia.
Qed.
(** ** popcnt *)

Lemma land_mod_pow2 a b n :
  0 <= n → Z.land a b mod 2 ^ n = Z.land (a mod 2 ^ n) (b mod 2 ^ n).
Proof.
  intros Hn. rewrite <- !Z.land_ones by lia. apply Z.bits_inj'. intros i Hi.
  rewrite !Z.land_spec. destruct (Z.testbit a i), (Z.testbit b i), (Z.testbit (Z.ones n) i);
    reflexivity.
Qed.

Lemma land_div_pow2 a b n :
  0 <= n → Z.land a b / 2 ^ n = Z.land (a / 2 ^ n) (b / 2 ^ n).
Proof. intros Hn. rewrite <- !Z.shiftr_div_pow2 by lia. apply Z.shiftr_land. Qed.

Lemma split_byte y lo hi : y mod 256 = lo → y / 256 = hi → y = lo + 256 * hi.
Proof. intros <- <-. pose proof (Z.div_mod y 256). lia. Qed.

Lemma low_byte lo hi : 0 <= lo < 256 → (lo + 256 * hi) mod 256 = lo.
Proof.
  intros Hlo. rewrite (Z.mul_comm 256 hi), Z.mod_add, Z.mod_small by lia. reflexivity.
Qed.

Lemma high_bytes lo hi : 0 <= lo < 256 → (lo + 256 * hi) / 256 = hi.
Proof.
  intros Hlo. rewrite (Z.mul_comm 256 hi), Z.div_add, Z.div_small by lia. lia.
Qed.

(** [land] works byte by byte. *)
Lemma land_bytes lo hi m M :
  0 <= lo < 256 → 0 <= m < 256 →
  Z.land (lo + 256 * hi) (m + 256 * M) = Z.land lo m + 256 * Z.land hi M.
Proof.
  intros Hlo Hm. apply split_byte.
  - change 256 with (2 ^ 8). rewrite land_mod_pow2 by lia. change (2 ^ 8) with 256.
    rewrite !low_byte by assumption. reflexivity.
  - change 256 with (2 ^ 8). rewrite land_div_pow2 by lia. change (2 ^ 8) with 256.
    rewrite !high_bytes by assumption. reflexivity.
Qed.

(** A shift to the right under a mask whose [s] highest bits of each byte
    are clear works byte by byte too. *)
Lemma land_shiftr_bytes s lo hi m M :
  0 <= s → 0 <= lo < 256 → 0 <= hi → 0 <= m < 2 ^ (8 - s) → s <= 8 →
  Z.land (Z.shiftr (lo + 256 * hi) s) (m + 256 * M)
  = Z.land (Z.shiftr lo s) m + 256 * Z.land (Z.shiftr hi s) M.
Proof.
  intros Hs Hlo Hhi Hm Hs8.
  assert (Hm256 : 0 <= m < 256).
  { split; [lia|]. apply Z.lt_le_trans with (2 ^ (8 - s)); [lia|].
    change 256 with (2 ^ 8). apply Z.pow_le_mono_r; lia. }
  assert (Hpos : 0 < 2 ^ s) by (apply Z.pow_pos_nonneg; lia).
  apply split_byte.
  - change 256 with (2 ^ 8). rewrite land_mod_pow2 by lia. change (2 ^ 8) with 256.
    rewrite (low_byte m) by assumption.
    apply Z.bits_inj'. intros i Hi. rewrite !Z.land_spec.
    destruct (Z.ltb_spec i (8 - s)) as [Hlt|Hge].
    + f_equal. change 256 with (2 ^ 8). rewrite Z.mod_pow2_bits_low by lia.
      rewrite !Z.shiftr_spec by lia.
      rewrite <- (Z.mod_pow2_bits_low (lo + 2 ^ 8 * hi) 8 (i + s)) by lia.
      change (2 ^ 8) with 256. rewrite low_byte by assumption. reflexivity.
    + assert (Hbit : Z.testbit m i = false).
      { destruct (Z.eq_dec m 0) as [->|Hnz]; [apply Z.bits_0|].
        apply Z.bits_above_log2; [lia|].
        apply Z.lt_le_trans with (8 - s); [|lia]. apply Z.log2_lt_pow2; lia. }
      rewrite Hbit, !andb_false_r. reflexivity.
  - change 256 with (2 ^ 8). rewrite land_div_pow2 by lia. change (2 ^ 8) with 256.
    rewrite (high_bytes m) by assumption. f_equal.
    rewrite !Z.shiftr_div_pow2 by lia.
    rewrite Z.div_div by lia.
    rewrite (Z.mul_comm (2 ^ s)), <- Z.div_div by lia.
    rewrite high_bytes by assumption. reflexivity.
Qed.

Lemma foldFields_bytes s lo hi m M :
  0 <= s → 0 <= lo < 256 → 0 <= hi → 0 <= m < 2 ^ (8 - s) → s <= 8 →
  foldFields s (m + 256 * M) (lo + 256 * hi) = foldFields s m lo + 256 * foldFields s M hi.
Proof.
  intros Hs Hlo Hhi Hm Hs8. unfold foldFields.
  assert (Hm256 : 0 <= m < 256).
  { split; [lia|]. apply Z.lt_le_trans with (2 ^ (8 - s)); [lia|].
    change 256 with (2 ^ 8). apply Z.pow_le_mono_r; lia. }
  rewrite land_bytes, land_shiftr_bytes by assumption. lia.
Qed.

(** A check made on each of the 256 bytes holds of every byte. *)
Lemma every_byte (P : Z → bool) :
  forallb P (map Z.of_nat (seq 0 256)) = true → ∀ lo, 0 <= lo < 256 → P lo = true.
Proof.
  intros Hall lo Hlo. rewrite forallb_forall in Hall. apply Hall.
  apply in_map_iff. exists (Z.to_nat lo). split; [lia|]. apply in_seq. lia.
Qed.

Lemma foldFields_byte (lo : Z) :
  0 <= lo < 256 →
  0 <= foldFields 1 0x55 lo < 256
  ∧ 0 <= foldFields 2 0x33 (foldFields 1 0x55 lo) < 256
  ∧ foldFields 4 0x0F (foldFields 2 0x33 (foldFields 1 0x55 lo)) = bitCount 8 lo.
Proof.
  intros Hlo.
  pose proof (every_byte
    (λ lo, let a := foldFields 1 0x55 lo in
           let b := foldFields 2 0x33 a in
           (0 <=? a) && (a <? 256) && (0 <=? b) && (b <? 256)
           && (foldFields 4 0x0F b =? bitCount 8 lo)) ltac:(vm_compute; reflexivity) lo Hlo)
    as Hcheck.
  cbv beta zeta in Hcheck.
  repeat (apply andb_prop in Hcheck as [Hcheck ?]).
  repeat split; lia.
Qed.

Lemma byteMask_nonneg m n : 0 <= m → 0 <= byteMask m n.
Proof. intros Hm. induction n; simpl; lia. Qed.

Lemma foldFields_nonneg s M x : 0 <= M → 0 <= foldFields s M x.
Proof.
  intros HM. unfold foldFields.
  assert (0 <= Z.land x M) by (apply Z.land_nonneg; auto).
  assert (0 <= Z.land (Z.shiftr x s) M) by (apply Z.land_nonneg; auto).
  lia.
Qed.

Lemma bytes_of x : 0 <= x → x = x mod 256 + 256 * (x / 256) ∧ 0 <= x mod 256 < 256 ∧ 0 <= x / 256.
Proof.
  intros Hx. pose proof (Z.div_mod x 256). pose proof (Z.mod_pos_bound x 256).
  pose proof (Z.div_pos x 256). lia.
Qed.

(** The three rounds leave in each byte the count of its bits. *)
Lemma foldBytes_counts (n : nat) : ∀ x, 0 <= x → foldBytes n x = byteCounts n x.
Proof.
  induction n as [|n IH]; intros x Hx.
  - unfold foldBytes, foldFields. simpl. rewrite !Z.land_0_r. reflexivity.
  - destruct (bytes_of x Hx) as (Hsplit & Hlo & Hhi).
    destruct (foldFields_byte (x mod 256) Hlo) as (Ha & Hb & Hc).
    unfold foldBytes. cbn [byteMask byteCounts]. rewrite Hsplit at 1.
    rewrite foldFields_bytes by (simpl; lia).
    rewrite foldFields_bytes
      by (simpl; try lia; apply foldFields_nonneg, byteMask_nonneg; lia).
    rewrite foldFields_bytes
      by (simpl; try lia; repeat (apply foldFields_nonneg, byteMask_nonneg; try lia)).
    rewrite Hc. f_equal. f_equal. apply IH. exact Hhi.
Qed.

Lemma bitCount_bounds n v : 0 <= bitCount n v <= Z.of_nat n.
Proof.
  induction n as [|n IH]; [simpl; lia|].
  cbn [bitCount]. destruct (Z.testbit v (Z.of_nat n)); simpl; lia.
Qed.

Lemma bitCount_mod n v : bitCount n (v mod 2 ^ Z.of_nat n) = bitCount n v.
Proof.
  assert (Hgen : ∀ k, (k ≤ n)%nat → bitCount k (v mod 2 ^ Z.of_nat n) = bitCount k v).
  { induction k as [|k IH]; intros Hk; [reflexivity|].
    cbn [bitCount]. rewrite IH by lia. rewrite Z.mod_pow2_bits_low by lia. reflexivity. }
  apply Hgen. lia.
Qed.

Lemma bitCount_bytes n v :
  bitCount (n + 8) v = bitCount 8 (v mod 256) + bitCount n (v / 256).
Proof.
  induction n as [|n IH].
  - change 256 with (2 ^ Z.of_nat 8). rewrite bitCount_mod. simpl. lia.
  - change (S n + 8)%nat with (S (n + 8)).
    change (bitCount (S (n + 8)) v)
      with (bitCount (n + 8) v + Z.b2z (Z.testbit v (Z.of_nat (n + 8)))).
    change (bitCount (S n) (v / 256))
      with (bitCount n (v / 256) + Z.b2z (Z.testbit (v / 256) (Z.of_nat n))).
    rewrite IH.
    replace (Z.testbit (v / 256) (Z.of_nat n)) with (Z.testbit v (Z.of_nat (n + 8))); [lia|].
    change 256 with (2 ^ 8). rewrite Z.div_pow2_bits by lia. f_equal. lia.
Qed.

Lemma byteCounts_lt n x : 0 <= byteCounts n x < 256 ^ Z.of_nat n.
Proof.
  revert x. induction n as [|n IH]; intros x; [simpl; lia|].
  cbn [byteCounts]. pose proof (bitCount_bounds 8 (x mod 256)). specialize (IH (x / 256)).
  replace (Z.of_nat (S n)) with (Z.of_nat n + 1) by lia.
  rewrite Z.pow_add_r by lia. simpl Z.pow at 2. lia.
Qed.

(** One round keeps a number of [n] bytes within [n] bytes. *)
Lemma foldFields_lt s m (n : nat) :
  0 <= s <= 8 → 0 <= m < 2 ^ (8 - s) →
  (∀ lo, 0 <= lo < 256 → foldFields s m lo < 256) →
  ∀ x, 0 <= x → foldFields s (byteMask m n) x < 256 ^ Z.of_nat n.
Proof.
  intros Hs Hm Hbyte. induction n as [|n IH]; intros x Hx.
  - unfold foldFields. simpl. rewrite !Z.land_0_r. lia.
  - destruct (bytes_of x Hx) as (Hsplit & Hlo & Hhi).
    cbn [byteMask]. rewrite Hsplit. rewrite foldFields_bytes by lia.
    specialize (IH _ Hhi). specialize (Hbyte _ Hlo).
    pose proof (foldFields_nonneg s m (x mod 256) ltac:(lia)).
    replace (Z.of_nat (S n)) with (Z.of_nat n + 1) by lia.
    rewrite Z.pow_add_r by lia. simpl Z.pow at 2. lia.
Qed.

Lemma foldFields_byte_lt (lo : Z) :
  0 <= lo < 256 →
  foldFields 1 0x55 lo < 256 ∧ foldFields 2 0x33 lo < 256 ∧ foldFields 4 0x0F lo < 256.
Proof.
  intros Hlo.
  pose proof (every_byte
    (λ lo, (foldFields 1 0x55 lo <? 256) && (foldFields 2 0x33 lo <? 256)
           && (foldFields 4 0x0F lo <? 256)) ltac:(vm_compute; reflexivity) lo Hlo)
    as Hcheck.
  cbv beta in Hcheck.
  repeat (apply andb_prop in Hcheck as [Hcheck ?]).
  repeat split; lia.
Qed.

(** A round as [popcnt] writes it. *)
Lemma round_foldFields s Mlo Mhi x :
  Z.shiftr Mhi s = Mlo →
  Z.land x Mlo + Z.shiftr (Z.land x Mhi) s = foldFields s Mlo x.
Proof. intros <-. unfold foldFields. rewrite Z.shiftr_land. reflexivity. Qed.

Lemma u64_small x : 0 <= x < 2 ^ 64 → u64 x = x.
Proof. intros Hx. unfold u64. apply Z.mod_small. exact Hx. Qed.

Lemma bitCount_byteSum (n : nat) : ∀ v, bitCount (8 * n) v = byteSum n v.
Proof.
  induction n as [|n IH]; intros v; [reflexivity|].
  replace (8 * S n)%nat with (8 * n + 8)%nat by lia.
  rewrite bitCount_bytes, IH. reflexivity.
Qed.

(** The multiplication adds the eight bytes up in the highest byte. *)
Lemma multiply_sums (v : Z) :
  0 <= v →
  Z.land (Z.shiftr (u64 (byteCounts 8 v * 0x0101010101010101)) 56) 0xFF = byteSum 8 v.
Proof.
  intros Hv. cbn [byteCounts byteSum].
  set (v1 := v / 256). set (v2 := v1 / 256). set (v3 := v2 / 256). set (v4 := v3 / 256).
  set (v5 := v4 / 256). set (v6 := v5 / 256). set (v7 := v6 / 256).
  pose proof (bitCount_bounds 8 (v mod 256)) as H0.
  pose proof (bitCount_bounds 8 (v1 mod 256)) as H1.
  pose proof (bitCount_bounds 8 (v2 mod 256)) as H2.
  pose proof (bitCount_bounds 8 (v3 mod 256)) as H3.
  pose proof (bitCount_bounds 8 (v4 mod 256)) as H4.
  pose proof (bitCount_bounds 8 (v5 mod 256)) as H5.
  pose proof (bitCount_bounds 8 (v6 mod 256)) as H6.
  pose proof (bitCount_bounds 8 (v7 mod 256)) as H7.
  set (p0 := bitCount 8 (v mod 256)) in *. set (p1 := bitCount 8 (v1 mod 256)) in *.
  set (p2 := bitCount 8 (v2 mod 256)) in *. set (p3 := bitCount 8 (v3 mod 256)) in *.
  set (p4 := bitCount 8 (v4 mod 256)) in *. set (p5 := bitCount 8 (v5 mod 256)) in *.
  set (p6 := bitCount 8 (v6 mod 256)) in *. set (p7 := bitCount 8 (v7 mod 256)) in *.
  clearbody p0 p1 p2 p3 p4 p5 p6 p7. clear v1 v2 v3 v4 v5 v6 v7.
  change 0xFF with (Z.ones 8). rewrite Z.land_ones, Z.shiftr_div_pow2 by lia.
  unfold u64.
  set (low := p0 + 256 * (p0 + p1) + 256 ^ 2 * (p0 + p1 + p2)
              + 256 ^ 3 * (p0 + p1 + p2 + p3) + 256 ^ 4 * (p0 + p1 + p2 + p3 + p4)
              + 256 ^ 5 * (p0 + p1 + p2 + p3 + p4 + p5)
              + 256 ^ 6 * (p0 + p1 + p2 + p3 + p4 + p5 + p6)).
  set (total := p0 + p1 + p2 + p3 + p4 + p5 + p6 + p7).
  set (high := (p1 + p2 + p3 + p4 + p5 + p6 + p7)
               + 256 * (p2 + p3 + p4 + p5 + p6 + p7)
               + 256 ^ 2 * (p3 + p4 + p5 + p6 + p7)
               + 256 ^ 3 * (p4 + p5 + p6 + p7)
               + 256 ^ 4 * (p5 + p6 + p7)
               + 256 ^ 5 * (p6 + p7)
               + 256 ^ 6 * p7).
  replace ((p0 + 256 * (p1 + 256 * (p2 + 256 * (p3 + 256 * (p4 + 256 * (p5 + 256 * (p6 + 256 * (p7 + 256 * 0))))))))
           * 0x0101010101010101)
    with (low + total * 2 ^ 56 + high * 2 ^ 64) by (subst low total high; ring).
  assert (Hlow : 0 <= low < 2 ^ 56) by (subst low; lia).
  assert (Htotal : 0 <= total <= 64) by (subst total; lia).
  rewrite Z.mod_add by lia.
  rewrite (Z.mod_small (low + total * 2 ^ 56) (2 ^ 64)) by lia.
  rewrite Z.div_add by lia.
  rewrite (Z.div_small low (2 ^ 56)) by lia.
  rewrite (Z.mod_small (0 + total) (2 ^ 8)) by lia.
  subst total. lia.
Qed.

(** The Hamming weight of one word. *)
Lemma popcntWord_counts (v : Z) : 0 <= v → popcntWord v = bitCount 64 v.
Proof.
  intros Hv. unfold popcntWord.
  rewrite (round_foldFields 1 0x5555555555555555 0xAAAAAAAAAAAAAAAA) by reflexivity.
  change 0x5555555555555555 with (byteMask 0x55 8).
  set (a := foldFields 1 (byteMask 0x55 8) v).
  assert (Ha : 0 <= a < 2 ^ 64).
  { split; [apply foldFields_nonneg, byteMask_nonneg; lia|].
    apply (foldFields_lt 1 0x55 8); [lia|simpl; lia| |exact Hv].
    intros lo Hlo. apply foldFields_byte_lt. exact Hlo. }
  rewrite (u64_small a Ha).
  rewrite (round_foldFields 2 0x3333333333333333 0xCCCCCCCCCCCCCCCC) by reflexivity.
  change 0x3333333333333333 with (byteMask 0x33 8).
  set (b := foldFields 2 (byteMask 0x33 8) a).
  assert (Hb : 0 <= b < 2 ^ 64).
  { split; [apply foldFields_nonneg, byteMask_nonneg; lia|].
    apply (foldFields_lt 2 0x33 8); [lia|simpl; lia| |lia].
    intros lo Hlo. apply foldFields_byte_lt. exact Hlo. }
  rewrite (u64_small b Hb).
  rewrite (round_foldFields 4 0x0F0F0F0F0F0F0F0F 0xF0F0F0F0F0F0F0F0) by reflexivity.
  change 0x0F0F0F0F0F0F0F0F with (byteMask 0x0F 8).
  set (c := foldFields 4 (byteMask 0x0F 8) b).
  assert (Hc : c = byteCounts 8 v) by (apply foldBytes_counts; exact Hv).
  assert (Hc64 : 0 <= c < 2 ^ 64) by (rewrite Hc; apply (byteCounts_lt 8)).
  rewrite (u64_small c Hc64), Hc.
  rewrite multiply_sums by exact Hv.
  symmetry. apply (bitCount_byteSum 8).
Qed.

Lemma popcnt_fold (b : list Z) : ∀ acc,
  Forall (λ v, 0 <= v) b →
  fold_left (fun total v => u64 (total + popcntWord v)) b (u64 acc) = u64 (acc + bitsSet b).
Proof.
  induction b as [|v b IH]; intros acc Hall.
  - simpl. rewrite Z.add_0_r. reflexivity.
  - inversion Hall as [|? ? Hv Hrest]; subst. cbn [fold_left bitsSet foldr].
    replace (u64 (u64 acc + popcntWord v)) with (u64 (acc + popcntWord v))
      by (unfold u64; rewrite Z.add_mod_idemp_l by lia; reflexivity).
    rewrite IH by exact Hrest. rewrite popcntWord_counts by exact Hv.
    f_equal. fold (bitsSet b). lia.
Qed.

(** X19. [popcnt] returns the number of bits set in the words, each word a value
    of [uint64]: the sum over the words of the count of the set bits among
    the 64, taken modulo 2^64 as Go's [uint] adds -- and the sum itself as
    long as 64 times the number of words stays below 2^64. *)
Theorem popcnt_counts (b : bitset) :
  Forall (λ v, 0 <= v) b →
  popcnt b = u64 (bitsSet b)
  ∧ (64 * Z.of_nat (Datatypes.length b) < 2 ^ 64 → popcnt b = bitsSet b).
Proof.
  intros Hall.
  assert (Hpop : popcnt b = u64 (bitsSet b)).
  { unfold popcnt. change 0 with (u64 0) at 1. rewrite popcnt_fold by exact Hall.
    reflexivity. }
  split; [exact Hpop|]. intros Hlen. rewrite Hpop. apply u64_small.
  assert (Hbound : 0 <= bitsSet b <= 64 * Z.of_nat (Datatypes.length b)).
  { clear. induction b as [|v b IH]; [simpl; lia|].
    cbn [bitsSet foldr Datatypes.length]. fold (bitsSet b).
    pose proof (bitCount_bounds 64 v). lia. }
  lia.
Qed.

Lemma popcnt_counts_witness : popcnt [5; 2 ^ 63] = 3.
Proof.
  destruct (popcnt_counts [5; 2 ^ 63]) as [_ Hsum].
  - repeat constructor; lia.
  - rewrite Hsum; [reflexivity|simpl; lia].
Defined.
End LinFacts.
